(** * Verification of the segment planner and the portrait export engine
    of the video clip maker ([src/src/components/ClipCreator.tsx]).

    JavaScript numbers are modelled as exact rationals [Q], and, for the
    segment planner and the frame geometry, also as IEEE-754 binary64 floats
    with rounded arithmetic; the browser environment (media elements,
    recorder, timers) is modelled by explicit state and traces of observable
    effects. *)

From Stdlib Require Import ZArith QArith Qround Qpower Qabs Lqa List Ascii String Lia.
From Stdlib Require Import SpecFloat.
From Stdlib Require Import DecimalString.
Import ListNotations.

Open Scope Q_scope.

(** ** Number operations used by the component *)
Module JsNum.

(** [Math.min] on non-NaN numbers. *)
Definition math_min (a b : Q) : Q := if Qle_bool a b then a else b.

(** Strict [<] on numbers. *)
Definition qlt (a b : Q) : bool := negb (Qle_bool b a).

End JsNum.

(** ** Segment planner: [autoGenerateClips] *)
Module Planner.
Import JsNum.

(** [interface ClipSegment { start: number; duration: number; title: string }] *)
Record ClipSegment := mkSeg {
  start : Q;
  duration : Q;
  title : string
}.

(** Template literal interpolation of a (non-negative integer) number. *)
Definition string_of_nat (n : nat) : string :=
  NilZero.string_of_uint (Nat.to_uint n).

(** [`Clip ${n}`] *)
Definition clip_title (n : nat) : string :=
  ("Clip " ++ string_of_nat n)%string.

(** The [while (currentTime < video.duration)] loop of [autoGenerateClips].
    [fuel] bounds the number of iterations: [None] means the loop has not
    finished within [fuel] iterations, so the loop terminates on given
    inputs iff some fuel yields [Some]. *)
Fixpoint auto_loop (fuel : nat) (videoDuration clipDuration currentTime : Q)
    (newClips : list ClipSegment) : option (list ClipSegment) :=
  match fuel with
  | O => None
  | S fuel' =>
      if qlt currentTime videoDuration then
        let d := math_min clipDuration (videoDuration - currentTime) in
        auto_loop fuel' videoDuration clipDuration (currentTime + d)
          (List.app newClips [mkSeg currentTime d (clip_title (List.length newClips + 1))])
      else Some newClips
  end.

(** [autoGenerateClips]: [newClips = []], [currentTime = 0], run the loop;
    the result is what [setClips] receives. *)
Definition autoGenerateClips (fuel : nat) (videoDuration clipDuration : Q)
    : option (list ClipSegment) :=
  auto_loop fuel videoDuration clipDuration 0 [].

(** The [onChange] handler of the clip-duration input:
    [setClipDuration(Number(e.target.value))]; no clamping to [min]/[max]. *)
Definition onClipDurationChange (_old : Q) (inputValue : Q) : Q := inputValue.

(** *** Properties of a segment list *)

(** The segments tile [[c, total)]: each starts where the previous ended,
    has positive length, and the last one ends at [total]. *)
Fixpoint tiles (c total : Q) (segs : list ClipSegment) : Prop :=
  match segs with
  | [] => c == total
  | s :: r => start s == c /\ 0 < duration s /\ tiles (c + duration s) total r
  end.

Fixpoint starts_increasing (segs : list ClipSegment) : Prop :=
  match segs with
  | s1 :: ((s2 :: _) as r) => start s1 < start s2 /\ starts_increasing r
  | _ => True
  end.

(** Every segment but the last has length [slice]; the last has length at
    most [slice]. *)
Fixpoint sized (slice : Q) (segs : list ClipSegment) : Prop :=
  match segs with
  | [] => True
  | [s] => duration s <= slice
  | s :: r => duration s == slice /\ sized slice r
  end.

Definition titled_from (k : nat) (segs : list ClipSegment) : Prop :=
  forall i s, nth_error segs i = Some s -> title s = clip_title (k + i + 1).

Definition qnat (n : nat) : Q := inject_Z (Z.of_nat n).

End Planner.

(** ** The per-frame draw step of [exportPortraitClip] *)
Module Frame.
Import JsNum.

(** [canvas.width = 720; canvas.height = 1280] *)
Definition canvas_width : Q := 720.
Definition canvas_height : Q := 1280.

Record DrawRect := mkRect {
  drawWidth : Q;
  drawHeight : Q;
  offsetX : Q;
  offsetY : Q
}.

(** The geometry computed in [drawFrame] from [sourceVideo.videoWidth] and
    [sourceVideo.videoHeight]. *)
Definition frameGeometry (videoWidth videoHeight : Q) : DrawRect :=
  let sourceRatio := videoWidth / videoHeight in
  let targetRatio := canvas_width / canvas_height in
  if qlt targetRatio sourceRatio then
    let drawHeight := canvas_height in
    let drawWidth := videoWidth * (drawHeight / videoHeight) in
    mkRect drawWidth drawHeight (- (drawWidth - canvas_width) / 2) 0
  else
    let drawWidth := canvas_width in
    let drawHeight := videoHeight * (drawWidth / videoWidth) in
    mkRect drawWidth drawHeight 0 (- (drawHeight - canvas_height) / 2).

(** [recorder.state] *)
Inductive RecorderState := Inactive | Recording | Paused.

Definition is_inactive (st : RecorderState) : bool :=
  match st with Inactive => true | _ => false end.

(** Canvas and scheduling calls made by one [drawFrame] invocation. *)
Inductive FrameEffect :=
  | FillRect (x y w h : Q)          (* ctx.fillRect after fillStyle = 'black' *)
  | DrawImage (r : DrawRect)        (* ctx.drawImage(sourceVideo, ...) *)
  | RequestAnimationFrame.          (* requestAnimationFrame(drawFrame) *)

Definition drawFrame (recordingStopped : bool) (state : RecorderState)
    (videoWidth videoHeight : Q) : list FrameEffect :=
  if recordingStopped || is_inactive state then []
  else [FillRect 0 0 canvas_width canvas_height;
        DrawImage (frameGeometry videoWidth videoHeight);
        RequestAnimationFrame].

End Frame.

(** ** Confirming drafts: [generateClips] *)
Module Confirm.
Import Planner.

(** A row of [video_clips] as inserted by [generateClips]. *)
Record ClipRow := mkRow {
  row_video_id : string;
  row_title : string;
  row_file_path : string;
  row_start_time : Q;
  row_duration : Q
}.

(** Calls made to the outside world (user alerts, session provider, record
    store) and React state setters. *)
Inductive Effect :=
  | Alert (msg : string)
  | SetGenerating (b : bool)
  | GetUser
  | Insert (row : ClipRow)
  | LoadExistingClips
  | SetClips (l : list ClipSegment)
  | ConsoleError.

Record UIState := mkUI {
  clips : list ClipSegment;
  generatedClips : list ClipRow;
  generating : bool
}.

(** Answers of the collaborators: the current user, the outcome of each
    insert, and the rows returned by the reload query. *)
Record Backend := mkBackend {
  currentUser : option string;
  insertOk : ClipRow -> bool;
  storedRows : list ClipRow
}.

Definition row_of (videoId filePath : string) (clip : ClipSegment) : ClipRow :=
  mkRow videoId (title clip) filePath (start clip) (duration clip).

(** [generateClips] run to completion: the final UI state and the effects
    in program order.  [Promise.all] issues every insert before any result
    is awaited, so all inserts appear even when one of them fails. *)
Definition generateClips (be : Backend) (videoId filePath : string) (st : UIState)
    : UIState * list Effect :=
  if Nat.eqb (List.length (clips st)) 0 then
    (st, [Alert "Please add some clips first"])
  else if existsb (fun clip => Qle_bool (duration clip) 0) (clips st) then
    (st, [Alert "Clip duration must be greater than 0 seconds"])
  else
    match currentUser be with
    | None =>
        (mkUI (clips st) (generatedClips st) false,
             [SetGenerating true; GetUser; ConsoleError;
              Alert "Failed to generate clips. Please try again.";
              SetGenerating false])
    | Some _ =>
        let rows := map (row_of videoId filePath) (clips st) in
        if forallb (insertOk be) rows then
          (mkUI [] (storedRows be) false,
           ([SetGenerating true; GetUser] ++ map Insert rows ++
            [LoadExistingClips; SetClips []; Alert "Clips created successfully!";
             SetGenerating false])%list)
        else
          (mkUI (clips st) (generatedClips st) false,
           ([SetGenerating true; GetUser] ++ map Insert rows ++
            [ConsoleError; Alert "Failed to generate clips. Please try again.";
             SetGenerating false])%list)
    end.

Definition is_persistence_call (e : Effect) : bool :=
  match e with GetUser | Insert _ | LoadExistingClips => true | _ => false end.

End Confirm.

(** ** The portrait export engine: [exportPortraitClip] *)
Module ExportJob.
Import JsNum Frame.

Inductive TrackKind := AudioTrack | VideoTrack.

(** A [MediaStreamTrack], identified by object identity. *)
Record Track := mkTrack { track_id : nat; track_kind : TrackKind }.

(** The fields of a persisted [VideoClip] that the export reads. *)
Record VideoClip := mkClip {
  clip_id : string;
  clip_title : string;
  start_time : Q;
  clip_duration : Q
}.

(** Observable actions of an export: React state setters, media element,
    recorder, track and timer calls, and the file save. *)
Inductive Effect :=
  | SetErrorMessage (msg : option string)
  | SetExportingClipId (id : option string)
  | SeekTo (t : Q)
  | RecorderStart (mimeType : string)
  | PlayCalled
  | SetTimeout (delay : Q)
  | TimerFired
  | RecorderStop
  | TrackStop (id : nat)
  | PauseSource
  | ChunkPushed
  | Download (title : string).

(** An awaited media event: fires after a latency, errors after a latency,
    or never happens. *)
Inductive Await := Fires (latency : Q) | Errors (latency : Q) | Never.

(** The browser as seen by [exportPortraitClip]. *)
Record Browser := mkBrowser {
  hasMediaRecorder : bool;          (* typeof window.MediaRecorder !== 'undefined' *)
  metadataEvent : Await;            (* onloadedmetadata / onerror of sourceVideo *)
  seekedEvent : option Q;           (* latency of onseeked; None: never fires *)
  hasCaptureStream : bool;          (* sourceVideo.captureStream is defined *)
  hasContext2d : bool;              (* canvas.getContext('2d') is non-null *)
  isTypeSupported : string -> bool; (* MediaRecorder.isTypeSupported *)
  canvasStreamTracks : list Track;  (* canvas.captureStream().getTracks() *)
  sourceStreamTracks : list Track   (* sourceVideo.captureStream().getTracks() *)
}.

Definition preferredMimeTypes : list string :=
  ["video/webm;codecs=vp9"; "video/webm;codecs=vp8"; "video/webm"]%string.

Definition is_audio (t : Track) : bool :=
  match track_kind t with AudioTrack => true | VideoTrack => false end.

Definition is_video (t : Track) : bool := negb (is_audio t).

(** [new MediaStream([...canvasStream.getVideoTracks(), ...audioTracks])]
    with [audioTracks = sourceStream.getAudioTracks()]: the composed stream
    holds the very same track objects, it does not clone them. *)
Definition composedTracks (b : Browser) : list nat :=
  map track_id (filter is_video (canvasStreamTracks b) ++
                filter is_audio (sourceStreamTracks b))%list.

Definition sourceTracks (b : Browser) : list nat :=
  map track_id (sourceStreamTracks b).

Definition msg_not_ready : string := "Video belum siap diekspor.".
Definition msg_no_recorder : string :=
  "Browser tidak mendukung MediaRecorder untuk ekspor 9:16.".
Definition msg_failed : string :=
  "Gagal membuat video potrait. Coba lagi di browser lain jika masalah berlanjut.".

(** Effects stamped with the time (in milliseconds) they happen at. *)
Definition Log := list (Q * Effect).

(** Outcome of [exportPortraitClip] up to [recorder.start()]. *)
Inductive Prepared :=
  | PrepReturned (t : Q) (log : Log)
  | PrepHung (t : Q) (log : Log)
  | PrepReady (t : Q) (mimeType : string) (log : Log).

(** The [catch] and [finally] blocks. *)
Definition caught (t : Q) (log : Log) : Prepared :=
  PrepReturned t (log ++ [(t, SetErrorMessage (Some msg_failed));
                          (t, SetExportingClipId None)])%list.

Definition prepare (b : Browser) (videoUrl : string) (clip : VideoClip) (t0 : Q)
    : Prepared :=
  if String.eqb videoUrl "" then
    PrepReturned t0 [(t0, SetErrorMessage (Some msg_not_ready))]
  else if negb (hasMediaRecorder b) then
    PrepReturned t0 [(t0, SetErrorMessage (Some msg_no_recorder))]
  else
    let log0 := [(t0, SetErrorMessage None);
                 (t0, SetExportingClipId (Some (clip_id clip)))] in
    match metadataEvent b with
    | Never => PrepHung t0 log0
    | Errors l => caught (t0 + l) log0
    | Fires l =>
        let t1 := t0 + l in
        let log1 := (log0 ++ [(t1, SeekTo (start_time clip))])%list in
        match seekedEvent b with
        | None => PrepHung t1 log1
        | Some l' =>
            let t2 := t1 + l' in
            if negb (hasCaptureStream b) then caught t2 log1
            else if negb (hasContext2d b) then caught t2 log1
            else match find (isTypeSupported b) preferredMimeTypes with
                 | None => caught t2 log1
                 | Some m => PrepReady t2 m log1
                 end
        end
    end.

(** Where the async function is suspended once recording has started. *)
Inductive Stage := AwaitPlay | AwaitRecording | Finished | Failed.

Inductive PromiseState := Pending | Resolved | Rejected.

(** The state of one export job from [recorder.start()] on. *)
Record Job := mkJob {
  now : Q;
  stage : Stage;
  recordingStopped : bool;
  recState : RecorderState;
  timer : option Q;            (* due time of the pending setTimeout *)
  onstopPending : bool;        (* recorder stopped, its stop event not yet fired *)
  recordingPromise : PromiseState;
  chunks : nat;
  viewOpen : bool;             (* the ClipCreator view is mounted *)
  log : Log
}.

Definition emit (es : list Effect) (j : Job) : Job :=
  mkJob (now j) (stage j) (recordingStopped j) (recState j) (timer j)
    (onstopPending j) (recordingPromise j) (chunks j) (viewOpen j)
    (log j ++ map (fun e => (now j, e)) es)%list.
Definition set_now (t : Q) (j : Job) : Job :=
  mkJob t (stage j) (recordingStopped j) (recState j) (timer j)
    (onstopPending j) (recordingPromise j) (chunks j) (viewOpen j) (log j).
Definition set_stage (s : Stage) (j : Job) : Job :=
  mkJob (now j) s (recordingStopped j) (recState j) (timer j)
    (onstopPending j) (recordingPromise j) (chunks j) (viewOpen j) (log j).
Definition set_stopped (b : bool) (j : Job) : Job :=
  mkJob (now j) (stage j) b (recState j) (timer j)
    (onstopPending j) (recordingPromise j) (chunks j) (viewOpen j) (log j).
Definition set_recState (r : RecorderState) (j : Job) : Job :=
  mkJob (now j) (stage j) (recordingStopped j) r (timer j)
    (onstopPending j) (recordingPromise j) (chunks j) (viewOpen j) (log j).
Definition set_timer (t : option Q) (j : Job) : Job :=
  mkJob (now j) (stage j) (recordingStopped j) (recState j) t
    (onstopPending j) (recordingPromise j) (chunks j) (viewOpen j) (log j).
Definition set_onstop (b : bool) (j : Job) : Job :=
  mkJob (now j) (stage j) (recordingStopped j) (recState j) (timer j)
    b (recordingPromise j) (chunks j) (viewOpen j) (log j).
Definition set_promise (p : PromiseState) (j : Job) : Job :=
  mkJob (now j) (stage j) (recordingStopped j) (recState j) (timer j)
    (onstopPending j) p (chunks j) (viewOpen j) (log j).
Definition set_chunks (n : nat) (j : Job) : Job :=
  mkJob (now j) (stage j) (recordingStopped j) (recState j) (timer j)
    (onstopPending j) (recordingPromise j) n (viewOpen j) (log j).
Definition set_view (b : bool) (j : Job) : Job :=
  mkJob (now j) (stage j) (recordingStopped j) (recState j) (timer j)
    (onstopPending j) (recordingPromise j) (chunks j) b (log j).

(** A promise settles once. *)
Definition resolve (p : PromiseState) : PromiseState :=
  match p with Pending => Resolved | _ => p end.
Definition reject (p : PromiseState) : PromiseState :=
  match p with Pending => Rejected | _ => p end.

(** Events the job reacts to; the animation-frame draw loop only paints
    (see [Frame.drawFrame]) and is left out. *)
Inductive Event :=
  | Advance (dt : Q)
  | PlayResolves
  | PlayRejects
  | TimerFires
  | DataAvailable (size : nat)
  | RecorderOnStop
  | RecorderOnError
  | CloseView.

Section JobSteps.
Variable clip : VideoClip.
(** Track ids of [composedStream.getTracks()] and [sourceStream.getTracks()]. *)
Variables composed source : list nat.

(** [recorder.stop()]: an active recorder becomes inactive and will fire
    its stop event. *)
Definition recorder_stop (j : Job) : Job :=
  let j' := emit [RecorderStop] j in
  match recState j with
  | Inactive => j'
  | _ => set_onstop true (set_recState Inactive j')
  end.

(** [stopRecording], guarded by the one-shot [recordingStopped] flag. *)
Definition stopRecording (j : Job) : Job :=
  if recordingStopped j then j
  else emit (map TrackStop composed ++ map TrackStop source ++ [PauseSource])%list
         (recorder_stop (set_stopped true j)).

(** After [await recordingPromise] resolves: [stopRecording()], save the
    file, then [finally]. *)
Definition finish (j : Job) : Job :=
  set_stage Finished
    (emit [Download (clip_title clip); SetExportingClipId None] (stopRecording j)).

(** [catch] and [finally]. *)
Definition catch_finally (j : Job) : Job :=
  set_stage Failed (emit [SetErrorMessage (Some msg_failed); SetExportingClipId None] j).

(** [setTimeout(stopRecording, delay)]: the delay is converted to a WebIDL
    [long] (truncated towards zero, then reduced modulo 2^32 into
    [-2^31, 2^31)), and a negative result counts as 0 ms. *)
Definition webidl_long (x : Q) : Z :=
  let n := Z.modulo (if Qle_bool 0 x then Qfloor x else Qceiling x) (2 ^ 32) in
  if Z.leb (2 ^ 31) n then (n - 2 ^ 32)%Z else n.

Definition timer_delay (x : Q) : Z := Z.max 0 (webidl_long x).

(** Resume the suspended [await recordingPromise] once the promise settled. *)
Definition settle (j : Job) : Job :=
  match stage j, recordingPromise j with
  | AwaitRecording, Resolved => finish j
  | AwaitRecording, Rejected => catch_finally j
  | _, _ => j
  end.

Definition step (j : Job) (e : Event) : option Job :=
  match e with
  | Advance dt => if Qle_bool 0 dt then Some (set_now (now j + dt) j) else None
  | PlayResolves =>
      match stage j with
      | AwaitPlay =>
          let delay := clip_duration clip * 1000 in
          Some (settle (set_stage AwaitRecording
                  (set_timer (Some (now j + inject_Z (timer_delay delay)))
                     (emit [SetTimeout delay] j))))
      | _ => None
      end
  | PlayRejects =>
      match stage j with AwaitPlay => Some (catch_finally j) | _ => None end
  | TimerFires =>
      match timer j with
      | Some due =>
          if Qle_bool due (now j)
          then Some (stopRecording (emit [TimerFired] (set_timer None j)))
          else None
      | None => None
      end
  | DataAvailable size =>
      if negb (is_inactive (recState j)) || onstopPending j then
        Some (if Nat.ltb 0 size then emit [ChunkPushed] (set_chunks (S (chunks j)) j)
              else j)
      else None
  | RecorderOnStop =>
      if onstopPending j
      then Some (settle (set_promise (resolve (recordingPromise j)) (set_onstop false j)))
      else None
  | RecorderOnError =>
      if is_inactive (recState j) then None
      else Some (settle (set_onstop true (set_recState Inactive
                  (set_promise (reject (recordingPromise j)) j))))
  | CloseView => Some (set_view false j)
  end.

Fixpoint run (j : Job) (es : list Event) : option Job :=
  match es with
  | [] => Some j
  | e :: es' => match step j e with Some j' => run j' es' | None => None end
  end.

End JobSteps.

(** [recorder.start(); sourceVideo.play()] *)
Definition start_job (t : Q) (mimeType : string) (log0 : Log) : Job :=
  mkJob t AwaitPlay false Recording None false Pending 0 true
    (log0 ++ [(t, RecorderStart mimeType); (t, PlayCalled)])%list.

Inductive Launch := Started (j : Job) | Returned (log : Log) | Hung (log : Log).

(** [exportPortraitClip(clip)] invoked at time [t0]. *)
Definition exportPortraitClip (b : Browser) (videoUrl : string) (clip : VideoClip)
    (t0 : Q) : Launch :=
  match prepare b videoUrl clip t0 with
  | PrepReturned _ l => Returned l
  | PrepHung _ l => Hung l
  | PrepReady t m l => Started (start_job t m l)
  end.

Definition launch_log (x : Launch) : Log :=
  match x with Started j => log j | Returned l => l | Hung l => l end.

Definition starts_recording (e : Effect) : bool :=
  match e with RecorderStart _ | ChunkPushed | Download _ => true | _ => false end.

(** Counting effects of a kind in a log. *)
Definition count_effect (p : Effect -> bool) (l : Log) : nat :=
  List.length (filter (fun x => p (snd x)) l).

Definition is_recorder_stop (e : Effect) : bool :=
  match e with RecorderStop => true | _ => false end.
Definition is_pause (e : Effect) : bool :=
  match e with PauseSource => true | _ => false end.
Definition is_track_stop (id : nat) (e : Effect) : bool :=
  match e with TrackStop k => Nat.eqb k id | _ => false end.
Definition is_download (e : Effect) : bool :=
  match e with Download _ => true | _ => false end.

End ExportJob.

(** ** Sample inputs *)
Module Samples.
Import Frame ExportJob.

(** A browser with a canvas video track 0, a source stream holding an audio
    track 1 and a video track 2, supporting only VP8 webm; metadata arrives
    after 50 ms and the seek completes 20 ms later. *)
Definition sample_browser : Browser :=
  mkBrowser true (Fires 50) (Some 20) true true
    (fun m => String.eqb m "video/webm;codecs=vp8")
    [mkTrack 0 VideoTrack] [mkTrack 1 AudioTrack; mkTrack 2 VideoTrack].

Definition sample_url : string := "https://example.org/videos/talk.mp4".

(** The same browser without [window.MediaRecorder]. *)
Definition browser_without_recorder : Browser :=
  mkBrowser false (Fires 50) (Some 20) true true
    (fun m => String.eqb m "video/webm;codecs=vp8")
    [mkTrack 0 VideoTrack] [mkTrack 1 AudioTrack; mkTrack 2 VideoTrack].

(** A 10-second clip starting at 30 s. *)
Definition sample_clip : VideoClip := mkClip "clip-a" "Clip 1" 30 10.


End Samples.

(** ** The in-flight flag of the clip list *)
Module ExportUI.

(** [exportingClipId] of the mounted [ClipCreator], the export jobs still
    running, each with its clip id and the mount of the component that
    started it, and the number of the current mount. *)
Record UI := mkUIState {
  exportingClipId : option string;
  jobs : list (string * nat);
  mount : nat
}.

(** The clip ids of the export jobs still running. *)
Definition inflight (ui : UI) : list string := map fst (jobs ui).

Inductive UIEvent :=
  | ClickExport (id : string)          (* click on the clip's "Ekspor 9:16" button *)
  | JobSettles (id : string) (m : nat) (* a job of that clip, started in mount m,
                                          reaches its finally *)
  | Remount.                           (* ClipCreator unmounts and mounts again *)

(** [disabled={exportingClipId === clip.id}] *)
Definition button_disabled (ui : UI) (id : string) : bool :=
  match exportingClipId ui with Some x => String.eqb x id | None => false end.

Definition job_eqb (a b : string * nat) : bool :=
  String.eqb (fst a) (fst b) && Nat.eqb (snd a) (snd b).

Fixpoint remove_one (x : string * nat) (l : list (string * nat)) : list (string * nat) :=
  match l with
  | [] => []
  | y :: r => if job_eqb y x then r else y :: remove_one x r
  end.

(** [videoReady]: [videoUrl] is non-empty; [hasRecorder]: MediaRecorder is
    defined.  A click on a disabled button does nothing; otherwise
    [exportPortraitClip] either returns early or sets [exportingClipId] and
    starts a job.  Its [finally] resets [exportingClipId] to [null]; the
    setter of an unmounted component does nothing.  A new mount starts
    with [exportingClipId = null] while the jobs of earlier mounts keep
    running. *)
Definition ui_step (videoReady hasRecorder : bool) (ui : UI) (e : UIEvent) : option UI :=
  match e with
  | ClickExport id =>
      if button_disabled ui id then Some ui
      else if negb videoReady then Some ui
      else if negb hasRecorder then Some ui
      else Some (mkUIState (Some id) ((id, mount ui) :: jobs ui) (mount ui))
  | JobSettles id m =>
      if existsb (job_eqb (id, m)) (jobs ui)
      then Some (mkUIState (if Nat.eqb m (mount ui) then None else exportingClipId ui)
                           (remove_one (id, m) (jobs ui)) (mount ui))
      else None
  | Remount => Some (mkUIState None (jobs ui) (S (mount ui)))
  end.

Fixpoint ui_run (videoReady hasRecorder : bool) (ui : UI) (es : list UIEvent)
    : option UI :=
  match es with
  | [] => Some ui
  | e :: es' =>
      match ui_step videoReady hasRecorder ui e with
      | Some ui' => ui_run videoReady hasRecorder ui' es'
      | None => None
      end
  end.

Definition ui_init : UI := mkUIState None [] 0.

Definition jobs_of (id : string) (ui : UI) : nat :=
  List.length (filter (String.eqb id) (inflight ui)).

End ExportUI.

(** ** Editing the draft list: [addClip] and [removeClip] *)
Module Drafts.
Import JsNum Planner.

(** [addClip]: [videoTime] is [videoRef.current?.currentTime], [None] while
    the ref is not attached; [|| 0] turns [undefined] (and [0]) into [0]. *)
Definition addClip (videoTime : option Q) (videoDuration clipDuration : Q)
    (clips : list ClipSegment) : list ClipSegment :=
  let currentTime := match videoTime with Some t => t | None => 0 end in
  let duration := math_min clipDuration (videoDuration - currentTime) in
  List.app clips [mkSeg currentTime duration (clip_title (List.length clips + 1))].

(** [l.filter((_, i) => i !== index)], with [i] counted from [k]. *)
Fixpoint filter_index {A : Type} (index k : nat) (l : list A) : list A :=
  match l with
  | [] => []
  | x :: r =>
      if Nat.eqb k index then filter_index index (S k) r
      else x :: filter_index index (S k) r
  end.

(** [removeClip(index)]: [setClips(clips.filter((_, i) => i !== index))] *)
Definition removeClip (index : nat) (clips : list ClipSegment) : list ClipSegment :=
  filter_index index 0 clips.

End Drafts.

(** ** The file name of a portrait export *)
Module FileName.
Local Open Scope Z_scope.

(** A JavaScript string is a sequence of UTF-16 code units. *)
Definition js_string := list Z.

(** The code units of a string literal written in ASCII. *)
Fixpoint units (s : string) : js_string :=
  match s with
  | EmptyString => []
  | String c s' => Z.of_nat (nat_of_ascii c) :: units s'
  end.

(** [\s] of a regular expression without the [u] flag: the WhiteSpace code
    units (tab, vertical tab, form feed, U+FEFF and the space separators
    U+0020, U+00A0, U+1680, U+2000-U+200A, U+202F, U+205F, U+3000) and the
    LineTerminator ones (line feed, carriage return, U+2028, U+2029). *)
Definition is_js_space (u : Z) : bool :=
  ((9 <=? u) && (u <=? 13)) || (u =? 32) || (u =? 160) || (u =? 5760) ||
  ((8192 <=? u) && (u <=? 8202)) || (u =? 8232) || (u =? 8233) || (u =? 8239) ||
  (u =? 8287) || (u =? 12288) || (u =? 65279).

(** [s.replace(/\s+/g, '-')]: each maximal run of whitespace becomes one
    ['-'] (code unit 45); [inRun] holds while scanning a run already
    replaced. *)
Fixpoint replace_ws (inRun : bool) (s : js_string) : js_string :=
  match s with
  | [] => []
  | u :: s' =>
      if is_js_space u then
        if inRun then replace_ws true s' else 45 :: replace_ws true s'
      else u :: replace_ws false s'
  end.

(** [String.prototype.toLowerCase] applies the Unicode lower-case mapping
    (with its context rules, such as the final sigma), which is not
    tabulated here: [download_name] takes that function as its argument
    [toLowerCase].  What the proofs use of it is [lower_on_ascii]: on a
    string of ASCII code units it maps A-Z (65-90) 32 code units up and
    keeps every other unit. *)
Definition ascii_lower (u : Z) : Z := if (65 <=? u) && (u <=? 90) then u + 32 else u.

Definition is_ascii_unit (u : Z) : bool := (0 <=? u) && (u <? 128).

Definition lower_on_ascii (toLowerCase : js_string -> js_string) : Prop :=
  forall s, forallb is_ascii_unit s = true -> toLowerCase s = map ascii_lower s.

(** [link.download] in [exportPortraitClip]:
    [`${clip.title.replace(/\s+/g, '-').toLowerCase()}-portrait.webm`] *)
Definition download_name (toLowerCase : js_string -> js_string) (title : js_string) : js_string :=
  toLowerCase (replace_ws false title) ++ units "-portrait.webm".

End FileName.

(** ** Effects inspected by the export checks *)
Module ExportChecks.
Import ExportJob.

(** The message of the [catch] block of [exportPortraitClip]. *)
Definition is_failure_message (e : Effect) : bool :=
  match e with SetErrorMessage (Some m) => String.eqb m msg_failed | _ => false end.

(** [setExportingClipId(null)] of the [finally] block. *)
Definition is_flag_reset (e : Effect) : bool :=
  match e with SetExportingClipId None => true | _ => false end.

(** The successive values written to [exportingClipId]. *)
Definition flag_writes (l : Log) : list (option string) :=
  flat_map (fun x => match snd x with SetExportingClipId v => [v] | _ => [] end) l.

End ExportChecks.

(** ** Invariants of an export job *)
Module ExportInvariants.
Import Frame ExportJob ExportChecks.

(** Predicates blind to the calls made by [stopRecording]. *)
Definition stop_blind (p : Effect -> bool) : Prop :=
  p RecorderStop = false /\ p PauseSource = false /\ forall k, p (TrackStop k) = false.

(** Stage and the three outcome counts: downloads, failure messages and
    resets of [exportingClipId]. *)
Definition outcome_inv (j : Job) : Prop :=
  let D := count_effect is_download (log j) in
  let F := count_effect is_failure_message (log j) in
  let C := count_effect is_flag_reset (log j) in
  match stage j with
  | AwaitPlay | AwaitRecording => D = 0%nat /\ F = 0%nat /\ C = 0%nat
  | Finished => D = 1%nat /\ F = 0%nat /\ C = 1%nat
  | Failed => D = 0%nat /\ F = 1%nat /\ C = 1%nat
  end.

Definition flags_of (es : list Effect) : list (option string) :=
  flat_map (fun e => match e with SetExportingClipId v => [v] | _ => [] end) es.

(** The writes to [exportingClipId] of a job of clip [id]: set once, reset
    once the job reached its end. *)
Definition flag_inv (id : string) (j : Job) : Prop :=
  flag_writes (log j) =
  Some id :: match stage j with Finished | Failed => [None] | _ => [] end.

(** Release of the recorder, the source and the tracks. *)
Definition released (composed source : list nat) (stopped : bool) (l : Log) : Prop :=
  if stopped then
    count_effect is_recorder_stop l = 1%nat /\ count_effect is_pause l = 1%nat /\
    forall t, count_effect (is_track_stop t) l =
              (count_occ Nat.eq_dec composed t + count_occ Nat.eq_dec source t)%nat
  else
    count_effect is_recorder_stop l = 0%nat /\ count_effect is_pause l = 0%nat /\
    forall t, count_effect (is_track_stop t) l = 0%nat.

Definition stop_inv (composed source : list nat) (j : Job) : Prop :=
  (stage j = Finished -> recordingStopped j = true) /\
  released composed source (recordingStopped j) (log j).

Definition rejected_inv (j : Job) : Prop :=
  stage j = Failed /\ timer j = None /\ recordingStopped j = false.

End ExportInvariants.

(** ** JavaScript numbers as IEEE-754 binary64 values

    The planner loop and the frame geometry are also modelled at the
    precision the browser computes them: a JavaScript number is a binary64
    float ([spec_float] of the Standard Library, 53-bit significand,
    exponent limit 1024), and each arithmetic operation rounds its exact
    result to nearest, ties to even. *)
Module Binary64.
Local Open Scope Z_scope.

Definition prec : Z := 53.
Definition emax : Z := 1024.

(** Powers of two as rationals. *)
Definition pow2 (z : Z) : Q := Qpower (inject_Z 2) z.

(** The value of a finite float as a rational; 0 for infinities and NaN. *)
Definition fval (f : spec_float) : Q :=
  match f with
  | S754_finite s m e => (inject_Z (cond_Zopp s (Zpos m)) * pow2 e)%Q
  | _ => 0%Q
  end.

Definition is_finite (f : spec_float) : bool :=
  match f with S754_zero _ | S754_finite _ _ _ => true | _ => false end.

(** An integer as a JavaScript number (exact below 2^53). *)
Definition of_Z (n : Z) : spec_float := binary_normalize prec emax n 0 false.

(** [x + y], [x - y], [x * y], [x / y]. *)
Definition add (x y : spec_float) : spec_float := SFadd prec emax x y.
Definition sub (x y : spec_float) : spec_float := SFsub prec emax x y.
Definition mul (x y : spec_float) : spec_float := SFmul prec emax x y.
Definition div (x y : spec_float) : spec_float := SFdiv prec emax x y.

(** [Math.min(x, y)]: NaN if either argument is NaN, [-0] below [+0],
    otherwise the smaller argument. *)
Definition math_min (x y : spec_float) : spec_float :=
  match x, y with
  | S754_nan, _ | _, S754_nan => S754_nan
  | S754_zero true, S754_zero _ => x
  | S754_zero false, S754_zero true => y
  | _, _ => if SFltb y x then y else x
  end.

End Binary64.

(** ** [autoGenerateClips] on binary64 numbers *)
Module Planner64.
Import Binary64.

Record ClipSegment := mkSeg { start : spec_float; duration : spec_float; title : string }.

(** The [while (currentTime < video.duration)] loop: [<] is [SFltb] (false
    when either side is NaN), the segment length is
    [Math.min(clipDuration, video.duration - currentTime)] and the cursor
    moves by [currentTime += segmentDuration], each operation rounded.
    [None] means the loop has not finished within [fuel] iterations. *)
Fixpoint auto_loop (fuel : nat) (videoDuration clipDuration currentTime : spec_float)
    (newClips : list ClipSegment) : option (list ClipSegment) :=
  match fuel with
  | O => None
  | S fuel' =>
      if SFltb currentTime videoDuration then
        let d := math_min clipDuration (sub videoDuration currentTime) in
        auto_loop fuel' videoDuration clipDuration (add currentTime d)
          (List.app newClips [mkSeg currentTime d (Planner.clip_title (List.length newClips + 1))])
      else Some newClips
  end.

(** [let currentTime = 0]: the cursor starts at [+0]. *)
Definition autoGenerateClips (fuel : nat) (videoDuration clipDuration : spec_float)
    : option (list ClipSegment) :=
  auto_loop fuel videoDuration clipDuration (S754_zero false) [].

(** [setClipDuration(Number(e.target.value))]: no clamping. *)
Definition onClipDurationChange (_old inputValue : spec_float) : spec_float := inputValue.

(** A segment read back as rationals, to state properties with [Planner]'s
    list predicates. *)
Definition seg_val (c : ClipSegment) : Planner.ClipSegment :=
  Planner.mkSeg (fval (start c)) (fval (duration c)) (title c).

End Planner64.

(** ** The geometry of [drawFrame] on binary64 numbers *)
Module Frame64.
Import Binary64.

(** [canvas.width = 720; canvas.height = 1280] *)
Definition canvas_width : spec_float := of_Z 720.
Definition canvas_height : spec_float := of_Z 1280.

Record DrawRect := mkRect {
  drawWidth : spec_float;
  drawHeight : spec_float;
  offsetX : spec_float;
  offsetY : spec_float
}.

(** [sourceRatio = videoWidth / videoHeight], [targetRatio = canvas.width /
    canvas.height]; if [sourceRatio > targetRatio] the height is the
    canvas height, [drawWidth = videoWidth * (drawHeight / videoHeight)] and
    [offsetX = -(drawWidth - canvas.width) / 2]; otherwise the roles of the
    two axes are swapped. The other offset keeps its initial value [0]. *)
Definition frameGeometry (videoWidth videoHeight : spec_float) : DrawRect :=
  let sourceRatio := div videoWidth videoHeight in
  let targetRatio := div canvas_width canvas_height in
  if SFltb targetRatio sourceRatio then
    let drawHeight := canvas_height in
    let drawWidth := mul videoWidth (div drawHeight videoHeight) in
    mkRect drawWidth drawHeight (div (SFopp (sub drawWidth canvas_width)) (of_Z 2)) (S754_zero false)
  else
    let drawWidth := canvas_width in
    let drawHeight := mul videoHeight (div drawWidth videoWidth) in
    mkRect drawWidth drawHeight (S754_zero false) (div (SFopp (sub drawHeight canvas_height)) (of_Z 2)).

End Frame64.

Module PlannerFacts.
Import JsNum Planner.

Lemma qlt_true a b : qlt a b = true <-> a < b.
Proof.
  unfold qlt. rewrite Bool.negb_true_iff. split; intro H.
  - apply Qnot_le_lt. intro H'. apply Qle_bool_iff in H'. congruence.
  - destruct (Qle_bool b a) eqn:E; [apply Qle_bool_iff in E; lra | reflexivity].
Qed.

Lemma qlt_false a b : qlt a b = false -> b <= a.
Proof.
  unfold qlt. intro H. apply Bool.negb_false_iff in H. now apply Qle_bool_iff.
Qed.

Lemma qnat_S n : qnat (S n) == qnat n + 1.
Proof. unfold qnat. rewrite Nat2Z.inj_succ. unfold Z.succ. rewrite inject_Z_plus. reflexivity. Qed.

Lemma qnat_nonneg n : 0 <= qnat n.
Proof. unfold qnat. change 0 with (inject_Z 0). rewrite <- Zle_Qle. lia. Qed.

Lemma qnat_1 : qnat 1 == 1.
Proof. reflexivity. Qed.

Lemma auto_loop_inv : forall fuel tot sl cur acc res,
  0 < sl -> auto_loop fuel tot sl cur acc = Some res ->
  exists rest, res = acc ++ rest /\ titled_from (List.length acc) rest /\
    (tot <= cur -> rest = []) /\
    (cur < tot ->
       tiles cur tot rest /\ starts_increasing rest /\ sized sl rest /\
       (qnat (List.length rest) - 1) * sl < tot - cur <= qnat (List.length rest) * sl /\
       (forall s, In s rest -> cur <= start s)).
Proof.
  induction fuel as [|fuel IH]; intros tot sl cur acc res Hsl Hrun; [discriminate|].
  simpl in Hrun. destruct (qlt cur tot) eqn:Hlt.
  - apply qlt_true in Hlt.
    set (seg := mkSeg cur (math_min sl (tot - cur)) (clip_title (List.length acc + 1))) in Hrun.
    destruct (IH _ _ _ _ _ Hsl Hrun) as (rest' & Hres & Htit & Hend & Hmid).
    exists (seg :: rest'). split; [subst res; now rewrite <- app_assoc|].
    split.
    { intros [|i] s Hs; simpl in Hs.
      - injection Hs as <-. simpl. f_equal. lia.
      - apply Htit in Hs. rewrite Hs, length_app. simpl. f_equal. lia. }
    split; [intro; lra|].
    intros _. unfold seg, math_min in *. destruct (Qle_bool sl (tot - cur)) eqn:Hmin;
      rewrite ?Hmin in Hend, Hmid.
    + apply Qle_bool_iff in Hmin.
      destruct (Qlt_le_dec (cur + sl) tot) as [Hc|Hc].
      * destruct (Hmid Hc) as (Htl & Hinc & Hsz & [Hlo Hhi] & Hge).
        destruct rest' as [|s2 r2]; [simpl in Htl; lra|].
        change (List.length (s2 :: r2)) with (S (List.length r2)) in Hlo, Hhi.
        assert (E : qnat (S (S (List.length r2))) * sl == qnat (S (List.length r2)) * sl + sl)
          by (rewrite qnat_S; ring).
        pose proof (Hge s2 (or_introl eq_refl)) as H2.
        split; [simpl; split; [lra | split; [lra | exact Htl]]|].
        split; [simpl; split; [lra | exact Hinc]|].
        split; [simpl; split; [lra | exact Hsz]|].
        split. { simpl List.length. nra. }
        intros s [<-|Hs]; simpl; [lra|]. specialize (Hge s Hs). lra.
      * rewrite (Hend Hc). simpl. rewrite qnat_1.
        repeat split; simpl; try lra.
        intros s [<-|[]]; simpl; lra.
    + assert (Hm : tot - cur < sl).
      { apply Qnot_le_lt. intro H. apply Qle_bool_iff in H. congruence. }
      rewrite (Hend ltac:(lra)). simpl. rewrite qnat_1.
      repeat split; simpl; try lra.
      intros s [<-|[]]; simpl; lra.
  - apply qlt_false in Hlt. injection Hrun as <-. exists [].
    rewrite app_nil_r. repeat split; try lra.
    intros i s Hs. destruct i; discriminate.
Qed.


Lemma auto_loop_total : forall n tot sl cur acc, 0 < sl -> tot - cur <= qnat n * sl ->
  exists res, auto_loop (S n) tot sl cur acc = Some res.
Proof.
  induction n as [|n IH]; intros tot sl cur acc Hsl Hb.
  - cbn [auto_loop]. destruct (qlt cur tot) eqn:Hlt; [|eauto].
    apply qlt_true in Hlt. change (qnat 0) with 0 in Hb. lra.
  - cbn [auto_loop]. destruct (qlt cur tot) eqn:Hlt; [|eauto].
    apply IH; [exact Hsl|].
    unfold math_min. destruct (Qle_bool sl (tot - cur)) eqn:Hm.
    + assert (E : qnat (S n) * sl == qnat n * sl + sl) by (rewrite qnat_S; ring). lra.
    + pose proof (qnat_nonneg n).
      assert (0 <= qnat n * sl) by (apply Qmult_le_0_compat; lra). lra.
Qed.

Lemma auto_loop_det : forall f1 f2 tot sl cur acc r1 r2,
  auto_loop f1 tot sl cur acc = Some r1 -> auto_loop f2 tot sl cur acc = Some r2 -> r1 = r2.
Proof.
  induction f1 as [|f1 IH]; intros [|f2] tot sl cur acc r1 r2 H1 H2; try discriminate.
  simpl in H1, H2. destruct (qlt cur tot); [eapply IH; eauto | congruence].
Qed.

Lemma auto_loop_diverges : forall fuel tot sl cur acc,
  sl <= 0 -> cur <= 0 -> 0 < tot -> auto_loop fuel tot sl cur acc = None.
Proof.
  induction fuel as [|fuel IH]; intros tot sl cur acc Hsl Hcur Htot; [reflexivity|].
  cbn [auto_loop].
  assert (Hlt : qlt cur tot = true) by (apply qlt_true; lra). rewrite Hlt.
  unfold math_min.
  assert (Hm : Qle_bool sl (tot - cur) = true) by (apply Qle_bool_iff; lra). rewrite Hm.
  apply IH; lra.
Qed.

Lemma ceiling_of_count (n : nat) (tot sl : Q) :
  0 < sl -> (qnat n - 1) * sl < tot <= qnat n * sl -> Qceiling (tot / sl) = Z.of_nat n.
Proof.
  intros Hsl [Hlo Hhi].
  assert (H1 : tot / sl <= qnat n) by (apply Qle_shift_div_r; lra).
  assert (H2 : qnat n - 1 < tot / sl) by (apply Qlt_shift_div_l; lra).
  pose proof (Qceiling_resp_le _ _ H1) as Hc. unfold qnat in Hc. rewrite Qceiling_Z in Hc.
  pose proof (Qle_ceiling (tot / sl)) as Hc2.
  assert (Hz : (Z.of_nat n + -1 < Qceiling (tot / sl))%Z).
  { rewrite Zlt_Qlt, inject_Z_plus. unfold qnat in H2. change (inject_Z (-1)) with (-(1)). lra. }
  lia.
Qed.


End PlannerFacts.

Module FrameFacts.
Import JsNum Frame.

Lemma qlt_iff a b : qlt a b = true <-> a < b.
Proof.
  unfold qlt. rewrite Bool.negb_true_iff. split; intro H.
  - apply Qnot_le_lt. intro H'. apply Qle_bool_iff in H'. congruence.
  - destruct (Qle_bool b a) eqn:E; [apply Qle_bool_iff in E; lra | reflexivity].
Qed.

Lemma qlt_false_le a b : qlt a b = false -> b <= a.
Proof.
  unfold qlt. intro H. apply Bool.negb_false_iff in H. now apply Qle_bool_iff.
Qed.

(** Claim C2: a source relatively wider than 720:1280 is scaled to the
    canvas height and centred horizontally; for 1920x1080 the drawn width is
    [1280 * 1920 / 1080] (between 2275 and 2276) and the horizontal offset
    [-(drawWidth - 720) / 2] (between -778 and -777). *)
Theorem drawFrame_landscape (videoWidth videoHeight : Q) :
  0 < videoWidth -> 0 < videoHeight ->
  720 / 1280 < videoWidth / videoHeight ->
  (forall state, state <> Inactive ->
     drawFrame false state videoWidth videoHeight =
     [FillRect 0 0 720 1280;
      DrawImage (mkRect (videoWidth * (1280 / videoHeight)) 1280
                        (- (videoWidth * (1280 / videoHeight) - 720) / 2) 0);
      RequestAnimationFrame]) /\
  (let r := frameGeometry 1920 1080 in
   drawHeight r == 1280 /\ drawWidth r == 1280 * 1920 / 1080 /\
   offsetX r == - (1280 * 1920 / 1080 - 720) / 2 /\ offsetY r == 0 /\
   2275 < drawWidth r < 2276 /\ -778 < offsetX r < -777).
Proof.
  intros Hw Hh Hr. split.
  - intros state Hst. unfold drawFrame, frameGeometry.
    replace (is_inactive state) with false by (destruct state; congruence || reflexivity).
    assert (Hq : qlt (canvas_width / canvas_height) (videoWidth / videoHeight) = true)
      by (apply qlt_iff; exact Hr).
    simpl orb. rewrite Hq. reflexivity.
  - vm_compute. repeat split; discriminate || reflexivity.
Qed.

Lemma lt_div_mul a w h : 0 < h -> a < w / h -> a * h < w.
Proof.
  intros Hh H. apply (Qmult_lt_compat_r _ _ h) in H; [|exact Hh].
  setoid_replace (w / h * h) with w in H by (field; intro E; rewrite E in Hh; discriminate).
  exact H.
Qed.

Lemma div_le_mul a w h : 0 < h -> w / h <= a -> w <= a * h.
Proof.
  intros Hh H. apply (Qmult_le_compat_r _ _ h) in H; [|lra].
  setoid_replace (w / h * h) with w in H by (field; intro E; rewrite E in Hh; discriminate).
  exact H.
Qed.

Lemma drawFrame_landscape_witness :
  0 < 1920 /\ 0 < 1080 /\ 720 / 1280 < 1920 / 1080 /\
  drawFrame false Recording 1920 1080 =
    [FillRect 0 0 720 1280;
     DrawImage (mkRect (1920 * (1280 / 1080)) 1280 (- (1920 * (1280 / 1080) - 720) / 2) 0);
     RequestAnimationFrame].
Proof.
  assert (H1 : 0 < 1920) by lra. assert (H2 : 0 < 1080) by lra.
  assert (H3 : 720 / 1280 < 1920 / 1080) by (vm_compute; reflexivity).
  split; [exact H1|]. split; [exact H2|]. split; [exact H3|].
  apply (proj1 (drawFrame_landscape 1920 1080 H1 H2 H3)). discriminate.
Defined.

End FrameFacts.

Module ConfirmFacts.
Import Planner Confirm.

(** Claim C7: confirming an empty draft list, or a draft list holding a
    draft of non-positive duration, only alerts the validation message: no
    session lookup, no insert, no reload, and the UI state is unchanged. *)
Theorem generateClips_rejects_invalid (be : Backend) (videoId filePath : string)
    (st : UIState) :
  (clips st = [] \/ exists c, In c (clips st) /\ duration c <= 0) ->
  exists msg,
    generateClips be videoId filePath st = (st, [Alert msg]) /\
    (msg = "Please add some clips first" \/
     msg = "Clip duration must be greater than 0 seconds")%string /\
    forallb (fun e => negb (is_persistence_call e)) [Alert msg] = true.
Proof.
  intros H. unfold generateClips.
  destruct (clips st) as [|c0 cs] eqn:Hc.
  - exists "Please add some clips first"%string. simpl. auto.
  - destruct H as [H|(c & Hin & Hd)]; [discriminate|].
    assert (Hex : existsb (fun clip => Qle_bool (duration clip) 0) (c0 :: cs) = true).
    { apply existsb_exists. exists c. split; [exact Hin|]. now apply Qle_bool_iff. }
    simpl Nat.eqb. cbv iota. rewrite Hex.
    exists "Clip duration must be greater than 0 seconds"%string. auto.
Qed.

Lemma generateClips_rejects_invalid_witness :
  clips (mkUI [] [] false) = [] /\
  exists msg,
    generateClips (mkBackend (Some "user-1"%string) (fun _ => true) [])
      "video-1" "videos/talk.mp4" (mkUI [] [] false) = (mkUI [] [] false, [Alert msg]).
Proof.
  split; [reflexivity|].
  destruct (generateClips_rejects_invalid (mkBackend (Some "user-1"%string) (fun _ => true) [])
              "video-1" "videos/talk.mp4" (mkUI [] [] false) (or_introl eq_refl))
    as (msg & H & _).
  exists msg. exact H.
Defined.

End ConfirmFacts.

Module ExportFacts.
Import JsNum Frame ExportJob.

Lemma emit_log es j : log (emit es j) = (log j ++ map (fun e => (now j, e)) es)%list.
Proof. reflexivity. Qed.

Lemma stopRecording_stopped composed source j :
  recordingStopped (stopRecording composed source j) = true.
Proof.
  unfold stopRecording, recorder_stop.
  destruct (recordingStopped j) eqn:H; [exact H|].
  simpl. destruct (recState j); reflexivity.
Qed.

Lemma stopRecording_noop composed source j :
  recordingStopped j = true -> stopRecording composed source j = j.
Proof. intro H. unfold stopRecording. now rewrite H. Qed.

Lemma stopRecording_log composed source j :
  recordingStopped j = false ->
  log (stopRecording composed source j) =
  (log j ++ map (fun e => (now j, e))
     (RecorderStop :: map TrackStop composed ++ map TrackStop source ++ [PauseSource]))%list.
Proof.
  intro H. unfold stopRecording, recorder_stop. rewrite H.
  simpl. destruct (recState j); simpl; rewrite <- app_assoc; reflexivity.
Qed.

Lemma count_effect_app p l1 l2 :
  count_effect p (l1 ++ l2)%list = (count_effect p l1 + count_effect p l2)%nat.
Proof. unfold count_effect. now rewrite filter_app, length_app. Qed.

Lemma count_effect_stamped p t es :
  count_effect p (map (fun e => (t, e)) es) = List.length (filter p es).
Proof.
  unfold count_effect. induction es as [|e es IH]; [reflexivity|].
  simpl. destruct (p e); simpl; now rewrite IH.
Qed.

Lemma track_stops_map t l :
  List.length (filter (is_track_stop t) (map TrackStop l)) = count_occ Nat.eq_dec l t.
Proof.
  induction l as [|k l IH]; [reflexivity|]. simpl.
  destruct (Nat.eq_dec k t) as [->|Hne].
  - now rewrite Nat.eqb_refl; simpl; rewrite IH.
  - apply Nat.eqb_neq in Hne. now rewrite Hne.
Qed.

Lemma no_track_stops_map (l : list nat) :
  List.length (filter is_recorder_stop (map TrackStop l)) = 0%nat /\
  List.length (filter is_pause (map TrackStop l)) = 0%nat.
Proof. induction l; simpl; auto. Qed.

(** Claim C5 (as amended): the first [stopRecording] of a job calls
    [recorder.stop()] once, [stop()] on every composed-stream track and then
    on every source-stream track, and pauses the source once; every further
    call is a no-op.  A track lying in both streams is stopped once per
    stream within that first call. *)
Theorem stopRecording_idempotent (composed source : list nat) (j : Job) (n : nat) :
  recordingStopped j = false ->
  let j' := Nat.iter (S n) (stopRecording composed source) j in
  j' = stopRecording composed source j /\
  recordingStopped j' = true /\
  log j' = (log j ++ map (fun e => (now j, e))
              (RecorderStop :: map TrackStop composed ++ map TrackStop source ++
               [PauseSource]))%list /\
  count_effect is_recorder_stop (log j') = S (count_effect is_recorder_stop (log j)) /\
  count_effect is_pause (log j') = S (count_effect is_pause (log j)) /\
  (forall t, count_effect (is_track_stop t) (log j') =
     (count_effect (is_track_stop t) (log j) +
      count_occ Nat.eq_dec composed t + count_occ Nat.eq_dec source t)%nat).
Proof.
  intros Hj j'.
  assert (Hit : j' = stopRecording composed source j).
  { unfold j'. induction n as [|n IH]; [reflexivity|].
    change (Nat.iter (S (S n)) (stopRecording composed source) j)
      with (stopRecording composed source (Nat.iter (S n) (stopRecording composed source) j)).
    rewrite IH. apply stopRecording_noop, stopRecording_stopped. }
  rewrite Hit. clear j' Hit.
  pose proof (stopRecording_log composed source j Hj) as Hlog.
  split; [reflexivity|]. split; [apply stopRecording_stopped|].
  split; [exact Hlog|].
  rewrite Hlog, !count_effect_app, !count_effect_stamped.
  destruct (no_track_stops_map composed) as [Rc Pc].
  destruct (no_track_stops_map source) as [Rs Ps].
  split; [|split].
  - simpl. rewrite !filter_app, !length_app, Rc, Rs. simpl. lia.
  - simpl. rewrite !filter_app, !length_app, Pc, Ps. simpl. lia.
  - intro t. rewrite count_effect_app, count_effect_stamped. simpl. rewrite !filter_app, !length_app, !track_stops_map. simpl. lia.
Qed.

(** Claim C6: without MediaRecorder, without [captureStream] on the media
    element, or with none of the three webm candidates (probed in the order
    vp9, vp8, plain webm) supported, the export never starts a recording:
    no recorder start, no chunk, no file; when it returns, it has set an
    error message; it can only hang waiting for a media event that never
    fires. *)
Theorem export_fails_without_capability (b : Browser) (videoUrl : string)
    (clip : VideoClip) (t0 : Q) :
  (hasMediaRecorder b = false \/ hasCaptureStream b = false \/
   forallb (fun m => negb (isTypeSupported b m)) preferredMimeTypes = true) ->
  preferredMimeTypes =
    ["video/webm;codecs=vp9"; "video/webm;codecs=vp8"; "video/webm"]%string /\
  match exportPortraitClip b videoUrl clip t0 with
  | Started _ => False
  | Returned l =>
      existsb starts_recording (map snd l) = false /\
      exists msg, In (SetErrorMessage (Some msg)) (map snd l)
  | Hung l =>
      existsb starts_recording (map snd l) = false /\
      (metadataEvent b = Never \/ seekedEvent b = None)
  end.
Proof.
  intros Hcap. split; [reflexivity|].
  unfold exportPortraitClip, prepare, caught.
  destruct (String.eqb videoUrl "").
  { split; [reflexivity|]. eexists. left. reflexivity. }
  destruct (hasMediaRecorder b) eqn:Hmr; simpl negb; cbv iota.
  2: { split; [reflexivity|]. eexists. left. reflexivity. }
  destruct (metadataEvent b) as [l|l|] eqn:Hmeta.
  - destruct (seekedEvent b) as [l'|] eqn:Hseek.
    + destruct (hasCaptureStream b) eqn:Hcs; simpl negb; cbv iota.
      2: { split; [reflexivity|]. eexists. simpl. repeat (left; reflexivity) || right. }
      destruct (hasContext2d b); simpl negb; cbv iota.
      2: { split; [reflexivity|]. eexists. simpl. repeat (left; reflexivity) || right. }
      destruct (find (isTypeSupported b) preferredMimeTypes) as [m|] eqn:Hfind.
      * apply find_some in Hfind as [Hin Hsup].
        destruct Hcap as [H|[H|H]]; try congruence.
        rewrite forallb_forall in H. specialize (H m Hin).
        rewrite Hsup in H. discriminate.
      * split; [reflexivity|]. eexists. simpl. repeat (left; reflexivity) || right.
    + split; [reflexivity|]. now right.
  - split; [reflexivity|]. eexists. simpl. repeat (left; reflexivity) || right.
  - split; [reflexivity|]. now left.
Qed.

(** The run of the sample export used below: play() resolves 500 ms after
    recording started. *)
Lemma sample_launch :
  exportPortraitClip Samples.sample_browser Samples.sample_url Samples.sample_clip 0 =
  Started (start_job 70 "video/webm;codecs=vp8"
             [(0, SetErrorMessage None);
              (0, SetExportingClipId (Some "clip-a"%string));
              (50, SeekTo 30)]).
Proof. reflexivity. Qed.

Definition sample_run (j : Job) (es : list Event) : option Job :=
  run Samples.sample_clip (composedTracks Samples.sample_browser)
    (sourceTracks Samples.sample_browser) j es.

(** Claim C5 as stated fails: the sample source stream carries an audio
    track (id 1) that the composed stream shares, so stopping the job
    calls [stop()] on that track twice. *)
Lemma shared_audio_track_stopped_twice :
  match exportPortraitClip Samples.sample_browser Samples.sample_url Samples.sample_clip 0 with
  | Started j0 =>
      count_effect (is_track_stop 1)
        (log (Nat.iter 2 (stopRecording (composedTracks Samples.sample_browser)
                                        (sourceTracks Samples.sample_browser)) j0)) = 2%nat
  | _ => False
  end.
Proof. vm_compute. reflexivity. Qed.


(** Claim C9 as stated fails: closing the view 1.5 s into the recording
    stops no track and leaves the stop timer armed; the timer later fires,
    the recorder delivers its data and the file is still downloaded. *)
Lemma close_view_does_not_cancel :
  match exportPortraitClip Samples.sample_browser Samples.sample_url Samples.sample_clip 0 with
  | Started j0 =>
      match sample_run j0 [Advance 500; PlayResolves; Advance 1000; CloseView] with
      | Some j1 =>
          viewOpen j1 = false /\ stage j1 = AwaitRecording /\ timer j1 = Some 10570 /\
          count_effect (is_track_stop 0) (log j1) = 0%nat /\
          count_effect (is_track_stop 1) (log j1) = 0%nat /\
          option_map (fun j2 => count_effect is_download (log j2))
            (sample_run j1 [Advance 9000; TimerFires; DataAvailable 5; RecorderOnStop])
          = Some 1%nat
      | None => False
      end
  | _ => False
  end.
Proof. vm_compute. repeat split; reflexivity. Qed.

Section CloseView.
Variable clip : VideoClip.
Variables composed source : list nat.

Lemma view_emit es j : emit es (set_view false j) = set_view false (emit es j).
Proof. reflexivity. Qed.

Lemma view_recorder_stop j :
  recorder_stop (set_view false j) = set_view false (recorder_stop j).
Proof. unfold recorder_stop. cbn [recState set_view]. destruct (recState j); reflexivity. Qed.

Lemma view_stopRecording j :
  stopRecording composed source (set_view false j) =
  set_view false (stopRecording composed source j).
Proof.
  unfold stopRecording. cbn [recordingStopped set_view].
  destruct (recordingStopped j); [reflexivity|].
  change (set_stopped true (set_view false j)) with (set_view false (set_stopped true j)).
  rewrite view_recorder_stop. apply view_emit.
Qed.

Lemma view_finish j :
  finish clip composed source (set_view false j) = set_view false (finish clip composed source j).
Proof. unfold finish. rewrite view_stopRecording. reflexivity. Qed.

Lemma view_catch_finally j : catch_finally (set_view false j) = set_view false (catch_finally j).
Proof. reflexivity. Qed.

Lemma view_settle j :
  settle clip composed source (set_view false j) = set_view false (settle clip composed source j).
Proof.
  unfold settle. cbn [stage recordingPromise set_view].
  destruct (stage j), (recordingPromise j); try reflexivity.
  apply view_finish.
Qed.

Lemma step_set_view j e :
  step clip composed source (set_view false j) e =
  option_map (set_view false) (step clip composed source j e).
Proof.
  destruct e; unfold step; cbn [now stage recordingStopped recState timer onstopPending
                                 recordingPromise chunks set_view].
  - destruct (Qle_bool 0 dt); reflexivity.
  - destruct (stage j); try reflexivity. cbn [option_map].
    rewrite <- view_settle. reflexivity.
  - destruct (stage j); reflexivity.
  - destruct (timer j) as [due|]; [|reflexivity].
    destruct (Qle_bool due (now j)); [|reflexivity]. cbn [option_map].
    rewrite <- view_stopRecording. reflexivity.
  - destruct (negb (is_inactive (recState j)) || onstopPending j); [|reflexivity].
    destruct (Nat.ltb 0 size); reflexivity.
  - destruct (onstopPending j); [|reflexivity]. cbn [option_map].
    rewrite <- view_settle. reflexivity.
  - destruct (is_inactive (recState j)); [reflexivity|]. cbn [option_map].
    rewrite <- view_settle. reflexivity.
  - reflexivity.
Qed.

End CloseView.

Lemma run_set_view clip composed source j es :
  run clip composed source (set_view false j) es =
  option_map (set_view false) (run clip composed source j es).
Proof.
  revert j. induction es as [|e es IH]; intro j; [reflexivity|].
  simpl. rewrite step_set_view.
  destruct (step clip composed source j e); simpl; [apply IH | reflexivity].
Qed.

(** Claim C9 (as amended): closing the view at any point of an export
    leaves the job untouched: the run continues exactly as if the view had
    stayed open (same stage, timers, recorder and track calls, download),
    only the [viewOpen] flag differs. *)
Theorem close_view_commutes (clip : VideoClip) (composed source : list nat)
    (j : Job) (before after : list Event) :
  run clip composed source j (before ++ CloseView :: after)%list =
  option_map (set_view false) (run clip composed source j (before ++ after)%list).
Proof.
  revert j. induction before as [|e before IH]; intro j.
  - simpl. apply run_set_view.
  - simpl. destruct (step clip composed source j e); [apply IH | reflexivity].
Qed.

(** *** Timing of the automatic stop *)





















Lemma stopRecording_idempotent_witness :
  recordingStopped (start_job 70 "video/webm;codecs=vp8" []) = false /\
  Nat.iter 3 (stopRecording [0; 1]%nat [1; 2]%nat) (start_job 70 "video/webm;codecs=vp8" []) =
  stopRecording [0; 1]%nat [1; 2]%nat (start_job 70 "video/webm;codecs=vp8" []).
Proof.
  split; [reflexivity|].
  exact (proj1 (stopRecording_idempotent [0; 1]%nat [1; 2]%nat
                  (start_job 70 "video/webm;codecs=vp8" []) 2 eq_refl)).
Defined.

Lemma export_fails_without_capability_witness :
  hasMediaRecorder Samples.browser_without_recorder = false /\
  match exportPortraitClip Samples.browser_without_recorder Samples.sample_url
          Samples.sample_clip 0 with
  | Started _ => False
  | Returned l =>
      existsb starts_recording (map snd l) = false /\
      exists msg, In (SetErrorMessage (Some msg)) (map snd l)
  | Hung l =>
      existsb starts_recording (map snd l) = false /\
      (metadataEvent Samples.browser_without_recorder = Never \/
       seekedEvent Samples.browser_without_recorder = None)
  end.
Proof.
  split; [reflexivity|].
  exact (proj2 (export_fails_without_capability Samples.browser_without_recorder
                  Samples.sample_url Samples.sample_clip 0 (or_introl eq_refl))).
Defined.


End ExportFacts.

Module ExportUIFacts.
Import ExportUI.

(** A click on the button of the clip named by [exportingClipId] is
    ignored. *)
Lemma disabled_click_ignored videoReady hasRecorder ui id :
  button_disabled ui id = true ->
  ui_step videoReady hasRecorder ui (ClickExport id) = Some ui.
Proof. intro H. simpl. now rewrite H. Qed.

(** Claim C8 fails: exporting clip A, then clip B while A still runs,
    re-enables A's button ([exportingClipId] now names B), and a third click
    starts a second job on A while the first is in flight. *)
Theorem second_job_on_same_clip :
  match ui_run true true ui_init
          [ClickExport "clip-a"; ClickExport "clip-b"; ClickExport "clip-a"]%string with
  | Some ui => exportingClipId ui = Some "clip-a"%string /\ jobs_of "clip-a" ui = 2%nat
  | None => False
  end.
Proof. vm_compute. split; reflexivity. Qed.

End ExportUIFacts.

Module DraftFacts.
Import JsNum Planner Confirm Drafts.

Lemma filter_index_past {A : Type} (index : nat) :
  forall (l : list A) k, (index < k)%nat -> filter_index index k l = l.
Proof.
  induction l as [|x r IH]; intros k Hk; [reflexivity|].
  simpl. destruct (Nat.eqb_spec k index) as [->|_]; [lia|].
  rewrite IH by lia. reflexivity.
Qed.

Lemma filter_index_spec {A : Type} (index : nat) :
  forall (l : list A) k, (k <= index)%nat ->
  filter_index index k l = (firstn (index - k) l ++ skipn (S (index - k)) l)%list.
Proof.
  induction l as [|x r IH]; intros k Hk.
  - simpl. destruct (index - k)%nat; reflexivity.
  - simpl. destruct (Nat.eqb_spec k index) as [->|Hne].
    + rewrite Nat.sub_diag. simpl. apply filter_index_past. lia.
    + rewrite IH by lia. replace (index - k)%nat with (S (index - S k)) by lia.
      reflexivity.
Qed.

Lemma removeClip_firstn_skipn index clips :
  removeClip index clips = (firstn index clips ++ skipn (S index) clips)%list.
Proof.
  unfold removeClip. rewrite filter_index_spec by lia. now rewrite Nat.sub_0_r.
Qed.

Lemma Qle_bool_false a b : Qle_bool a b = false -> b < a.
Proof.
  intro H. apply Qnot_le_lt. intro H'. apply Qle_bool_iff in H'. congruence.
Qed.

Lemma tiles_positive c total segs :
  tiles c total segs -> forall s, In s segs -> 0 < duration s.
Proof.
  revert c. induction segs as [|s0 r IH]; intros c Ht s Hin; [destruct Hin|].
  destruct Ht as (_ & Hd & Hr). destruct Hin as [<-|Hin]; [exact Hd|].
  exact (IH _ Hr s Hin).
Qed.

(** A draft added at or after the end of the video, or with a non-positive
    clip duration setting, has a non-positive duration, so confirming the
    draft list afterwards only alerts the duration message and persists
    nothing. *)
Theorem addClip_past_end_blocks_confirm (be : Backend) (videoId filePath : string)
    (videoTime : option Q) (videoDuration clipDuration : Q) (st : UIState) :
  (videoDuration <= match videoTime with Some t => t | None => 0 end \/
   clipDuration <= 0) ->
  let st' := mkUI (addClip videoTime videoDuration clipDuration (clips st))
               (generatedClips st) (generating st) in
  generateClips be videoId filePath st' =
    (st', [Alert "Clip duration must be greater than 0 seconds"]).
Proof.
  intros H st'. unfold generateClips, st'. cbn [clips].
  set (t := match videoTime with Some t => t | None => 0 end) in *.
  unfold addClip. fold t.
  rewrite length_app. simpl List.length. rewrite Nat.add_comm. simpl Nat.eqb. cbv iota.
  rewrite existsb_app. simpl existsb.
  assert (Hd : Qle_bool (math_min clipDuration (videoDuration - t)) 0 = true).
  { apply Qle_bool_iff. unfold math_min.
    destruct (Qle_bool clipDuration (videoDuration - t)) eqn:E.
    - apply Qle_bool_iff in E. destruct H; lra.
    - apply Qle_bool_false in E. destruct H; lra. }
  rewrite Hd, Bool.orb_true_r. reflexivity.
Qed.


(** [removeClip index] deletes exactly the draft at position [index] and
    keeps the others, in order and with their titles unchanged; an index
    past the end leaves the list as it is. *)
Theorem removeClip_drops_index (index : nat) (clips : list ClipSegment) :
  removeClip index clips = (firstn index clips ++ skipn (S index) clips)%list /\
  List.length (removeClip index clips) =
    (if Nat.ltb index (List.length clips) then List.length clips - 1
     else List.length clips)%nat.
Proof.
  rewrite removeClip_firstn_skipn. split; [reflexivity|].
  rewrite length_app, length_firstn, length_skipn.
  destruct (Nat.ltb_spec index (List.length clips)); lia.
Qed.

(** Titles are not renumbered: after removing any draft but the last from
    a list titled "Clip 1" .. "Clip n", the next [addClip] is titled
    "Clip n" again, so two drafts carry the same title. *)
Theorem remove_then_add_duplicates_title (clips : list ClipSegment) (index : nat)
    (videoTime : option Q) (videoDuration clipDuration : Q) :
  titled_from 0 clips -> (S index < List.length clips)%nat ->
  (2 <= List.length
          (filter (fun s => String.eqb (title s) (clip_title (List.length clips)))
             (addClip videoTime videoDuration clipDuration (removeClip index clips))))%nat.
Proof.
  intros Htit Hlt. remember (List.length clips) as n eqn:Hn.
  destruct (nth_error clips (n - 1)) as [last|] eqn:Hlast.
  2: { apply nth_error_None in Hlast. lia. }
  assert (Htl : title last = clip_title n).
  { rewrite (Htit _ _ Hlast). f_equal. lia. }
  assert (Hin : In last (removeClip index clips)).
  { rewrite removeClip_firstn_skipn. apply in_or_app. right.
    apply (nth_error_In _ (n - 1 - S index)). rewrite nth_error_skipn.
    replace (S index + (n - 1 - S index))%nat with (n - 1)%nat by lia. exact Hlast. }
  assert (Hlen : List.length (removeClip index clips) = (n - 1)%nat).
  { rewrite (proj2 (removeClip_drops_index index clips)), <- Hn.
    destruct (Nat.ltb_spec index n); lia. }
  unfold addClip. rewrite filter_app, length_app. cbn [filter title].
  rewrite Hlen. replace (n - 1 + 1)%nat with n by lia. rewrite String.eqb_refl.
  assert (Hf : In last (filter (fun s => String.eqb (title s) (clip_title n))
                           (removeClip index clips))).
  { apply filter_In. split; [exact Hin|]. rewrite Htl. apply String.eqb_refl. }
  destruct (filter _ (removeClip index clips)); [destruct Hf|]. simpl. lia.
Qed.

(** The drafts produced by [autoGenerateClips] for a positive video length
    and clip duration always pass the validation of [generateClips]: it goes
    on to set [generating] and ask for the current user. *)
Theorem autoGenerate_passes_validation (fuel : nat) (videoDuration clipDuration : Q)
    (segs : list ClipSegment) (be : Backend) (videoId filePath : string) (st : UIState) :
  0 < videoDuration -> 0 < clipDuration ->
  autoGenerateClips fuel videoDuration clipDuration = Some segs ->
  clips st = segs ->
  exists rest, snd (generateClips be videoId filePath st) = SetGenerating true :: GetUser :: rest.
Proof.
  intros Hvd Hcd Hrun Hst.
  destruct (PlannerFacts.auto_loop_inv _ _ _ _ _ _ Hcd Hrun) as (rest & Hres & _ & _ & Hmid).
  simpl in Hres. subst rest.
  destruct (Hmid Hvd) as (Htl & _).
  assert (Hpos := tiles_positive _ _ _ Htl).
  unfold generateClips. rewrite Hst.
  destruct segs as [|s0 r]; [simpl in Htl; lra|]. simpl Nat.eqb. cbv iota.
  assert (Hex : existsb (fun clip => Qle_bool (duration clip) 0) (s0 :: r) = false).
  { apply Bool.not_true_iff_false. intro H. apply existsb_exists in H as (c & Hc & Hle).
    apply Qle_bool_iff in Hle. specialize (Hpos c Hc). lra. }
  rewrite Hex. destruct (currentUser be); [|eexists; reflexivity].
  destruct (forallb _ _); eexists; reflexivity.
Qed.

End DraftFacts.

Module FileNameFacts.
Import Planner FileName.
Local Open Scope Z_scope.

Lemma units_app a b : units (a ++ b) = (units a ++ units b)%list.
Proof. induction a as [|c a IH]; simpl; [reflexivity|]. now rewrite IH. Qed.

(** A decimal digit string: ASCII code units 48-57. *)
Definition digit_units (s : js_string) : bool :=
  forallb (fun u => (48 <=? u) && (u <=? 57)) s.

Lemma digits_ne (u : Decimal.uint) : digit_units (units (NilEmpty.string_of_uint u)) = true.
Proof. induction u; [reflexivity|..]; cbn [NilEmpty.string_of_uint units]; exact IHu. Qed.

Lemma digits_units (n : nat) : digit_units (units (string_of_nat n)) = true.
Proof.
  unfold string_of_nat, NilZero.string_of_uint. destruct (Nat.to_uint n); try reflexivity;
    apply digits_ne.
Qed.

Lemma replace_ws_digits r s : digit_units s = true -> replace_ws r s = s.
Proof.
  revert r. induction s as [|u s IH]; intros r H; [reflexivity|].
  simpl in H. apply andb_prop in H as [H1 H2]. apply andb_prop in H1 as [A B].
  apply Z.leb_le in A. apply Z.leb_le in B. simpl.
  replace (is_js_space u) with false by (unfold is_js_space; symmetry;
    repeat rewrite Bool.orb_false_iff; repeat split;
    repeat first [rewrite Bool.andb_false_iff | rewrite Z.eqb_neq | rewrite Z.leb_gt]; lia).
  now rewrite IH.
Qed.

Lemma digits_ascii s : digit_units s = true -> forallb is_ascii_unit s = true.
Proof.
  induction s as [|u s IH]; intro H; [reflexivity|]. simpl in H |- *.
  apply andb_prop in H as [H1 H2]. apply andb_prop in H1 as [A B].
  apply Z.leb_le in A. apply Z.leb_le in B. rewrite (IH H2).
  unfold is_ascii_unit. replace (0 <=? u) with true by (symmetry; apply Z.leb_le; lia).
  replace (u <? 128) with true by (symmetry; apply Z.ltb_lt; lia). reflexivity.
Qed.

Lemma lower_digits s : digit_units s = true -> map ascii_lower s = s.
Proof.
  induction s as [|u s IH]; intro H; [reflexivity|]. simpl in H |- *.
  apply andb_prop in H as [H1 H2]. apply andb_prop in H1 as [A B].
  apply Z.leb_le in A. apply Z.leb_le in B. rewrite (IH H2). unfold ascii_lower.
  replace (65 <=? u) with false by (symmetry; apply Z.leb_gt; lia). reflexivity.
Qed.

(** The drafts titled by [autoGenerateClips] and [addClip], "Clip n", are
    exported as "clip-n-portrait.webm", for every lower-case mapping that
    agrees with Unicode on ASCII. *)
Theorem download_name_clip_title (toLowerCase : js_string -> js_string) (n : nat) :
  lower_on_ascii toLowerCase ->
  download_name toLowerCase (units (clip_title n)) =
    units ("clip-" ++ string_of_nat n ++ "-portrait.webm").
Proof.
  intro Hl. pose proof (digits_units n) as D.
  unfold download_name, clip_title. rewrite !units_app.
  change (units "Clip ") with [67; 108; 105; 112; 32].
  change (units "clip-") with [99; 108; 105; 112; 45].
  assert (R : replace_ws false ([67; 108; 105; 112; 32] ++ units (string_of_nat n)) =
              [67; 108; 105; 112; 45] ++ units (string_of_nat n)).
  { simpl. now rewrite (replace_ws_digits true _ D). }
  rewrite R, Hl by (simpl; exact (digits_ascii _ D)).
  simpl. rewrite (lower_digits _ D). reflexivity.
Qed.

End FileNameFacts.

Module ExportOutcomeFacts.
Import JsNum Frame ExportJob ExportChecks ExportInvariants ExportFacts.

Lemma run_preserves (P : Job -> Prop) clip composed source :
  (forall j e j', P j -> step clip composed source j e = Some j' -> P j') ->
  forall es j j', P j -> run clip composed source j es = Some j' -> P j'.
Proof.
  intros Hstep es. induction es as [|e es IH]; intros j j' Hj Hrun.
  - simpl in Hrun. congruence.
  - simpl in Hrun. destruct (step clip composed source j e) as [j1|] eqn:Hs; [|discriminate].
    exact (IH j1 j' (Hstep _ _ _ Hj Hs) Hrun).
Qed.

Lemma filter_track_stops p l : (forall k, p (TrackStop k) = false) ->
  filter p (map TrackStop l) = [].
Proof. intro H. induction l as [|k l IH]; simpl; [reflexivity|]. now rewrite H. Qed.

Lemma count_stopRecording p composed source j : stop_blind p ->
  count_effect p (log (stopRecording composed source j)) = count_effect p (log j).
Proof.
  intros (H1 & H2 & H3). destruct (recordingStopped j) eqn:Hs.
  - now rewrite stopRecording_noop.
  - rewrite stopRecording_log by exact Hs. rewrite count_effect_app, count_effect_stamped.
    simpl. rewrite H1, !filter_app, !filter_track_stops by exact H3. simpl. rewrite H2.
    simpl. lia.
Qed.

Lemma stage_stopRecording composed source j :
  stage (stopRecording composed source j) = stage j.
Proof.
  unfold stopRecording. destruct (recordingStopped j); [reflexivity|].
  unfold recorder_stop. simpl. destruct (recState j); reflexivity.
Qed.

Lemma count_emit p es j :
  count_effect p (log (emit es j)) = (count_effect p (log j) + List.length (filter p es))%nat.
Proof. now rewrite emit_log, count_effect_app, count_effect_stamped. Qed.

Lemma blind_download : stop_blind is_download.
Proof. repeat split. Qed.
Lemma blind_failure : stop_blind is_failure_message.
Proof. repeat split. Qed.
Lemma blind_reset : stop_blind is_flag_reset.
Proof. repeat split. Qed.

Lemma outcome_finish clip composed source j :
  count_effect is_download (log j) = 0%nat -> count_effect is_failure_message (log j) = 0%nat ->
  count_effect is_flag_reset (log j) = 0%nat ->
  outcome_inv (finish clip composed source j).
Proof.
  intros D F C. unfold outcome_inv, finish. cbn [stage set_stage log].
  rewrite !count_emit, !count_stopRecording by
    first [apply blind_download | apply blind_failure | apply blind_reset].
  rewrite D, F, C. simpl. auto.
Qed.

Lemma outcome_catch j :
  count_effect is_download (log j) = 0%nat -> count_effect is_failure_message (log j) = 0%nat ->
  count_effect is_flag_reset (log j) = 0%nat ->
  outcome_inv (catch_finally j).
Proof.
  intros D F C. unfold outcome_inv, catch_finally. cbn [stage set_stage log].
  rewrite !count_emit, D, F, C. simpl. auto.
Qed.

Lemma outcome_settle clip composed source j :
  outcome_inv j -> outcome_inv (settle clip composed source j).
Proof.
  intro H. unfold settle. destruct (stage j) eqn:Hs; try exact H;
    unfold outcome_inv in H; rewrite Hs in H; destruct H as (D & F & C);
    destruct (recordingPromise j); try (unfold outcome_inv; rewrite Hs; auto).
  - now apply outcome_finish.
  - now apply outcome_catch.
Qed.

Lemma outcome_step clip composed source j e j' :
  outcome_inv j -> step clip composed source j e = Some j' -> outcome_inv j'.
Proof.
  intros H Hstep. destruct e; simpl in Hstep.
  - destruct (Qle_bool 0 dt); [|discriminate]. injection Hstep as <-. exact H.
  - destruct (stage j) eqn:Hs; try discriminate. injection Hstep as <-.
    apply outcome_settle. unfold outcome_inv in H |- *. rewrite Hs in H.
    cbn [stage set_stage log set_timer]. rewrite !count_emit.
    destruct H as (D & F & C). rewrite D, F, C. simpl. auto.
  - destruct (stage j) eqn:Hs; try discriminate. injection Hstep as <-.
    unfold outcome_inv in H. rewrite Hs in H. destruct H as (D & F & C).
    now apply outcome_catch.
  - destruct (timer j) as [due|]; [|discriminate].
    destruct (Qle_bool due (now j)); [|discriminate]. injection Hstep as <-.
    unfold outcome_inv in H |- *. rewrite stage_stopRecording.
    rewrite !count_stopRecording by
      first [apply blind_download | apply blind_failure | apply blind_reset].
    cbn [stage set_timer log]. rewrite !count_emit. simpl. rewrite !Nat.add_0_r. exact H.
  - destruct (_ || _); [|discriminate]. injection Hstep as <-.
    destruct (Nat.ltb 0 size); [|exact H].
    unfold outcome_inv in H |- *. cbn [stage set_chunks log]. rewrite !count_emit.
    simpl. rewrite !Nat.add_0_r. exact H.
  - destruct (onstopPending j); [|discriminate]. injection Hstep as <-.
    apply outcome_settle. exact H.
  - destruct (is_inactive (recState j)); [discriminate|]. injection Hstep as <-.
    apply outcome_settle. exact H.
  - injection Hstep as <-. exact H.
Qed.

Lemma launch_shape b videoUrl clip t0 j0 :
  exportPortraitClip b videoUrl clip t0 = Started j0 ->
  exists m, stage j0 = AwaitPlay /\ recordingStopped j0 = false /\ timer j0 = None /\
    map snd (log j0) = [SetErrorMessage None; SetExportingClipId (Some (clip_id clip));
                        SeekTo (start_time clip); RecorderStart m; PlayCalled] /\
    find (isTypeSupported b) preferredMimeTypes = Some m.
Proof.
  unfold exportPortraitClip, prepare, caught.
  destruct (String.eqb videoUrl ""); [discriminate|].
  destruct (negb (hasMediaRecorder b)); [discriminate|].
  destruct (metadataEvent b); try discriminate.
  destruct (seekedEvent b); [|discriminate].
  destruct (negb (hasCaptureStream b)); [discriminate|].
  destruct (negb (hasContext2d b)); [discriminate|].
  destruct (find (isTypeSupported b) preferredMimeTypes) as [m|]; [|discriminate].
  intro H. injection H as <-. exists m. repeat split.
Qed.

Lemma count_of_snd p l : count_effect p l = List.length (filter p (map snd l)).
Proof.
  unfold count_effect. induction l as [|x l IH]; [reflexivity|]. simpl.
  destruct (p (snd x)); simpl; now rewrite IH.
Qed.

Lemma launch_outcome b videoUrl clip t0 j0 :
  exportPortraitClip b videoUrl clip t0 = Started j0 -> outcome_inv j0.
Proof.
  intro Hl. destruct (launch_shape _ _ _ _ _ Hl) as (m & Hs & _ & _ & Hlog & _).
  unfold outcome_inv. rewrite Hs, !count_of_snd, Hlog. auto.
Qed.

(** Every export job that started recording ends in at most one outcome:
    it downloads a file at most once, shows the failure message at most
    once, never both, and resets [exportingClipId] exactly once per
    outcome; the download happened iff the job finished, the message iff
    it failed. *)
Theorem export_single_outcome (b : Browser) (videoUrl : string) (clip : VideoClip)
    (t0 : Q) (j0 j : Job) (es : list Event) :
  exportPortraitClip b videoUrl clip t0 = Started j0 ->
  run clip (composedTracks b) (sourceTracks b) j0 es = Some j ->
  let D := count_effect is_download (log j) in
  let F := count_effect is_failure_message (log j) in
  let C := count_effect is_flag_reset (log j) in
  (D + F <= 1)%nat /\ C = (D + F)%nat /\
  (stage j = Finished <-> D = 1%nat) /\ (stage j = Failed <-> F = 1%nat).
Proof.
  intros Hl Hrun.
  assert (H := run_preserves outcome_inv _ _ _ (outcome_step clip _ _) es j0 j
                 (launch_outcome _ _ _ _ _ Hl) Hrun).
  unfold outcome_inv in H. cbv zeta.
  destruct (stage j); destruct H as (D & F & C); rewrite D, F, C;
    repeat split; try lia; discriminate.
Qed.

End ExportOutcomeFacts.

Module ExportFlowFacts.
Import JsNum Frame ExportJob ExportChecks ExportInvariants ExportFacts ExportOutcomeFacts.

Lemma flag_writes_app l1 l2 : flag_writes (l1 ++ l2)%list = (flag_writes l1 ++ flag_writes l2)%list.
Proof. unfold flag_writes. apply flat_map_app. Qed.

Lemma flag_writes_stamped t es : flag_writes (map (fun e => (t, e)) es) = flags_of es.
Proof. induction es as [|e es IH]; [reflexivity|]. simpl. now rewrite IH. Qed.

Lemma flag_emit es j : flag_writes (log (emit es j)) = (flag_writes (log j) ++ flags_of es)%list.
Proof. now rewrite emit_log, flag_writes_app, flag_writes_stamped. Qed.

Lemma flags_track_stops l : flags_of (map TrackStop l) = [].
Proof. induction l; simpl; auto. Qed.

Lemma flag_stopRecording composed source j :
  flag_writes (log (stopRecording composed source j)) = flag_writes (log j).
Proof.
  destruct (recordingStopped j) eqn:Hs; [now rewrite stopRecording_noop|].
  rewrite stopRecording_log by exact Hs. rewrite flag_writes_app, flag_writes_stamped.
  simpl. unfold flags_of. rewrite !flat_map_app. fold (flags_of (map TrackStop composed)).
  fold (flags_of (map TrackStop source)). rewrite !flags_track_stops. simpl.
  now rewrite app_nil_r.
Qed.

Lemma flag_settle id clip composed source j :
  flag_inv id j -> flag_inv id (settle clip composed source j).
Proof.
  unfold settle, flag_inv. intro H. destruct (stage j) eqn:Hs; try (rewrite Hs; exact H);
    destruct (recordingPromise j); try (rewrite Hs; exact H).
  - unfold finish. cbn [stage set_stage log]. rewrite flag_emit, flag_stopRecording, H.
    reflexivity.
  - unfold catch_finally. cbn [stage set_stage log]. rewrite flag_emit, H. reflexivity.
Qed.

Lemma flag_step id clip composed source j e j' :
  flag_inv id j -> step clip composed source j e = Some j' -> flag_inv id j'.
Proof.
  intros H Hstep. destruct e; simpl in Hstep.
  - destruct (Qle_bool 0 dt); [|discriminate]. injection Hstep as <-. exact H.
  - destruct (stage j) eqn:Hs; try discriminate. injection Hstep as <-.
    apply flag_settle. unfold flag_inv in H |- *. rewrite Hs in H.
    cbn [stage set_stage log set_timer]. rewrite flag_emit, H. reflexivity.
  - destruct (stage j) eqn:Hs; try discriminate. injection Hstep as <-.
    unfold flag_inv in H |- *. rewrite Hs in H. unfold catch_finally.
    cbn [stage set_stage log]. rewrite flag_emit, H. reflexivity.
  - destruct (timer j) as [due|]; [|discriminate].
    destruct (Qle_bool due (now j)); [|discriminate]. injection Hstep as <-.
    unfold flag_inv in H |- *. rewrite stage_stopRecording, flag_stopRecording.
    rewrite flag_emit. cbn [stage emit set_timer log]. rewrite H. simpl. now rewrite app_nil_r.
  - destruct (_ || _); [|discriminate]. injection Hstep as <-.
    destruct (Nat.ltb 0 size); [|exact H].
    unfold flag_inv in H |- *. rewrite flag_emit. cbn [stage emit set_chunks log]. rewrite H.
    simpl. now rewrite app_nil_r.
  - destruct (onstopPending j); [|discriminate]. injection Hstep as <-.
    apply flag_settle. exact H.
  - destruct (is_inactive (recState j)); [discriminate|]. injection Hstep as <-.
    apply flag_settle. exact H.
  - injection Hstep as <-. exact H.
Qed.

(** [exportPortraitClip] sets [exportingClipId] to the clip's id exactly
    when it gets past the two early returns, and only its [finally] resets
    it: an early return writes the flag never, a failure before recording
    sets and resets it, and a launch that hangs on a media event that
    never fires, or that started recording, has set it and not reset
    it. *)
Theorem export_flag_protocol (b : Browser) (videoUrl : string) (clip : VideoClip) (t0 : Q) :
  match exportPortraitClip b videoUrl clip t0 with
  | Returned l =>
      (flag_writes l = [] /\ (videoUrl = EmptyString \/ hasMediaRecorder b = false)) \/
      (flag_writes l = [Some (clip_id clip); None] /\ count_effect is_failure_message l = 1%nat)
  | Hung l => flag_writes l = [Some (clip_id clip)]
  | Started j => flag_writes (log j) = [Some (clip_id clip)]
  end.
Proof.
  unfold exportPortraitClip, prepare, caught.
  destruct (String.eqb_spec videoUrl "") as [->|Hu].
  { left. split; [reflexivity|]. now left. }
  destruct (hasMediaRecorder b) eqn:Hr; cbn [negb].
  2: { left. split; [reflexivity|]. now right. }
  destruct (metadataEvent b); [|right; split; reflexivity|reflexivity].
  destruct (seekedEvent b); [|reflexivity].
  destruct (negb (hasCaptureStream b)); [right; split; reflexivity|].
  destruct (negb (hasContext2d b)); [right; split; reflexivity|].
  destruct (find (isTypeSupported b) preferredMimeTypes); [reflexivity|].
  right; split; reflexivity.
Qed.

Lemma released_emit composed source j es :
  (forall e, In e es -> is_recorder_stop e = false /\ is_pause e = false /\
                        forall t, is_track_stop t e = false) ->
  released composed source (recordingStopped j) (log j) ->
  released composed source (recordingStopped j) (log (emit es j)).
Proof.
  intros Hes. unfold released. rewrite !count_emit.
  assert (E : forall p, (forall e, In e es -> p e = false) -> List.length (filter p es) = 0%nat).
  { intros p Hp. induction es as [|e es IH]; [reflexivity|]. simpl.
    rewrite (Hp e (or_introl eq_refl)). apply IH; [|intros; apply Hp; now right].
    intros; apply Hes; now right. }
  rewrite (E is_recorder_stop) by (intros; apply Hes; assumption).
  rewrite (E is_pause) by (intros; apply Hes; assumption).
  destruct (recordingStopped j); intros (A & B & C); rewrite A, B; (split; [reflexivity|]);
    (split; [reflexivity|]); intro t; rewrite count_emit, C, (E (is_track_stop t)) by
      (intros; apply Hes; assumption); lia.
Qed.

Lemma released_stopRecording composed source j :
  released composed source (recordingStopped j) (log j) ->
  released composed source true (log (stopRecording composed source j)).
Proof.
  destruct (recordingStopped j) eqn:Hs; [now rewrite stopRecording_noop|].
  intros (A & B & C).
  destruct (stopRecording_idempotent composed source j 0 Hs) as (_ & _ & _ & D & E & F).
  cbn [Nat.iter] in D, E, F. rewrite A in D. rewrite B in E.
  split; [exact D|]. split; [exact E|]. intro t. rewrite F, C. lia.
Qed.

Ltac stop_free := let e := fresh in intros e He; repeat (destruct He as [<-|He]);
  [..|destruct He]; repeat split.

Lemma stop_inv_finish clip composed source j :
  released composed source (recordingStopped j) (log j) ->
  stop_inv composed source (finish clip composed source j).
Proof.
  intro H. unfold finish. split.
  - intros _. cbn [recordingStopped set_stage emit]. apply stopRecording_stopped.
  - cbn [recordingStopped set_stage emit log].
    pose proof (stopRecording_stopped composed source j) as Hs. rewrite Hs.
    pose proof (released_emit composed source (stopRecording composed source j)
                  [Download (clip_title clip); SetExportingClipId None]) as R.
    rewrite Hs in R. apply R; [stop_free|]. now apply released_stopRecording.
Qed.

Lemma stop_inv_catch composed source j :
  released composed source (recordingStopped j) (log j) ->
  stop_inv composed source (catch_finally j).
Proof.
  intro H. unfold catch_finally. split; [discriminate|].
  exact (released_emit composed source j [SetErrorMessage (Some msg_failed); SetExportingClipId None]
           ltac:(stop_free) H).
Qed.

Lemma stop_inv_settle clip composed source j :
  stop_inv composed source j -> stop_inv composed source (settle clip composed source j).
Proof.
  intro H. unfold settle. destruct (stage j); try exact H;
    destruct (recordingPromise j); try exact H.
  - apply stop_inv_finish, H.
  - apply stop_inv_catch, H.
Qed.

Lemma stop_inv_step clip composed source j e j' :
  stop_inv composed source j -> step clip composed source j e = Some j' ->
  stop_inv composed source j'.
Proof.
  intros [Hf Hr] Hstep. destruct e; simpl in Hstep.
  - destruct (Qle_bool 0 dt); [|discriminate]. injection Hstep as <-. split; assumption.
  - destruct (stage j) eqn:Hs; try discriminate. injection Hstep as <-.
    apply stop_inv_settle. split; [discriminate|].
    cbn [recordingStopped set_stage set_timer log].
    pose proof (released_emit composed source j [SetTimeout (clip_duration clip * 1000)]) as R.
    apply R; [stop_free|exact Hr].
  - destruct (stage j) eqn:Hs; try discriminate. injection Hstep as <-.
    now apply stop_inv_catch.
  - destruct (timer j) as [due|]; [|discriminate].
    destruct (Qle_bool due (now j)); [|discriminate]. injection Hstep as <-.
    split; [intros _; apply stopRecording_stopped|].
    rewrite stopRecording_stopped. apply released_stopRecording.
    cbn [recordingStopped set_timer emit log].
    pose proof (released_emit composed source (set_timer None j) [TimerFired]) as R.
    apply R; [stop_free|exact Hr].
  - destruct (_ || _); [|discriminate]. injection Hstep as <-.
    destruct (Nat.ltb 0 size); [|split; assumption].
    split; [exact Hf|].
    pose proof (released_emit composed source (set_chunks (S (chunks j)) j) [ChunkPushed]) as R.
    apply R; [stop_free|exact Hr].
  - destruct (onstopPending j); [|discriminate]. injection Hstep as <-.
    apply stop_inv_settle. split; assumption.
  - destruct (is_inactive (recState j)); [discriminate|]. injection Hstep as <-.
    apply stop_inv_settle. split; assumption.
  - injection Hstep as <-. split; assumption.
Qed.

Lemma launch_stop_inv b videoUrl clip t0 j0 :
  exportPortraitClip b videoUrl clip t0 = Started j0 ->
  stop_inv (composedTracks b) (sourceTracks b) j0.
Proof.
  intro Hl. destruct (launch_shape _ _ _ _ _ Hl) as (m & Hs & Hst & _ & Hlog & _).
  split; [rewrite Hs; discriminate|]. rewrite Hst. unfold released.
  rewrite !count_of_snd, Hlog. repeat split. intro t. rewrite count_of_snd, Hlog. reflexivity.
Qed.

(** A finished export has released everything: the recorder was stopped
    once, the source paused once, and every track of the composed and of
    the source stream was stopped (at least once). *)
Theorem finished_export_released (b : Browser) (videoUrl : string) (clip : VideoClip)
    (t0 : Q) (j0 j : Job) (es : list Event) :
  exportPortraitClip b videoUrl clip t0 = Started j0 ->
  run clip (composedTracks b) (sourceTracks b) j0 es = Some j ->
  stage j = Finished ->
  recordingStopped j = true /\
  count_effect is_recorder_stop (log j) = 1%nat /\ count_effect is_pause (log j) = 1%nat /\
  forall t, In t (composedTracks b ++ sourceTracks b)%list ->
    (1 <= count_effect (is_track_stop t) (log j))%nat.
Proof.
  intros Hl Hrun Hfin.
  destruct (run_preserves (stop_inv (composedTracks b) (sourceTracks b)) _ _ _
              (stop_inv_step clip _ _) es j0 j (launch_stop_inv _ _ _ _ _ Hl) Hrun) as [Hf Hr].
  specialize (Hf Hfin). unfold released in Hr. rewrite Hf in Hr. destruct Hr as (A & B & C).
  split; [exact Hf|]. split; [exact A|]. split; [exact B|].
  intros t Ht. rewrite C. apply in_app_or in Ht as [Ht|Ht].
  - apply (count_occ_In Nat.eq_dec) in Ht. lia.
  - apply (count_occ_In Nat.eq_dec) in Ht. lia.
Qed.

Lemma rejected_settle clip composed source j :
  rejected_inv j -> settle clip composed source j = j.
Proof. intros (Hs & _). unfold settle. now rewrite Hs. Qed.

Lemma rejected_step clip composed source j e j' :
  rejected_inv j -> step clip composed source j e = Some j' -> rejected_inv j'.
Proof.
  intros H Hstep. pose proof H as (Hs & Ht & Hst). destruct e; simpl in Hstep.
  - destruct (Qle_bool 0 dt); [|discriminate]. injection Hstep as <-. exact H.
  - rewrite Hs in Hstep. discriminate.
  - rewrite Hs in Hstep. discriminate.
  - rewrite Ht in Hstep. discriminate.
  - destruct (_ || _); [|discriminate]. injection Hstep as <-.
    destruct (Nat.ltb 0 size); [|exact H]. exact H.
  - destruct (onstopPending j); [|discriminate]. injection Hstep as <-.
    rewrite rejected_settle; exact H.
  - destruct (is_inactive (recState j)); [discriminate|]. injection Hstep as <-.
    rewrite rejected_settle; exact H.
  - injection Hstep as <-. exact H.
Qed.

(** When [play()] rejects, the job goes to [catch] and [finally] without
    ever calling [stopRecording]: whatever happens afterwards, the
    recorder started before [play()] is never stopped, the source never
    paused, no track stopped, and no stop timer is pending; the failure
    message was shown once. *)
Theorem play_rejection_leaves_recording (b : Browser) (videoUrl : string) (clip : VideoClip)
    (t0 : Q) (j0 j : Job) (es : list Event) :
  exportPortraitClip b videoUrl clip t0 = Started j0 ->
  run clip (composedTracks b) (sourceTracks b) j0 (PlayRejects :: es) = Some j ->
  stage j = Failed /\ timer j = None /\ recordingStopped j = false /\
  count_effect is_recorder_stop (log j) = 0%nat /\ count_effect is_pause (log j) = 0%nat /\
  (forall t, count_effect (is_track_stop t) (log j) = 0%nat) /\
  count_effect is_failure_message (log j) = 1%nat.
Proof.
  intros Hl Hrun.
  pose proof (export_single_outcome b videoUrl clip t0 j0 j _ Hl Hrun) as (_ & _ & _ & Hfail).
  destruct (run_preserves (stop_inv (composedTracks b) (sourceTracks b)) _ _ _
              (stop_inv_step clip _ _) _ j0 j (launch_stop_inv _ _ _ _ _ Hl) Hrun) as [_ Hr].
  destruct (launch_shape _ _ _ _ _ Hl) as (m & Hs & Hst & Ht & _).
  simpl in Hrun. rewrite Hs in Hrun.
  assert (H1 : rejected_inv (catch_finally j0)) by (repeat split; assumption).
  destruct (run_preserves rejected_inv _ _ _ (rejected_step clip _ _) es _ j H1 Hrun)
    as (A & B & C).
  unfold released in Hr. rewrite C in Hr. destruct Hr as (D & E & F).
  repeat split; try assumption. now apply Hfail.
Qed.

End ExportFlowFacts.

Module ExportUIExtraFacts.
Import ExportUI.

Lemma remove_one_keeps x y l : job_eqb y x = false -> In y l -> In y (remove_one x l).
Proof.
  intro Hne. induction l as [|z l IH]; simpl; [auto|]. intros [<-|Hin].
  - rewrite Hne. now left.
  - destruct (job_eqb z x); [exact Hin|]. right. now apply IH.
Qed.

(** A disabled button always belongs to a job in flight: whenever
    [exportingClipId] names a clip, a job of that clip is running. *)
Theorem flag_names_running_job (videoReady hasRecorder : bool) (es : list UIEvent)
    (ui : UI) (x : string) :
  ui_run videoReady hasRecorder ui_init es = Some ui ->
  exportingClipId ui = Some x -> In x (inflight ui).
Proof.
  assert (H : forall es ui0, (forall x, exportingClipId ui0 = Some x -> In (x, mount ui0) (jobs ui0)) ->
            ui_run videoReady hasRecorder ui0 es = Some ui ->
            forall x, exportingClipId ui = Some x -> In (x, mount ui) (jobs ui)).
  { clear. intro es. induction es as [|e es IH]; intros ui0 Hi Hr; simpl in Hr.
    - injection Hr as <-. exact Hi.
    - destruct (ui_step videoReady hasRecorder ui0 e) as [ui1|] eqn:Hs; [|discriminate].
      apply (IH ui1); [|exact Hr]. destruct e as [id|id m|]; simpl in Hs.
      + destruct (button_disabled ui0 id); [injection Hs as <-; exact Hi|].
        destruct (negb videoReady); [injection Hs as <-; exact Hi|].
        destruct (negb hasRecorder); [injection Hs as <-; exact Hi|].
        injection Hs as <-. simpl. intros y Hy. injection Hy as ->. now left.
      + destruct (existsb _ _); [|discriminate]. injection Hs as <-. simpl.
        destruct (Nat.eqb_spec m (mount ui0)) as [_|Hm]; [discriminate|].
        intros y Hy. apply remove_one_keeps; [|exact (Hi y Hy)].
        unfold job_eqb. simpl. rewrite Bool.andb_false_iff. right.
        apply Nat.eqb_neq. auto.
      + injection Hs as <-. discriminate. }
  intros Hrun Hx. apply (in_map fst _ (x, mount ui)).
  exact (H es ui_init ltac:(discriminate) Hrun x Hx).
Qed.

End ExportUIExtraFacts.

Module ConfirmExtraFacts.
Import JsNum Planner Confirm.

(** A failed confirmation keeps the drafts and the list of generated rows,
    and clears [generating]; confirming again with a signed-in user issues
    every insert of the failed attempt once more, so the rows that were
    stored before the failure are stored twice. *)
Theorem failed_confirm_keeps_drafts (be1 be2 : Backend) (videoId filePath : string)
    (st st' : UIState) (effs : list Effect) :
  generateClips be1 videoId filePath st = (st', effs) ->
  In (Alert "Failed to generate clips. Please try again.") effs ->
  clips st' = clips st /\ generatedClips st' = generatedClips st /\ generating st' = false /\
  (currentUser be2 <> None ->
   forall r, In (Insert r) effs -> In (Insert r) (snd (generateClips be2 videoId filePath st'))).
Proof.
  intros Hg Hin. unfold generateClips in Hg.
  destruct (Nat.eqb (List.length (clips st)) 0) eqn:H0.
  { injection Hg as _ <-. simpl in Hin. destruct Hin as [E|[]]. discriminate. }
  destruct (existsb (fun clip => Qle_bool (duration clip) 0) (clips st)) eqn:H1.
  { injection Hg as _ <-. simpl in Hin. destruct Hin as [E|[]]. discriminate. }
  assert (Hretry : currentUser be2 <> None -> forall r,
            In (Insert r) (map Insert (map (row_of videoId filePath) (clips st))) ->
            In (Insert r) (snd (generateClips be2 videoId filePath
                                  (mkUI (clips st) (generatedClips st) false)))).
  { intros Hu r Hr. unfold generateClips. cbn [clips]. rewrite H0, H1.
    destruct (currentUser be2) as [u|]; [|congruence].
    destruct (forallb (insertOk be2) (map (row_of videoId filePath) (clips st)));
      cbn [snd]; apply in_or_app; right; apply in_or_app; now left. }
  destruct (currentUser be1) as [u|].
  - destruct (forallb (insertOk be1) (map (row_of videoId filePath) (clips st))).
    + injection Hg as <- <-. exfalso. simpl in Hin.
      repeat (destruct Hin as [E|Hin]; [discriminate|]).
      apply in_app_or in Hin as [Hin|Hin].
      * apply in_map_iff in Hin as (? & E & _). discriminate.
      * repeat (destruct Hin as [E|Hin]; [discriminate|]). destruct Hin.
    + injection Hg as <- <-. repeat split.
      intros Hu r Hr. apply Hretry; [exact Hu|]. simpl in Hr.
      destruct Hr as [E|[E|Hr]]; try discriminate.
      apply in_app_or in Hr as [Hr|Hr]; [exact Hr|].
      repeat (destruct Hr as [E|Hr]; [discriminate|]). destruct Hr.
  - injection Hg as <- <-. repeat split.
    intros _ r Hr. simpl in Hr. repeat (destruct Hr as [E|Hr]; [discriminate|]). destruct Hr.
Qed.

End ConfirmExtraFacts.

(** ** Binary64 arithmetic: rounding and error bounds *)
Module Binary64Facts.
Import Binary64.
Local Open Scope Z_scope.

Lemma digits2_size p : digits2_pos p = Pos.size p.
Proof. induction p; simpl; try rewrite IHp; reflexivity. Qed.

Lemma Zdigits2_bounds (z : Z) : 0 < z ->
  2 ^ (Zdigits2 z - 1) <= z < 2 ^ Zdigits2 z.
Proof.
  intro Hz. destruct z as [|p|p]; try lia. change (Zdigits2 (Zpos p)) with (Zpos (digits2_pos p)). rewrite digits2_size.
  pose proof (Pos.size_le p) as H1. pose proof (Pos.size_gt p) as H2.
  assert (H2' : Zpos p < Zpos (2 ^ Pos.size p)) by (exact H2).
  rewrite Pos2Z.inj_pow in H2'.
  split; [|exact H2'].
  assert (H1' : Zpos (2 ^ Pos.size p) <= Zpos p~0) by (exact H1).
  rewrite Pos2Z.inj_xO, Pos2Z.inj_pow in H1'.
  assert (Hs : 1 <= Zpos (Pos.size p)) by lia.
  replace (Zpos (Pos.size p)) with (Z.succ (Zpos (Pos.size p) - 1)) in H1' by lia.
  rewrite Z.pow_succ_r in H1' by lia. lia.
Qed.

Lemma Zdigits2_unique (z a : Z) : 0 < a -> 2 ^ (a - 1) <= z < 2 ^ a -> Zdigits2 z = a.
Proof.
  intros Ha [H1 H2].
  assert (Hz : 0 < z) by (pose proof (Z.pow_pos_nonneg 2 (a - 1)); lia).
  destruct (Zdigits2_bounds z Hz) as [H3 H4].
  destruct (Z.lt_trichotomy (Zdigits2 z) a) as [L|[E|L]]; [|exact E|].
  - assert (2 ^ Zdigits2 z <= 2 ^ (a - 1)) by (apply Z.pow_le_mono_r; lia). lia.
  - assert (2 ^ a <= 2 ^ (Zdigits2 z - 1)) by (apply Z.pow_le_mono_r; lia). lia.
Qed.

Lemma Zdigits2_pos z : 0 < z -> 0 < Zdigits2 z.
Proof. destruct z; simpl; lia. Qed.

Lemma pow2_add a b : (pow2 (a + b) == pow2 a * pow2 b)%Q.
Proof. unfold pow2. apply Qpower_plus. discriminate. Qed.

Lemma pow2_pos z : (0 < pow2 z)%Q.
Proof. unfold pow2. apply Qpower_0_lt. reflexivity. Qed.

Lemma pow2_Z z : 0 <= z -> (pow2 z == inject_Z (2 ^ z))%Q.
Proof. intro H. unfold pow2. symmetry. now apply Zpower_Qpower. Qed.

Lemma pow2_lt a b : a < b -> (pow2 a < pow2 b)%Q.
Proof. intro H. unfold pow2. apply Qpower_lt_compat_l; [exact H | reflexivity]. Qed.

Lemma pow2_le a b : a <= b -> (pow2 a <= pow2 b)%Q.
Proof. intro H. unfold pow2. apply Qpower_le_compat_l; [exact H | discriminate]. Qed.

Lemma pow2_opp z : (pow2 (- z) * pow2 z == 1)%Q.
Proof.
  rewrite <- pow2_add. replace (- z + z) with 0 by lia. reflexivity.
Qed.

Lemma pow2_succ z : (pow2 (z + 1) == 2 * pow2 z)%Q.
Proof. rewrite pow2_add. unfold pow2 at 2. simpl. ring. Qed.

Lemma pow2_m1 : (pow2 (-1) == 1#2)%Q.
Proof. reflexivity. Qed.

Lemma pow2_pred z : (pow2 (z - 1) * 2 == pow2 z)%Q.
Proof.
  replace z with ((z - 1) + 1) at 2 by lia. rewrite pow2_succ. ring.
Qed.

(** ** Locations: where a value lies relative to an integer [m]. *)
Definition inbetween (m : Z) (l : location) (x : Q) : Prop :=
  match l with
  | loc_Exact => (x == inject_Z m)%Q
  | loc_Inexact Lt => (inject_Z m < x /\ x < inject_Z m + (1#2))%Q
  | loc_Inexact Eq => (x == inject_Z m + (1#2))%Q
  | loc_Inexact Gt => (inject_Z m + (1#2) < x /\ x < inject_Z m + 1)%Q
  end.

Lemma inbetween_compat m l x y : (x == y)%Q -> inbetween m l x -> inbetween m l y.
Proof. intros E H. destruct l as [|[]]; simpl in *; rewrite <- E; exact H. Qed.

Lemma inbetween_bounds m l x : inbetween m l x -> (inject_Z m <= x < inject_Z m + 1)%Q.
Proof. destruct l as [|[]]; simpl; intros; lra. Qed.

Lemma shr_1_eq m r s : 0 <= m ->
  shr_1 (Build_shr_record m r s) = Build_shr_record (m / 2) (Z.odd m) (r || s).
Proof.
  intro Hm. rewrite <- Z.div2_div.
  destruct m as [|[p|p|]|p]; try lia; reflexivity.
Qed.

Lemma shr_1_ok m r s x : 0 <= m ->
  inbetween m (loc_of_shr_record (Build_shr_record m r s)) x ->
  inbetween (m / 2) (loc_of_shr_record (Build_shr_record (m / 2) (Z.odd m) (r || s)))
    (x * (1#2)).
Proof.
  intros Hm H. pose proof (Z.div2_odd m) as E. rewrite Z.div2_div in E.
  assert (EQ : (inject_Z m == 2 * inject_Z (m / 2) + inject_Z (Z.b2z (Z.odd m)))%Q).
  { rewrite E at 1. rewrite inject_Z_plus, inject_Z_mult. reflexivity. }
  destruct (Z.odd m); simpl in EQ;
    [change (inject_Z 1) with 1%Q in EQ | change (inject_Z 0) with 0%Q in EQ];
    destruct r, s; simpl in H |- *; lra.
Qed.

Lemma iter_pos_nat {A} (f : A -> A) p x : iter_pos f p x = Nat.iter (Pos.to_nat p) f x.
Proof.
  revert x. induction p as [p IH|p IH|]; intro x; cbn [iter_pos].
  - rewrite Pos2Nat.inj_xI, !IH. rewrite <- Nat.iter_add.
    rewrite Nat.iter_succ_r. f_equal. lia.
  - rewrite Pos2Nat.inj_xO, !IH. rewrite <- Nat.iter_add. f_equal. lia.
  - reflexivity.
Qed.

Definition rec_ok (rc : shr_record) (x : Q) : Prop :=
  0 <= shr_m rc /\ inbetween (shr_m rc) (loc_of_shr_record rc) x.

Lemma iter_shr_ok (k : nat) rc x : rec_ok rc x ->
  rec_ok (Nat.iter k shr_1 rc) (x * pow2 (- Z.of_nat k)) /\
  shr_m (Nat.iter k shr_1 rc) = shr_m rc / 2 ^ Z.of_nat k.
Proof.
  revert rc x. induction k as [|k IH]; intros rc x Hok.
  - cbn [Nat.iter Z.of_nat]. split; [|now rewrite Z.div_1_r].
    destruct Hok as [H1 H2].
    split; [exact H1|]. eapply inbetween_compat; [|exact H2].
    unfold pow2. simpl. ring.
  - destruct (IH rc x Hok) as [[H1 H2] H3].
    rewrite Nat.iter_succ. destruct (Nat.iter k shr_1 rc) as [m r s] eqn:Hr.
    cbn [shr_m] in H1, H2, H3. rewrite shr_1_eq by exact H1. split; [split|].
    + cbn [shr_m]. apply Z.div_pos; lia.
    + cbn [shr_m]. eapply inbetween_compat; [|exact (shr_1_ok m r s _ H1 H2)].
      rewrite Nat2Z.inj_succ. replace (- Z.succ (Z.of_nat k)) with (- Z.of_nat k + -1) by lia.
      rewrite pow2_add, pow2_m1. ring.
    + cbn [shr_m]. rewrite H3, Nat2Z.inj_succ, Z.pow_succ_r by lia.
      rewrite Z.div_div by (try apply Z.pow_pos_nonneg; lia). f_equal. lia.
Qed.

Lemma FE_eq z : fexp prec emax z = Z.max (z - 53) (-1074).
Proof. reflexivity. Qed.

Lemma shr_ok rc e n x : 0 <= n -> rec_ok rc x ->
  rec_ok (fst (shr rc e n)) (x * pow2 (- n)) /\
  shr_m (fst (shr rc e n)) = shr_m rc / 2 ^ n /\ snd (shr rc e n) = e + n.
Proof.
  intros Hn Hok. destruct n as [|p|p]; try lia.
  - cbn [shr fst snd]. rewrite Z.div_1_r, Z.add_0_r. split; [|split; reflexivity].
    destruct Hok as [H1 H2]. split; [exact H1|]. eapply inbetween_compat; [|exact H2].
    unfold pow2. simpl. ring.
  - cbn [shr fst snd]. rewrite iter_pos_nat.
    destruct (iter_shr_ok (Pos.to_nat p) rc x Hok) as [H1 H2].
    rewrite positive_nat_Z in H1, H2. split; [exact H1|]. split; [exact H2 | reflexivity].
Qed.

Lemma loc_of_record_of_loc m l : loc_of_shr_record (shr_record_of_loc m l) = l.
Proof. destruct l as [|[]]; reflexivity. Qed.

Lemma shr_m_record_of_loc m l : shr_m (shr_record_of_loc m l) = m.
Proof. destruct l as [|[]]; reflexivity. Qed.

Lemma rne_spec m l x : inbetween m l x ->
  (round_nearest_even m l = m \/ round_nearest_even m l = m + 1) /\
  (x - (1#2) <= inject_Z (round_nearest_even m l) <= x + (1#2))%Q.
Proof.
  intro H. destruct l as [|[]]; simpl in H |- *.
  - split; [now left | lra].
  - destruct (Z.even m).
    + split; [now left | lra].
    + split; [now right|]. rewrite inject_Z_plus. change (inject_Z 1) with 1%Q. lra.
  - split; [now left | lra].
  - split; [now right|]. rewrite inject_Z_plus. change (inject_Z 1) with 1%Q. lra.
Qed.

Lemma pow_div_bounds (m D k : Z) : 0 <= k <= D - 1 -> 2 ^ (D - 1) <= m < 2 ^ D ->
  m / 2 ^ k < 2 ^ (D - k) /\ 2 ^ (D - 1 - k) <= m / 2 ^ k.
Proof.
  intros Hk [H1 H2].
  assert (Hpk : 0 < 2 ^ k) by (apply Z.pow_pos_nonneg; lia).
  split.
  - apply Z.div_lt_upper_bound; [exact Hpk|].
    rewrite <- Z.pow_add_r by lia. replace (k + (D - k)) with D by lia. exact H2.
  - apply Z.div_le_lower_bound; [exact Hpk|].
    rewrite <- Z.pow_add_r by lia. replace (k + (D - 1 - k)) with (D - 1) by lia. exact H1.
Qed.

Lemma shr_nonpos rc e n : n <= 0 -> shr rc e n = (rc, e).
Proof. intro H. destruct n; [reflexivity | lia | reflexivity]. Qed.

Lemma pow2_ge1 n : 0 <= n -> 1 <= 2 ^ n.
Proof. intro H. assert (0 < 2 ^ n) by (apply Z.pow_pos_nonneg; lia). lia. Qed.

Lemma Zdigits2_le53 z : 1 <= z < 2 ^ 53 -> Zdigits2 z <= 53.
Proof.
  intro H. pose proof (Zdigits2_bounds z ltac:(lia)) as [H1 _].
  destruct (Z.le_gt_cases (Zdigits2 z) 53) as [L|L]; [exact L|].
  assert (2 ^ 53 <= 2 ^ (Zdigits2 z - 1)) by (apply Z.pow_le_mono_r; lia). lia.
Qed.

Lemma round_aux_spec s m e l x :
  0 < m -> inbetween m l x ->
  e <= fexp prec emax (Zdigits2 m + e) ->
  -1074 < Zdigits2 m + e <= 1000 ->
  exists m' e' z,
    binary_round_aux prec emax s m e l = S754_finite s m' e' /\
    valid_binary prec emax (S754_finite s m' e') = true /\
    1 <= z <= 2 ^ 53 /\
    (inject_Z (Zpos m') * pow2 e' == inject_Z z * pow2 (fexp prec emax (Zdigits2 m + e)))%Q /\
    (x * pow2 (e - fexp prec emax (Zdigits2 m + e)) - (1#2) <= inject_Z z <=
     x * pow2 (e - fexp prec emax (Zdigits2 m + e)) + (1#2))%Q.
Proof.
  intros Hm Hin He Hr.
  set (D := Zdigits2 m) in *. set (E := fexp prec emax (D + e)) in *.
  assert (HE : E = Z.max (D + e - 53) (-1074)) by apply FE_eq.
  pose proof (Zdigits2_bounds m Hm) as Hb. fold D in Hb.
  assert (Hk : 0 <= E - e <= D - 1) by lia.
  unfold binary_round_aux, shr_fexp. fold D. fold E.
  pose proof (shr_ok (shr_record_of_loc m l) e (E - e) x ltac:(lia)) as Hs.
  destruct (shr (shr_record_of_loc m l) e (E - e)) as [rc1 e1] eqn:Hs1.
  cbn [fst snd] in Hs. rewrite shr_m_record_of_loc in Hs. cbv beta iota.
  destruct Hs as (Hok1 & Hm1 & He1).
  { split; [rewrite shr_m_record_of_loc; lia|].
    rewrite loc_of_record_of_loc, shr_m_record_of_loc. exact Hin. }
  replace (- (E - e)) with (e - E) in Hok1 by lia.
  pose proof (pow_div_bounds m D (E - e) Hk Hb) as [Hub Hlb].
  rewrite <- Hm1 in Hub, Hlb.
  assert (H53 : 2 ^ (D - (E - e)) <= 2 ^ 53) by (apply Z.pow_le_mono_r; lia).
  assert (H1 : 1 <= 2 ^ (D - 1 - (E - e))) by (apply pow2_ge1; lia).
  assert (Hnorm : -1074 < E -> 2 ^ 52 <= shr_m rc1).
  { intro L. replace (D - 1 - (E - e)) with 52 in Hlb by lia. exact Hlb. }
  destruct Hok1 as [_ Hin1].
  pose proof (rne_spec _ _ _ Hin1) as [Hz Hzb].
  set (z := round_nearest_even (shr_m rc1) (loc_of_shr_record rc1)) in *.
  subst e1. replace (e + (E - e)) with E by lia.
  assert (Hzr : 1 <= z <= 2 ^ 53) by lia.
  destruct (Z.eq_dec z (2 ^ 53)) as [Ez|Nz].
  - assert (Dz : Zdigits2 z = 54) by (apply Zdigits2_unique; [lia | rewrite Ez; lia]).
    rewrite Dz. rewrite FE_eq. replace (Z.max (54 + E - 53) (-1074) - E) with 1 by lia.
    rewrite Ez. cbn [shr iter_pos]. 
    change (shr_m (shr_1 (Build_shr_record (2 ^ 53) false false))) with 4503599627370496.
    assert (Hle : (E + 1 <=? emax - prec) = true) by (apply Z.leb_le; unfold emax, prec; lia).
    rewrite Hle.
    exists 4503599627370496%positive, (E + 1), z. split; [reflexivity|]. split.
    + unfold valid_binary, bounded, canonical_mantissa. rewrite Hle, Bool.andb_true_r.
      apply Z.eqb_eq. rewrite FE_eq. change (Zpos (digits2_pos 4503599627370496)) with 53. lia.
    + split; [exact Hzr|]. split; [|exact Hzb].
      rewrite Ez, pow2_add. rewrite <- (pow2_Z 53) by lia.
      change (inject_Z (Zpos 4503599627370496)) with (pow2 52).
      rewrite <- !pow2_add. replace (52 + (E + 1)) with (53 + E) by lia. reflexivity.
  - assert (Dz : Zdigits2 z <= 53) by (apply Zdigits2_le53; lia).
    rewrite shr_nonpos by (rewrite FE_eq; lia).
    cbn [shr_record_of_loc shr_m].
    destruct z as [|p|p] eqn:Zp; try lia.
    assert (Hle : (E <=? emax - prec) = true) by (apply Z.leb_le; unfold emax, prec; lia).
    rewrite Hle.
    exists p, E, (Zpos p). split; [reflexivity|]. split; [|split; [exact Hzr|split; [reflexivity|exact Hzb]]].
    unfold valid_binary, bounded, canonical_mantissa. rewrite Hle, Bool.andb_true_r.
    apply Z.eqb_eq. change (Zpos (digits2_pos p)) with (Zdigits2 (Zpos p)). rewrite FE_eq.
    destruct (Z.eq_dec E (-1074)) as [E0|E0]; [lia|].
    assert (Zdigits2 (Zpos p) = 53).
    { apply Zdigits2_unique; [lia|]. split; [|lia].
      assert (2 ^ 52 <= shr_m rc1) by (apply Hnorm; lia). simpl. lia. }
    lia.
Qed.

Lemma iter_xO p d : Zpos (Pos.iter xO p d) = Zpos p * 2 ^ Zpos d.
Proof.
  induction d as [|d IH] using Pos.peano_ind.
  - simpl. lia.
  - rewrite Pos.iter_succ, Pos2Z.inj_xO, IH, Pos2Z.inj_succ, Z.pow_succ_r by lia. ring.
Qed.

Lemma Zdigits2_shift p d : 0 <= d -> Zdigits2 (Zpos p * 2 ^ d) = Zdigits2 (Zpos p) + d.
Proof.
  intro Hd. pose proof (Zdigits2_bounds (Zpos p) ltac:(lia)) as [H1 H2].
  pose proof (Zdigits2_pos (Zpos p) ltac:(lia)).
  assert (0 < 2 ^ d) by (apply Z.pow_pos_nonneg; lia).
  apply Zdigits2_unique; [lia|].
  replace (Zdigits2 (Zpos p) + d - 1) with ((Zdigits2 (Zpos p) - 1) + d) by lia.
  rewrite !Z.pow_add_r by lia. nia.
Qed.

Lemma round_spec s p ez :
  -1074 <= ez -> Zdigits2 (Zpos p) + ez <= 1000 ->
  exists m' e' z,
    binary_round prec emax s p ez = S754_finite s m' e' /\
    valid_binary prec emax (S754_finite s m' e') = true /\
    1 <= z <= 2 ^ 53 /\
    (inject_Z (Zpos m') * pow2 e' == inject_Z z * pow2 (fexp prec emax (Zdigits2 (Zpos p) + ez)))%Q /\
    (inject_Z (Zpos p) * pow2 (ez - fexp prec emax (Zdigits2 (Zpos p) + ez)) - (1#2) <= inject_Z z <=
     inject_Z (Zpos p) * pow2 (ez - fexp prec emax (Zdigits2 (Zpos p) + ez)) + (1#2))%Q.
Proof.
  intros Hez Hr. pose proof (Zdigits2_pos (Zpos p) ltac:(lia)) as HD.
  unfold binary_round. change (Zpos (digits2_pos p)) with (Zdigits2 (Zpos p)).
  set (F := fexp prec emax (Zdigits2 (Zpos p) + ez)) in *.
  assert (HF : F = Z.max (Zdigits2 (Zpos p) + ez - 53) (-1074)) by apply FE_eq.
  unfold shl_align. destruct (F - ez) as [|d|d] eqn:Hd.
  - apply (round_aux_spec s (Zpos p) ez loc_Exact (inject_Z (Zpos p))); [lia | reflexivity | fold F; lia | lia].
  - apply (round_aux_spec s (Zpos p) ez loc_Exact (inject_Z (Zpos p))); [lia | reflexivity | fold F; lia | lia].
  - assert (Hdig : Zdigits2 (Zpos (Pos.iter xO p d)) = Zdigits2 (Zpos p) + Zpos d).
    { rewrite iter_xO. apply Zdigits2_shift. lia. }
    assert (HE : fexp prec emax (Zdigits2 (Zpos (Pos.iter xO p d)) + F) = F).
    { rewrite Hdig. replace (Zdigits2 (Zpos p) + Zpos d + F) with (Zdigits2 (Zpos p) + ez) by lia.
      reflexivity. }
    destruct (round_aux_spec s (Zpos (Pos.iter xO p d)) F loc_Exact (inject_Z (Zpos (Pos.iter xO p d))))
      as (m' & e' & z & R1 & R2 & R3 & R4 & R5); [lia | reflexivity | rewrite HE; lia | rewrite Hdig; lia|].
    rewrite HE in R4, R5. rewrite Z.sub_diag in R5.
    exists m', e', z. split; [exact R1|]. split; [exact R2|]. split; [exact R3|]. split; [exact R4|].
    replace (ez - F) with (Zpos d) by lia.
    rewrite iter_xO, inject_Z_mult, <- pow2_Z in R5 by lia.
    change (pow2 0) with 1%Q in R5. rewrite Qmult_1_r in R5. exact R5.
Qed.

Lemma pow2_lt_inv a b : (pow2 a < pow2 b)%Q -> a < b.
Proof.
  intro H. destruct (Z.lt_ge_cases a b) as [L|L]; [exact L|].
  pose proof (pow2_le b a L). lra.
Qed.

Lemma Zint_close z n : (inject_Z n - (1#2) <= inject_Z z <= inject_Z n + (1#2))%Q -> z = n.
Proof.
  intros [H1 H2].
  assert (z < n + 1).
  { rewrite Zlt_Qlt, inject_Z_plus. change (inject_Z 1) with 1%Q. lra. }
  assert (n < z + 1).
  { rewrite Zlt_Qlt, inject_Z_plus. change (inject_Z 1) with 1%Q. lra. }
  lia.
Qed.

Lemma pos_mul_pow2 p e : (0 < inject_Z (Zpos p) * pow2 e)%Q.
Proof.
  apply Qmult_lt_0_compat; [|apply pow2_pos].
  change 0%Q with (inject_Z 0). rewrite <- Zlt_Qlt. lia.
Qed.

Lemma round_exact s p ez w g :
  -1074 <= ez -> -1074 <= g ->
  (inject_Z (Zpos p) * pow2 ez == inject_Z w * pow2 g)%Q -> w < 2 ^ 53 ->
  (inject_Z (Zpos p) * pow2 ez < pow2 999)%Q ->
  exists m' e',
    binary_round prec emax s p ez = S754_finite s m' e' /\
    valid_binary prec emax (S754_finite s m' e') = true /\
    (inject_Z (Zpos m') * pow2 e' == inject_Z (Zpos p) * pow2 ez)%Q.
Proof.
  intros Hez Hg Heq Hw Hbig.
  set (D := Zdigits2 (Zpos p)).
  pose proof (Zdigits2_bounds (Zpos p) ltac:(lia)) as [Hb1 Hb2]. fold D in Hb1, Hb2.
  pose proof (Zdigits2_pos (Zpos p) ltac:(lia)) as HD. fold D in HD.
  assert (Hlow : (pow2 (D - 1 + ez) <= inject_Z (Zpos p) * pow2 ez)%Q).
  { rewrite pow2_add, pow2_Z by lia. apply Qmult_le_compat_r; [|apply Qlt_le_weak, pow2_pos].
    rewrite <- Zle_Qle. exact Hb1. }
  assert (HD1 : D - 1 + ez < 999) by (apply pow2_lt_inv; lra).
  assert (Hwpos : 0 < w).
  { pose proof (pos_mul_pow2 p ez). pose proof (pow2_pos g).
    destruct (Z.lt_ge_cases 0 w) as [L|L]; [exact L|].
    assert (inject_Z w <= 0)%Q by (change 0%Q with (inject_Z 0); rewrite <- Zle_Qle; exact L).
    assert (inject_Z w * pow2 g <= 0)%Q.
    { apply (Qmult_le_compat_r _ _ (pow2 g)) in H1; [|lra]. lra. }
    lra. }
  assert (HD2 : D - 1 + ez < 53 + g).
  { apply pow2_lt_inv. rewrite (pow2_add 53 g), (pow2_Z 53) by lia.
    assert (inject_Z w * pow2 g < inject_Z (2 ^ 53) * pow2 g)%Q.
    { apply Qmult_lt_r; [apply pow2_pos|]. rewrite <- Zlt_Qlt. exact Hw. }
    lra. }
  destruct (round_spec s p ez Hez ltac:(fold D; lia)) as (m' & e' & z & R1 & R2 & R3 & R4 & R5).
  fold D in R4, R5.
  set (E := fexp prec emax (D + ez)) in *.
  assert (HE : E = Z.max (D + ez - 53) (-1074)) by apply FE_eq.
  assert (Hx : (inject_Z (Zpos p) * pow2 (ez - E) == inject_Z (w * 2 ^ (g - E)))%Q).
  { rewrite inject_Z_mult, <- pow2_Z by lia.
    replace (ez - E) with (ez + - E) by lia. replace (g - E) with (g + - E) by lia.
    rewrite !pow2_add, Qmult_assoc, Heq. ring. }
  rewrite Hx in R5. apply Zint_close in R5. subst z.
  exists m', e'. split; [exact R1|]. split; [exact R2|].
  rewrite R4, inject_Z_mult, <- pow2_Z by lia.
  rewrite Heq, <- Qmult_assoc, <- pow2_add. replace (g - E + E) with g by lia. reflexivity.
Qed.

Lemma valid_facts s m e : valid_binary prec emax (S754_finite s m e) = true ->
  -1074 <= e <= 971 /\ Zpos m < 2 ^ 53 /\ (-1074 < e -> 2 ^ 52 <= Zpos m).
Proof.
  unfold valid_binary, bounded, canonical_mantissa. intro H.
  apply andb_prop in H as [H1 H2]. apply Z.eqb_eq in H1. apply Z.leb_le in H2.
  change (Zpos (digits2_pos m)) with (Zdigits2 (Zpos m)) in H1. rewrite FE_eq in H1.
  pose proof (Zdigits2_bounds (Zpos m) ltac:(lia)) as [B1 B2].
  assert (HD : Zdigits2 (Zpos m) <= 53) by lia.
  assert (2 ^ Zdigits2 (Zpos m) <= 2 ^ 53) by (apply Z.pow_le_mono_r; lia).
  split; [unfold emax, prec in H2; lia|]. split; [lia|].
  intro L. assert (Zdigits2 (Zpos m) = 53) by lia.
  rewrite H0 in B1. exact B1.
Qed.

Lemma Qcompare_cases x y c :
  (c = Lt -> (x < y)%Q) -> (c = Eq -> (x == y)%Q) -> (c = Gt -> (y < x)%Q) -> (x ?= y)%Q = c.
Proof.
  intros H1 H2 H3. destruct c.
  - apply (proj1 (Qeq_alt x y)). auto.
  - apply (proj1 (Qlt_alt x y)). auto.
  - apply (proj1 (Qgt_alt x y)). auto.
Qed.

Lemma pos_compare m1 e1 m2 e2 :
  valid_binary prec emax (S754_finite false m1 e1) = true ->
  valid_binary prec emax (S754_finite false m2 e2) = true ->
  (match Z.compare e1 e2 with Lt => Lt | Gt => Gt | Eq => Pos.compare_cont Eq m1 m2 end) =
  (inject_Z (Zpos m1) * pow2 e1 ?= inject_Z (Zpos m2) * pow2 e2)%Q.
Proof.
  intros V1 V2. apply valid_facts in V1 as (A1 & B1 & C1). apply valid_facts in V2 as (A2 & B2 & C2).
  assert (Key : forall ma ea mb eb, ea < eb -> -1074 <= ea -> Zpos ma < 2 ^ 53 ->
            (-1074 < eb -> 2 ^ 52 <= Zpos mb) ->
            (inject_Z (Zpos ma) * pow2 ea < inject_Z (Zpos mb) * pow2 eb)%Q).
  { intros ma ea mb eb L Ha Hma Hmb.
    apply (Qlt_le_trans _ (pow2 (53 + ea))).
    - rewrite pow2_add, (pow2_Z 53) by lia. apply Qmult_lt_r; [apply pow2_pos|].
      rewrite <- Zlt_Qlt. exact Hma.
    - apply (Qle_trans _ (pow2 (52 + eb))); [apply pow2_le; lia|].
      rewrite pow2_add, (pow2_Z 52) by lia. apply Qmult_le_compat_r; [|apply Qlt_le_weak, pow2_pos].
      rewrite <- Zle_Qle. apply Hmb. lia. }
  destruct (Z.compare_spec e1 e2) as [E|E|E].
  - subst e2. change (Pos.compare_cont Eq m1 m2) with (Pos.compare m1 m2).
    pose proof (pow2_pos e1).
    destruct (Pos.compare_spec m1 m2) as [M|M|M]; symmetry.
    + subst. apply (proj1 (Qeq_alt _ _)). reflexivity.
    + apply (proj1 (Qlt_alt _ _)). apply Qmult_lt_r; [exact H|]. rewrite <- Zlt_Qlt. lia.
    + apply (proj1 (Qgt_alt _ _)). apply Qmult_lt_r; [exact H|]. rewrite <- Zlt_Qlt. lia.
  - symmetry. apply (proj1 (Qlt_alt _ _)). apply Key; auto; lia.
  - symmetry. apply (proj1 (Qgt_alt _ _)). apply Key; auto; lia.
Qed.

Lemma compare_fval a b :
  valid_binary prec emax a = true -> valid_binary prec emax b = true ->
  is_finite a = true -> is_finite b = true ->
  SFcompare a b = Some (fval a ?= fval b)%Q.
Proof.
  intros Va Vb Fa Fb.
  destruct a as [sa|sa| |sa ma ea]; try discriminate; destruct b as [sb|sb| |sb mb eb]; try discriminate;
    cbn [SFcompare fval]; f_equal; try reflexivity.
  - pose proof (pos_mul_pow2 mb eb).
    destruct sb; cbn [cond_Zopp]; rewrite ?inject_Z_opp; symmetry; apply Qcompare_cases; intro C;
      try discriminate; lra.
  - pose proof (pos_mul_pow2 ma ea).
    destruct sa; cbn [cond_Zopp]; rewrite ?inject_Z_opp; symmetry; apply Qcompare_cases; intro C;
      try discriminate; lra.
  - pose proof (pos_mul_pow2 ma ea). pose proof (pos_mul_pow2 mb eb).
    destruct sa, sb; cbn [cond_Zopp]; rewrite ?inject_Z_opp.
    + pose proof (pos_compare ma ea mb eb Va Vb) as P.
      revert P. destruct (Z.compare ea eb); intro P.
      * rewrite P. destruct (inject_Z (Zpos ma) * pow2 ea ?= inject_Z (Zpos mb) * pow2 eb)%Q eqn:Q;
          cbn [CompOpp]; symmetry; apply Qcompare_cases; intro C; try discriminate;
          [apply (proj2 (Qeq_alt _ _)) in Q | apply (proj2 (Qlt_alt _ _)) in Q |
           apply (proj2 (Qgt_alt _ _)) in Q]; lra.
      * symmetry in P. apply (proj2 (Qlt_alt _ _)) in P.
        symmetry; apply Qcompare_cases; intro C; try discriminate; lra.
      * symmetry in P. apply (proj2 (Qgt_alt _ _)) in P.
        symmetry; apply Qcompare_cases; intro C; try discriminate; lra.
    + symmetry; apply Qcompare_cases; intro C; try discriminate; lra.
    + symmetry; apply Qcompare_cases; intro C; try discriminate; lra.
    + exact (pos_compare ma ea mb eb Va Vb).
Qed.

Lemma ltb_fval a b :
  valid_binary prec emax a = true -> valid_binary prec emax b = true ->
  is_finite a = true -> is_finite b = true ->
  SFltb a b = true <-> (fval a < fval b)%Q.
Proof.
  intros Va Vb Fa Fb. unfold SFltb. rewrite (compare_fval a b Va Vb Fa Fb), Qlt_alt.
  destruct (fval a ?= fval b)%Q; split; congruence.
Qed.

Lemma ltb_fval_false a b :
  valid_binary prec emax a = true -> valid_binary prec emax b = true ->
  is_finite a = true -> is_finite b = true ->
  SFltb a b = false <-> (fval b <= fval a)%Q.
Proof.
  intros Va Vb Fa Fb. pose proof (ltb_fval a b Va Vb Fa Fb) as H.
  split.
  - intro F. apply Qnot_lt_le. intro L. apply H in L. congruence.
  - intro L. destruct (SFltb a b) eqn:E; [|reflexivity]. assert (fval a < fval b)%Q by (apply H; reflexivity). lra.
Qed.

Lemma shl_align_fst mx ex ez : ez <= ex -> Zpos (fst (shl_align mx ex ez)) = Zpos mx * 2 ^ (ex - ez).
Proof.
  intro H. unfold shl_align. destruct (ez - ex) as [|d|d] eqn:Hd; cbn [fst].
  - replace (ex - ez) with 0 by lia. lia.
  - lia.
  - rewrite iter_xO. replace (ex - ez) with (Zpos d) by lia. reflexivity.
Qed.

Lemma cond_Zopp_mul s a b : cond_Zopp s (a * b) = cond_Zopp s a * b.
Proof. destruct s; simpl; lia. Qed.

Lemma aligned_value s m e ez : ez <= e ->
  (inject_Z (cond_Zopp s (Zpos (fst (shl_align m e ez)))) * pow2 ez ==
   fval (S754_finite s m e))%Q.
Proof.
  intro H. rewrite shl_align_fst by exact H. cbn [fval].
  rewrite cond_Zopp_mul, inject_Z_mult, <- pow2_Z by lia.
  rewrite <- Qmult_assoc, <- pow2_add. replace (e - ez + ez) with e by lia. reflexivity.
Qed.

Lemma normalize_exact K ez b w g : K <> 0 -> -1074 <= ez -> -1074 <= g ->
  (inject_Z K * pow2 ez == inject_Z w * pow2 g)%Q -> Z.abs w < 2 ^ 53 ->
  (- pow2 999 < inject_Z K * pow2 ez < pow2 999)%Q ->
  exists s m e, binary_normalize prec emax K ez b = S754_finite s m e /\
    valid_binary prec emax (S754_finite s m e) = true /\
    (fval (S754_finite s m e) == inject_Z K * pow2 ez)%Q.
Proof.
  intros HK Hez Hg Heq Hw Hbig. destruct K as [|p|p]; [congruence| |].
  - destruct (round_exact false p ez w g Hez Hg Heq ltac:(lia) ltac:(lra)) as (m' & e' & R1 & R2 & R3).
    exists false, m', e'. split; [exact R1|]. split; [exact R2|]. cbn [fval cond_Zopp]. exact R3.
  - assert (Heq' : (inject_Z (Zpos p) * pow2 ez == inject_Z (- w) * pow2 g)%Q).
    { rewrite inject_Z_opp. change (Zneg p) with (- Zpos p) in Heq. rewrite inject_Z_opp in Heq. lra. }
    assert (Hb : (inject_Z (Zpos p) * pow2 ez < pow2 999)%Q).
    { change (Zneg p) with (- Zpos p) in Hbig. rewrite inject_Z_opp in Hbig. lra. }
    destruct (round_exact true p ez (- w) g Hez Hg Heq' ltac:(lia) Hb) as (m' & e' & R1 & R2 & R3).
    exists true, m', e'. split; [exact R1|]. split; [exact R2|]. cbn [fval cond_Zopp].
    change (Zneg p) with (- Zpos p). rewrite !inject_Z_opp. lra.
Qed.

Lemma nonzero_K K ez w g : (inject_Z K * pow2 ez == inject_Z w * pow2 g)%Q -> w <> 0 -> K <> 0.
Proof.
  intros H Hw HK. subst K. pose proof (pow2_pos g).
  assert (~ inject_Z w == 0)%Q.
  { intro E. apply Hw. apply (proj1 (inject_Z_injective w 0)). exact E. }
  assert (inject_Z w * pow2 g == 0)%Q by (rewrite <- H; reflexivity).
  apply Qmult_integral in H2 as [E|E]; [apply H1; exact E | lra].
Qed.

Lemma add_exact sx mx ex sy my ey w g :
  valid_binary prec emax (S754_finite sx mx ex) = true ->
  valid_binary prec emax (S754_finite sy my ey) = true ->
  (fval (S754_finite sx mx ex) + fval (S754_finite sy my ey) == inject_Z w * pow2 g)%Q ->
  w <> 0 -> Z.abs w < 2 ^ 53 -> -1074 <= g ->
  (- pow2 999 < fval (S754_finite sx mx ex) + fval (S754_finite sy my ey) < pow2 999)%Q ->
  exists s m e, SFadd prec emax (S754_finite sx mx ex) (S754_finite sy my ey) = S754_finite s m e /\
    valid_binary prec emax (S754_finite s m e) = true /\
    (fval (S754_finite s m e) == fval (S754_finite sx mx ex) + fval (S754_finite sy my ey))%Q.
Proof.
  intros Vx Vy Heq Hw Hw53 Hg Hbig. cbn [SFadd].
  pose proof (valid_facts _ _ _ Vx) as [Ax _]. pose proof (valid_facts _ _ _ Vy) as [Ay _].
  set (ez := Z.min ex ey).
  assert (HK : (inject_Z (cond_Zopp sx (Zpos (fst (shl_align mx ex ez))) +
                          cond_Zopp sy (Zpos (fst (shl_align my ey ez)))) * pow2 ez ==
                fval (S754_finite sx mx ex) + fval (S754_finite sy my ey))%Q).
  { rewrite inject_Z_plus, Qmult_plus_distr_l, !aligned_value by (unfold ez; lia). reflexivity. }
  rewrite <- HK in Heq, Hbig.
  destruct (normalize_exact _ ez false w g (nonzero_K _ _ _ _ Heq Hw) ltac:(unfold ez; lia) Hg Heq Hw53 Hbig)
    as (s & m & e & R1 & R2 & R3).
  exists s, m, e. split; [exact R1|]. split; [exact R2|]. rewrite R3. exact HK.
Qed.

Lemma sub_exact sx mx ex sy my ey w g :
  valid_binary prec emax (S754_finite sx mx ex) = true ->
  valid_binary prec emax (S754_finite sy my ey) = true ->
  (fval (S754_finite sx mx ex) - fval (S754_finite sy my ey) == inject_Z w * pow2 g)%Q ->
  w <> 0 -> Z.abs w < 2 ^ 53 -> -1074 <= g ->
  (- pow2 999 < fval (S754_finite sx mx ex) - fval (S754_finite sy my ey) < pow2 999)%Q ->
  exists s m e, SFsub prec emax (S754_finite sx mx ex) (S754_finite sy my ey) = S754_finite s m e /\
    valid_binary prec emax (S754_finite s m e) = true /\
    (fval (S754_finite s m e) == fval (S754_finite sx mx ex) - fval (S754_finite sy my ey))%Q.
Proof.
  intros Vx Vy Heq Hw Hw53 Hg Hbig. cbn [SFsub].
  pose proof (valid_facts _ _ _ Vx) as [Ax _]. pose proof (valid_facts _ _ _ Vy) as [Ay _].
  set (ez := Z.min ex ey).
  assert (HK : (inject_Z (cond_Zopp sx (Zpos (fst (shl_align mx ex ez))) -
                          cond_Zopp sy (Zpos (fst (shl_align my ey ez)))) * pow2 ez ==
                fval (S754_finite sx mx ex) - fval (S754_finite sy my ey))%Q).
  { unfold Z.sub. rewrite inject_Z_plus, inject_Z_opp. 
    rewrite <- (aligned_value sx mx ex ez), <- (aligned_value sy my ey ez) by (unfold ez; lia). ring. }
  rewrite <- HK in Heq, Hbig.
  destruct (normalize_exact _ ez false w g (nonzero_K _ _ _ _ Heq Hw) ltac:(unfold ez; lia) Hg Heq Hw53 Hbig)
    as (s & m & e & R1 & R2 & R3).
  exists s, m, e. split; [exact R1|]. split; [exact R2|]. rewrite R3. exact HK.
Qed.

Lemma digits_of_value p ez q :
  (pow2 (q - 1) <= inject_Z (Zpos p) * pow2 ez < pow2 q)%Q -> Zdigits2 (Zpos p) + ez = q.
Proof.
  intros [H1 H2].
  pose proof (Zdigits2_bounds (Zpos p) ltac:(lia)) as [B1 B2].
  set (D := Zdigits2 (Zpos p)) in *.
  assert (L1 : (pow2 (D - 1 + ez) <= inject_Z (Zpos p) * pow2 ez)%Q).
  { pose proof (Zdigits2_pos (Zpos p) ltac:(lia)).
    rewrite pow2_add, (pow2_Z (D - 1)) by lia.
    apply Qmult_le_compat_r; [rewrite <- Zle_Qle; exact B1 | apply Qlt_le_weak, pow2_pos]. }
  assert (L2 : (inject_Z (Zpos p) * pow2 ez < pow2 (D + ez))%Q).
  { pose proof (Zdigits2_pos (Zpos p) ltac:(lia)).
    rewrite pow2_add, (pow2_Z D) by lia.
    apply Qmult_lt_r; [apply pow2_pos | rewrite <- Zlt_Qlt; exact B2]. }
  assert (q - 1 < D + ez) by (apply pow2_lt_inv; lra).
  assert (D - 1 + ez < q) by (apply pow2_lt_inv; lra).
  lia.
Qed.

Lemma round_value p ez q b : -1074 <= ez ->
  (pow2 (q - 1) <= inject_Z (Zpos p) * pow2 ez < pow2 q)%Q -> q <= 1000 ->
  exists m e z, binary_normalize prec emax (Zpos p) ez b = S754_finite false m e /\
    valid_binary prec emax (S754_finite false m e) = true /\
    (fval (S754_finite false m e) == inject_Z z * pow2 (Z.max (q - 53) (-1074)))%Q /\
    (inject_Z (Zpos p) * pow2 ez * pow2 (- Z.max (q - 53) (-1074)) - (1#2) <= inject_Z z <=
     inject_Z (Zpos p) * pow2 ez * pow2 (- Z.max (q - 53) (-1074)) + (1#2))%Q.
Proof.
  intros Hez Hq Hq1000. pose proof (digits_of_value p ez q Hq) as HD.
  destruct (round_spec false p ez Hez ltac:(lia)) as (m & e & z & R1 & R2 & R3 & R4 & R5).
  rewrite HD, FE_eq in R4, R5.
  exists m, e, z. split; [exact R1|]. split; [exact R2|]. split; [exact R4|].
  rewrite <- Qmult_assoc, <- pow2_add. exact R5.
Qed.

Lemma pos_K K ez : (0 < inject_Z K * pow2 ez)%Q -> exists p, K = Zpos p.
Proof.
  intro H. destruct K as [|p|p]; [change (inject_Z 0) with 0%Q in H; rewrite Qmult_0_l in H; lra | eauto |].
  exfalso. pose proof (pos_mul_pow2 p ez). change (Zneg p) with (- Zpos p) in H.
  rewrite inject_Z_opp in H. lra.
Qed.

Lemma add_round sx mx ex sy my ey q :
  valid_binary prec emax (S754_finite sx mx ex) = true ->
  valid_binary prec emax (S754_finite sy my ey) = true ->
  (pow2 (q - 1) <= fval (S754_finite sx mx ex) + fval (S754_finite sy my ey) < pow2 q)%Q ->
  q <= 1000 ->
  exists m e z, SFadd prec emax (S754_finite sx mx ex) (S754_finite sy my ey) = S754_finite false m e /\
    valid_binary prec emax (S754_finite false m e) = true /\
    (fval (S754_finite false m e) == inject_Z z * pow2 (Z.max (q - 53) (-1074)))%Q /\
    ((fval (S754_finite sx mx ex) + fval (S754_finite sy my ey)) * pow2 (- Z.max (q - 53) (-1074)) - (1#2)
       <= inject_Z z <=
     (fval (S754_finite sx mx ex) + fval (S754_finite sy my ey)) * pow2 (- Z.max (q - 53) (-1074)) + (1#2))%Q.
Proof.
  intros Vx Vy Hq Hq1000. cbn [SFadd].
  pose proof (valid_facts _ _ _ Vx) as [Ax _]. pose proof (valid_facts _ _ _ Vy) as [Ay _].
  set (ez := Z.min ex ey).
  assert (HK : (inject_Z (cond_Zopp sx (Zpos (fst (shl_align mx ex ez))) +
                          cond_Zopp sy (Zpos (fst (shl_align my ey ez)))) * pow2 ez ==
                fval (S754_finite sx mx ex) + fval (S754_finite sy my ey))%Q).
  { rewrite inject_Z_plus, Qmult_plus_distr_l, !aligned_value by (unfold ez; lia). reflexivity. }
  pose proof (pow2_pos (q - 1)).
  destruct (pos_K _ ez ltac:(rewrite HK; lra)) as [p Hp]. rewrite Hp in HK |- *.
  rewrite <- HK in Hq.
  destruct (round_value p ez q false ltac:(unfold ez; lia) Hq Hq1000) as (m & e & z & R1 & R2 & R3 & R4).
  exists m, e, z. split; [exact R1|]. split; [exact R2|]. split; [exact R3|]. rewrite <- HK. exact R4.
Qed.

Lemma sub_round sx mx ex sy my ey q :
  valid_binary prec emax (S754_finite sx mx ex) = true ->
  valid_binary prec emax (S754_finite sy my ey) = true ->
  (pow2 (q - 1) <= fval (S754_finite sx mx ex) - fval (S754_finite sy my ey) < pow2 q)%Q ->
  q <= 1000 ->
  exists m e z, SFsub prec emax (S754_finite sx mx ex) (S754_finite sy my ey) = S754_finite false m e /\
    valid_binary prec emax (S754_finite false m e) = true /\
    (fval (S754_finite false m e) == inject_Z z * pow2 (Z.max (q - 53) (-1074)))%Q /\
    ((fval (S754_finite sx mx ex) - fval (S754_finite sy my ey)) * pow2 (- Z.max (q - 53) (-1074)) - (1#2)
       <= inject_Z z <=
     (fval (S754_finite sx mx ex) - fval (S754_finite sy my ey)) * pow2 (- Z.max (q - 53) (-1074)) + (1#2))%Q.
Proof.
  intros Vx Vy Hq Hq1000. cbn [SFsub].
  pose proof (valid_facts _ _ _ Vx) as [Ax _]. pose proof (valid_facts _ _ _ Vy) as [Ay _].
  set (ez := Z.min ex ey).
  assert (HK : (inject_Z (cond_Zopp sx (Zpos (fst (shl_align mx ex ez))) -
                          cond_Zopp sy (Zpos (fst (shl_align my ey ez)))) * pow2 ez ==
                fval (S754_finite sx mx ex) - fval (S754_finite sy my ey))%Q).
  { unfold Z.sub. rewrite inject_Z_plus, inject_Z_opp.
    rewrite <- (aligned_value sx mx ex ez), <- (aligned_value sy my ey ez) by (unfold ez; lia). ring. }
  pose proof (pow2_pos (q - 1)).
  destruct (pos_K _ ez ltac:(rewrite HK; lra)) as [p Hp]. rewrite Hp in HK |- *.
  rewrite <- HK in Hq.
  destruct (round_value p ez q false ltac:(unfold ez; lia) Hq Hq1000) as (m & e & z & R1 & R2 & R3 & R4).
  exists m, e, z. split; [exact R1|]. split; [exact R2|]. split; [exact R3|]. rewrite <- HK. exact R4.
Qed.

(** Signs: rounding a non-negative magnitude never yields NaN and keeps the sign. *)
Definition signed (s : bool) (f : spec_float) : Prop :=
  match f with
  | S754_zero b | S754_infinity b | S754_finite b _ _ => b = s
  | S754_nan => False
  end.

Lemma shr_1_nonneg rc : 0 <= shr_m rc -> 0 <= shr_m (shr_1 rc).
Proof. destruct rc as [m r s]. destruct m as [|[p|p|]|[p|p|]]; simpl; lia. Qed.

Lemma shr_nonneg rc e n : 0 <= shr_m rc -> 0 <= shr_m (fst (shr rc e n)).
Proof.
  intro H. destruct n as [|p|p]; simpl; try exact H.
  rewrite iter_pos_nat. induction (Pos.to_nat p) as [|k IH]; simpl; [exact H|].
  now apply shr_1_nonneg.
Qed.

Lemma rne_ge m l : m <= round_nearest_even m l.
Proof. destruct l as [|[]]; simpl; try destruct (Z.even m); lia. Qed.

Lemma round_aux_signed s m e l : 0 <= m -> signed s (binary_round_aux prec emax s m e l).
Proof.
  intro Hm. unfold binary_round_aux.
  destruct (shr_fexp prec emax m e l) as [r1 e1] eqn:E1.
  assert (H1 : 0 <= shr_m r1).
  { unfold shr_fexp in E1. pose proof (shr_nonneg (shr_record_of_loc m l) e
      (fexp prec emax (Zdigits2 m + e) - e)) as P.
    rewrite E1, shr_m_record_of_loc in P. exact (P Hm). }
  cbv beta iota.
  destruct (shr_fexp prec emax (round_nearest_even (shr_m r1) (loc_of_shr_record r1)) e1 loc_Exact)
    as [r2 e2] eqn:E2.
  assert (H2 : 0 <= shr_m r2).
  { unfold shr_fexp in E2.
    pose proof (rne_ge (shr_m r1) (loc_of_shr_record r1)).
    pose proof (shr_nonneg (shr_record_of_loc (round_nearest_even (shr_m r1) (loc_of_shr_record r1)) loc_Exact) e1
      (fexp prec emax (Zdigits2 (round_nearest_even (shr_m r1) (loc_of_shr_record r1)) + e1) - e1)) as P.
    rewrite E2, shr_m_record_of_loc in P. apply P. lia. }
  cbv beta iota.
  destruct (shr_m r2) as [|p|p]; [simpl; reflexivity | | lia].
  destruct (e2 <=? emax - prec); simpl; reflexivity.
Qed.

Lemma round_signed s p ez : signed s (binary_round prec emax s p ez).
Proof.
  unfold binary_round. destruct (shl_align p ez _) as [mz e']. apply round_aux_signed. lia.
Qed.

Lemma normalize_signed K ez b :
  (0 < K -> signed false (binary_normalize prec emax K ez b)) /\
  (K < 0 -> signed true (binary_normalize prec emax K ez b)).
Proof.
  destruct K as [|p|p]; simpl; split; intro H; try lia; apply round_signed.
Qed.

Local Open Scope Q_scope.

Lemma exists_q x : 0 < x -> exists q, pow2 (q - 1) <= x < pow2 q.
Proof.
  intro Hx. destruct x as [a b].
  destruct a as [|pa|pa]; [discriminate| |discriminate].
  assert (Hx' : (Zpos pa # b) * inject_Z (Zpos b) == inject_Z (Zpos pa)).
  { unfold Qeq; simpl. rewrite Pos.mul_1_r. lia. }
  pose proof (Zdigits2_bounds (Zpos pa) ltac:(lia)) as [A1 A2].
  pose proof (Zdigits2_bounds (Zpos b) ltac:(lia)) as [B1 B2].
  pose proof (Zdigits2_pos (Zpos pa) ltac:(lia)). pose proof (Zdigits2_pos (Zpos b) ltac:(lia)).
  set (Da := Zdigits2 (Zpos pa)) in *. set (Db := Zdigits2 (Zpos b)) in *.
  assert (Hb0 : 0 < inject_Z (Zpos b)) by (change 0 with (inject_Z 0); rewrite <- Zlt_Qlt; lia).
  assert (Lo : pow2 (Da - 1 - Db) < Zpos pa # b).
  { apply (Qmult_lt_r _ _ (inject_Z (Zpos b)) Hb0). rewrite Hx'.
    apply (Qlt_le_trans _ (pow2 (Da - 1 - Db) * pow2 Db)).
    - apply Qmult_lt_l; [apply pow2_pos|]. rewrite (pow2_Z Db) by lia. rewrite <- Zlt_Qlt. exact B2.
    - rewrite <- pow2_add. replace (Da - 1 - Db + Db)%Z with (Da - 1)%Z by lia.
      rewrite (pow2_Z (Da - 1)) by lia. rewrite <- Zle_Qle. exact A1. }
  assert (Hi : Zpos pa # b < pow2 (Da - Db + 1)).
  { apply (Qmult_lt_r _ _ (inject_Z (Zpos b)) Hb0). rewrite Hx'.
    apply (Qlt_le_trans _ (pow2 (Da - Db + 1) * pow2 (Db - 1))).
    - rewrite <- pow2_add. replace (Da - Db + 1 + (Db - 1))%Z with Da by lia.
      rewrite (pow2_Z Da) by lia. rewrite <- Zlt_Qlt. exact A2.
    - apply Qmult_le_l; [apply pow2_pos|]. rewrite (pow2_Z (Db - 1)) by lia. rewrite <- Zle_Qle. exact B1. }
  destruct (Qlt_le_dec (Zpos pa # b) (pow2 (Da - Db))) as [L|L].
  - exists (Da - Db)%Z. split; [|exact L].
    replace (Da - Db - 1)%Z with (Da - 1 - Db)%Z by lia. lra.
  - exists (Da - Db + 1)%Z. replace (Da - Db + 1 - 1)%Z with (Da - Db)%Z by lia. lra.
Qed.

End Binary64Facts.

(** ** The binary64 segment planner *)
Module Planner64Facts.
Import Binary64 Binary64Facts Planner Planner64.
Local Open Scope Z_scope.
Local Open Scope Q_scope.

Lemma fval_pos_sign s m e : 0 < fval (S754_finite s m e) -> s = false.
Proof.
  destruct s; [|reflexivity]. cbn [fval cond_Zopp]. rewrite inject_Z_opp.
  pose proof (pos_mul_pow2 m e). intro. lra.
Qed.

Lemma pow2_53_999 : inject_Z (2 ^ 53) < pow2 999.
Proof. rewrite <- pow2_Z by lia. apply pow2_lt. lia. Qed.

Lemma of_Z_ok n : (1 <= n < 2 ^ 53)%Z ->
  exists m e, of_Z n = S754_finite false m e /\
    valid_binary prec emax (S754_finite false m e) = true /\
    fval (S754_finite false m e) == inject_Z n.
Proof.
  intro Hn. pose proof pow2_53_999.
  assert (Hlt : inject_Z n < inject_Z (2 ^ 53)) by (rewrite <- Zlt_Qlt; lia).
  assert (H0 : 0 < inject_Z n) by (change 0 with (inject_Z 0); rewrite <- Zlt_Qlt; lia).
  destruct (normalize_exact n 0 false n 0 ltac:(lia) ltac:(lia) ltac:(lia) (Qeq_refl _) ltac:(lia))
    as (s & m & e & R1 & R2 & R3).
  { change (pow2 0) with 1. rewrite Qmult_1_r. lra. }
  change (pow2 0) with 1 in R3. rewrite Qmult_1_r in R3.
  assert (s = false) by (apply (fval_pos_sign s m e); lra). subst s.
  exists m, e. split; [exact R1|]. split; [exact R2|exact R3].
Qed.

Lemma exp_nonpos m e : valid_binary prec emax (S754_finite false m e) = true ->
  fval (S754_finite false m e) < inject_Z (2 ^ 53) -> (e <= 0)%Z.
Proof.
  intros V H. pose proof (valid_facts _ _ _ V) as (A & B & C).
  destruct (Z.eq_dec e (-1074)) as [E|E]; [lia|].
  assert (Hm : (2 ^ 52 <= Zpos m)%Z) by (apply C; lia).
  assert (pow2 (52 + e) <= fval (S754_finite false m e)).
  { cbn [fval cond_Zopp]. rewrite pow2_add, (pow2_Z 52) by lia.
    apply Qmult_le_compat_r; [rewrite <- Zle_Qle; exact Hm | apply Qlt_le_weak, pow2_pos]. }
  rewrite <- pow2_Z in H by lia.
  assert (52 + e < 53)%Z by (apply pow2_lt_inv; lra). lia.
Qed.

Lemma Qmult_pow2_lt_inv a b e : inject_Z a * pow2 e < inject_Z b * pow2 e -> (a < b)%Z.
Proof.
  intro H. rewrite Zlt_Qlt. apply Qmult_lt_r in H; [exact H | apply pow2_pos].
Qed.

Lemma Qmult_pow2_le_inv a b e : inject_Z a * pow2 e <= inject_Z b * pow2 e -> (a <= b)%Z.
Proof.
  intro H. rewrite Zle_Qle. apply Qmult_le_r in H; [exact H | apply pow2_pos].
Qed.

Lemma int_as_pow2 n e : (e <= 0)%Z -> inject_Z n == inject_Z (n * 2 ^ (- e)) * pow2 e.
Proof.
  intro He. rewrite inject_Z_mult, <- pow2_Z by lia. rewrite <- Qmult_assoc, pow2_opp. ring.
Qed.

Lemma Qlt_Z a b : inject_Z a < inject_Z b -> (a < b)%Z.
Proof. intro H. rewrite Zlt_Qlt. exact H. Qed.

Lemma Qle_Z a b : inject_Z a <= inject_Z b -> (a <= b)%Z.
Proof. intro H. rewrite Zle_Qle. exact H. Qed.

Lemma pos_shape x : valid_binary prec emax x = true -> is_finite x = true ->
  0 < fval x -> fval x < inject_Z (2 ^ 53) ->
  exists m e, x = S754_finite false m e /\ (e <= 0)%Z.
Proof.
  intros V F P L. destruct x as [b|b| |b m e]; try discriminate; try (cbn in P; lra).
  assert (b = false) by (apply (fval_pos_sign b m e); exact P). subst b.
  exists m, e. split; [reflexivity|]. apply (exp_nonpos m e); assumption.
Qed.

Lemma tiles_compat c1 c2 tot l : c1 == c2 -> tiles c1 tot l -> tiles c2 tot l.
Proof.
  revert c1 c2. induction l as [|x l IH]; intros c1 c2 E H; simpl in *.
  - lra.
  - destruct H as (H1 & H2 & H3). split; [lra|]. split; [exact H2|].
    apply (IH (c1 + Planner.duration x)); [lra | exact H3].
Qed.

Lemma tiles_cons c tot x l :
  tiles c tot (x :: l) <-> Planner.start x == c /\ 0 < Planner.duration x /\ tiles (c + Planner.duration x) tot l.
Proof. reflexivity. Qed.

Section Step.
Variables (T : spec_float) (s : Z).
Hypotheses (HTv : valid_binary prec emax T = true) (HTf : is_finite T = true)
  (HT0 : 0 < fval T) (HT53 : fval T < inject_Z (2 ^ 53)) (Hs : (1 <= s < 2 ^ 53)%Z).

Definition cur_ok (c : spec_float) : Prop :=
  valid_binary prec emax c = true /\ is_finite c = true /\ 0 <= fval c /\
  ((exists n, fval c == inject_Z n) \/ fval c == fval T).

Lemma cur_ok_zero : cur_ok (S754_zero false).
Proof. split; [reflexivity|]. split; [reflexivity|]. split; [apply Qle_refl|]. left. exists 0%Z. reflexivity. Qed.

Lemma T_shape : exists mT eT, T = S754_finite false mT eT /\ (eT <= 0)%Z.
Proof. exact (pos_shape T HTv HTf HT0 HT53). Qed.

Lemma stop_at_end c : valid_binary prec emax c = true -> is_finite c = true ->
  fval T <= fval c -> SFltb c T = false.
Proof. intros V F H. apply ltb_fval_false; assumption. Qed.

Lemma step_ok c : cur_ok c -> SFltb c T = true ->
  let d := math_min (of_Z s) (sub T c) in
  fval d == JsNum.math_min (inject_Z s) (fval T - fval c) /\ 0 < fval d /\
  cur_ok (add c d) /\ fval (add c d) == fval c + fval d.
Proof.
  intros (Vc & Fc & Hc0 & Hint) Hlt.
  pose proof (proj1 (ltb_fval c T Vc HTv Fc HTf) Hlt) as Hlt'.
  destruct Hint as [[n Hn]|Hend]; [|lra].
  destruct T_shape as (mT & eT & ET & HeT).
  pose proof HTv as VT. rewrite ET in VT. pose proof (valid_facts _ _ _ VT) as (AT & BT & _).
  destruct (of_Z_ok s Hs) as (ms & es & ES & VS & HS). rewrite ES.
  assert (Hn0 : (0 <= n)%Z) by (apply Qle_Z; change (inject_Z 0) with 0; lra).
  assert (Hpow : pow2 999 > inject_Z (2 ^ 53)) by apply pow2_53_999.
  (* the difference [video.duration - currentTime] is exact *)
  assert (Hdiff : exists sd md ed, sub T c = S754_finite sd md ed /\
            valid_binary prec emax (S754_finite sd md ed) = true /\
            fval (S754_finite sd md ed) == fval T - inject_Z n).
  { destruct c as [b|b| |sc mc ec]; try discriminate.
    - exists false, mT, eT. rewrite ET. split; [reflexivity|]. split; [exact VT|].
      cbn [fval] in Hn. rewrite <- Hn. rewrite <- ET. ring.
    - rewrite ET. rewrite ET in Hlt'.
      set (w := (Zpos mT - n * 2 ^ (- eT))%Z).
      assert (Hw : fval (S754_finite false mT eT) - fval (S754_finite sc mc ec) ==
                   inject_Z w * pow2 eT).
      { rewrite Hn. unfold w. cbn [fval cond_Zopp].
        rewrite (int_as_pow2 n eT HeT). unfold Z.sub. rewrite inject_Z_plus, inject_Z_opp. ring. }
      assert (Hw0 : (0 < w)%Z).
      { apply (Qmult_pow2_lt_inv 0 w eT). rewrite <- Hw. change (inject_Z 0) with 0. lra. }
      assert (Hw1 : (w <= Zpos mT)%Z).
      { apply (Qmult_pow2_le_inv w (Zpos mT) eT). rewrite <- Hw, Hn. cbn [fval cond_Zopp]. lra. }
      destruct (sub_exact false mT eT sc mc ec w eT VT Vc Hw ltac:(lia) ltac:(lia) ltac:(lia))
        as (sd & md & ed & R1 & R2 & R3).
      { rewrite <- ET in Hlt' |- *. lra. }
      exists sd, md, ed. split; [exact R1|]. split; [exact R2|]. rewrite R3, Hn. reflexivity. }
  destruct Hdiff as (sd & md & ed & ED & VD & HD). rewrite ED.
  unfold math_min. cbv beta iota.
  assert (HsT : inject_Z n + inject_Z s <= fval T \/ fval T < inject_Z n + inject_Z s) by
    (destruct (Qlt_le_dec (fval T) (inject_Z n + inject_Z s)); [right|left]; assumption).
  destruct (SFltb (S754_finite sd md ed) (S754_finite false ms es)) eqn:Hmin.
  - apply (ltb_fval _ _ VD VS eq_refl eq_refl) in Hmin. rewrite HD, HS in Hmin.
    assert (Hq : JsNum.math_min (inject_Z s) (fval T - fval c) == fval T - inject_Z n).
    { unfold JsNum.math_min. destruct (Qle_bool (inject_Z s) (fval T - fval c)) eqn:E.
      - apply Qle_bool_iff in E. lra.
      - rewrite Hn. reflexivity. }
    rewrite Hq, HD. split; [reflexivity|]. split; [lra|].
    (* the last segment ends exactly at [video.duration] *)
    destruct c as [b|b| |sc mc ec]; try discriminate.
    + change (add (S754_zero b) (S754_finite sd md ed)) with (S754_finite sd md ed).
      change (fval (S754_zero b)) with 0 in Hn |- *.
      split; [split; [exact VD|split; [reflexivity|split; [lra|right; lra]]]|]. lra.
    + assert (Hw : fval (S754_finite sc mc ec) + fval (S754_finite sd md ed) ==
                   inject_Z (Zpos mT) * pow2 eT).
      { rewrite HD, Hn, ET. cbn [fval cond_Zopp]. ring. }
      destruct (add_exact sc mc ec sd md ed (Zpos mT) eT Vc VD Hw ltac:(lia) ltac:(lia) ltac:(lia))
        as (s2 & m2 & e2 & R1 & R2 & R3).
      { rewrite HD, Hn. lra. }
      unfold add. rewrite R1.
      split; [split; [exact R2|split; [reflexivity|split; [|right]]]|]; rewrite R3, HD, Hn; try lra.
  - apply (ltb_fval_false _ _ VD VS eq_refl eq_refl) in Hmin. rewrite HD, HS in Hmin.
    assert (Hq : JsNum.math_min (inject_Z s) (fval T - fval c) == inject_Z s).
    { unfold JsNum.math_min. destruct (Qle_bool (inject_Z s) (fval T - fval c)) eqn:E.
      - reflexivity.
      - apply Bool.not_true_iff_false in E. exfalso. apply E. apply Qle_bool_iff. lra. }
    rewrite Hq, HS. split; [reflexivity|].
    assert (Hs0 : 0 < inject_Z s) by (change 0 with (inject_Z 0); rewrite <- Zlt_Qlt; lia).
    split; [exact Hs0|].
    destruct c as [b|b| |sc mc ec]; try discriminate.
    + change (add (S754_zero b) (S754_finite false ms es)) with (S754_finite false ms es).
      split; [split; [exact VS|split; [reflexivity|split; [lra|left; exists s; exact HS]]]|].
      cbn [fval]. rewrite HS. ring.
    + assert (Hns : (n + s < 2 ^ 53)%Z).
      { apply Qlt_Z. rewrite inject_Z_plus. lra. }
      assert (Hw : fval (S754_finite sc mc ec) + fval (S754_finite false ms es) ==
                   inject_Z (n + s) * pow2 0).
      { rewrite HS, Hn, inject_Z_plus. change (pow2 0) with 1. ring. }
      destruct (add_exact sc mc ec false ms es (n + s) 0 Vc VS Hw ltac:(lia) ltac:(lia) ltac:(lia))
        as (s2 & m2 & e2 & R1 & R2 & R3).
      { rewrite HS, Hn.
        assert (inject_Z (n + s) < inject_Z (2 ^ 53)) by (rewrite <- Zlt_Qlt; exact Hns).
        rewrite inject_Z_plus in H. split; lra. }
      unfold add. rewrite R1.
      split; [split; [exact R2|split; [reflexivity|split]]|].
      * rewrite R3, HS, Hn. lra.
      * left. exists (n + s)%Z. rewrite R3, HS, Hn, inject_Z_plus. reflexivity.
      * rewrite R3, HS. reflexivity.
Qed.

Lemma loop_inv : forall fuel cur acc res, cur_ok cur ->
  auto_loop fuel T (of_Z s) cur acc = Some res ->
  exists rest, res = acc ++ rest /\ titled_from (List.length acc) (map seg_val rest) /\
    (fval T <= fval cur -> rest = []) /\
    (fval cur < fval T ->
       tiles (fval cur) (fval T) (map seg_val rest) /\ starts_increasing (map seg_val rest) /\
       sized (inject_Z s) (map seg_val rest) /\
       (qnat (List.length rest) - 1) * inject_Z s < fval T - fval cur <=
         qnat (List.length rest) * inject_Z s /\
       (forall x, In x (map seg_val rest) -> fval cur <= Planner.start x)).
Proof.
  assert (Hs0 : 0 < inject_Z s) by (change 0 with (inject_Z 0); rewrite <- Zlt_Qlt; lia).
  induction fuel as [|fuel IH]; intros cur acc res Hok Hrun; [discriminate|].
  simpl in Hrun. destruct (SFltb cur T) eqn:Hlt.
  - pose proof (step_ok cur Hok Hlt) as (Hd & Hd0 & Hok' & Hadd).
    set (d := math_min (of_Z s) (sub T cur)) in *.
    set (seg := mkSeg cur d (clip_title (List.length acc + 1))) in Hrun.
    destruct Hok as (Vc & Fc & Hc0 & _).
    pose proof (proj1 (ltb_fval cur T Vc HTv Fc HTf) Hlt) as Hlt'.
    destruct (IH _ _ _ Hok' Hrun) as (rest' & Hres & Htit & Hend & Hmid).
    exists (seg :: rest'). split; [subst res; now rewrite <- app_assoc|].
    split.
    { intros [|i] x Hx; simpl in Hx.
      - injection Hx as <-. simpl. f_equal. lia.
      - apply Htit in Hx. rewrite Hx, length_app. simpl. f_equal. lia. }
    split; [intro; lra|].
    intros _. cbn [map].
    assert (Hsv : seg_val seg = Planner.mkSeg (fval cur) (fval d) (clip_title (List.length acc + 1)))
      by reflexivity.
    rewrite Hsv.
    unfold JsNum.math_min in Hd. destruct (Qle_bool (inject_Z s) (fval T - fval cur)) eqn:Hmin.
    + apply Qle_bool_iff in Hmin.
      destruct (Qlt_le_dec (fval (add cur d)) (fval T)) as [Hc|Hc].
      * destruct (Hmid Hc) as (Htl & Hinc & Hsz & [Hlo Hhi] & Hge).
        destruct rest' as [|s2 r2]; [simpl in Htl; lra|].
        change (List.length (s2 :: r2)) with (S (List.length r2)) in Hlo, Hhi.
        change (List.length (seg :: s2 :: r2)) with (S (S (List.length r2))).
        assert (E : qnat (S (S (List.length r2))) * inject_Z s ==
                    qnat (S (List.length r2)) * inject_Z s + inject_Z s)
          by (rewrite PlannerFacts.qnat_S; ring).
        pose proof (Hge (seg_val s2) (or_introl eq_refl)) as H2.
        cbn [map] in Htl, Hinc, Hsz, Hge |- *.
        split; [apply tiles_cons; split; [simpl; lra | split; [simpl; lra |
          apply (tiles_compat (fval (add cur d))); [simpl; lra | exact Htl]]]|].
        split; [split; [simpl in H2 |- *; lra | exact Hinc]|].
        split; [split; [simpl; lra | exact Hsz]|].
        split. { nra. }
        intros x [<-|Hx]; simpl; [lra|]. specialize (Hge x Hx). lra.
      * rewrite (Hend Hc). simpl. rewrite PlannerFacts.qnat_1.
        repeat split; simpl; try lra.
        intros x [<-|[]]; simpl; lra.
    + assert (Hm : fval T - fval cur < inject_Z s).
      { apply Qnot_le_lt. intro H. apply Qle_bool_iff in H. congruence. }
      rewrite (Hend ltac:(lra)). simpl. rewrite PlannerFacts.qnat_1.
      repeat split; simpl; try lra.
      intros x [<-|[]]; simpl; lra.
  - destruct Hok as (Vc & Fc & Hc0 & _).
    apply (ltb_fval_false cur T Vc HTv Fc HTf) in Hlt. injection Hrun as <-. exists [].
    rewrite app_nil_r. repeat split; try lra.
    intros i x Hx. destruct i; discriminate.
Qed.

Lemma loop_total : forall n cur acc, cur_ok cur ->
  fval T - fval cur <= qnat n * inject_Z s ->
  exists res, auto_loop (S n) T (of_Z s) cur acc = Some res.
Proof.
  assert (Hs0 : 0 < inject_Z s) by (change 0 with (inject_Z 0); rewrite <- Zlt_Qlt; lia).
  induction n as [|n IH]; intros cur acc Hok Hb.
  - cbn [auto_loop]. destruct (SFltb cur T) eqn:Hlt; [|eauto].
    destruct Hok as (Vc & Fc & Hc0 & _).
    apply (ltb_fval cur T Vc HTv Fc HTf) in Hlt. change (qnat 0) with 0 in Hb. lra.
  - cbn [auto_loop]. destruct (SFltb cur T) eqn:Hlt; [|eauto].
    pose proof (step_ok cur Hok Hlt) as (Hd & Hd0 & Hok' & Hadd).
    apply IH; [exact Hok'|]. rewrite Hadd, Hd.
    unfold JsNum.math_min. destruct (Qle_bool (inject_Z s) (fval T - fval cur)) eqn:Hm.
    + assert (E : qnat (S n) * inject_Z s == qnat n * inject_Z s + inject_Z s)
        by (rewrite PlannerFacts.qnat_S; ring). lra.
    + pose proof (PlannerFacts.qnat_nonneg n).
      assert (0 <= qnat n * inject_Z s) by (apply Qmult_le_0_compat; lra). lra.
Qed.

End Step.

End Planner64Facts.

Module Planner64Partition.
Import Binary64 Binary64Facts Planner Planner64 Planner64Facts.
Local Open Scope Z_scope.
Local Open Scope Q_scope.

Lemma fin_of_pos x : 0 < fval x -> is_finite x = true.
Proof. destruct x; try reflexivity; cbn; intro H; lra. Qed.

(** Claim C1 (as amended): for a finite video length [T] with [0 < T < 2^53] and a
    whole-number slice [1 <= s < 2^53], the loop ends, and the segments it
    returns have strictly increasing starts, tile [[0, T)] (each starts where
    the previous one ended, has positive length, the last ends at [T]),
    number [ceil(T / s)], are titled "Clip 1", "Clip 2", ... and all have
    length [s] except the last, which may be shorter. If [0 < T] is false
    (including [T] NaN), the result is the empty list. 95 and 30 give the
    four segments 0+30, 30+30, 60+30, 90+5. *)
Theorem autoGenerateClips_partition64 (T : spec_float) (s : Z) :
  (valid_binary prec emax T = true -> 0 < fval T -> fval T < inject_Z (2 ^ 53) ->
   (1 <= s < 2 ^ 53)%Z ->
     (exists fuel segs, autoGenerateClips fuel T (of_Z s) = Some segs) /\
     (forall fuel segs, autoGenerateClips fuel T (of_Z s) = Some segs ->
        starts_increasing (map seg_val segs) /\ tiles 0 (fval T) (map seg_val segs) /\
        Z.of_nat (List.length segs) = Qceiling (fval T / inject_Z s) /\
        titled_from 0 (map seg_val segs) /\ sized (inject_Z s) (map seg_val segs))) /\
  (SFltb (S754_zero false) T = false -> forall S,
     autoGenerateClips 1 T S = Some [] /\
     (forall fuel segs, autoGenerateClips fuel T S = Some segs -> segs = [])) /\
  autoGenerateClips 5 (of_Z 95) (of_Z 30) =
    Some [mkSeg (S754_zero false) (of_Z 30) "Clip 1"; mkSeg (of_Z 30) (of_Z 30) "Clip 2";
          mkSeg (of_Z 60) (of_Z 30) "Clip 3"; mkSeg (of_Z 90) (of_Z 5) "Clip 4"].
Proof.
  split; [|split].
  - intros HTv HT0 HT53 Hs. pose proof (fin_of_pos T HT0) as HTf.
    assert (Hs0 : 0 < inject_Z s) by (change 0 with (inject_Z 0); rewrite <- Zlt_Qlt; lia).
    pose proof (cur_ok_zero T) as Hz.
    split.
    + destruct (loop_total T s HTv HTf HT0 HT53 Hs (Z.to_nat (Qceiling (fval T / inject_Z s)))
                  (S754_zero false) [] Hz) as [segs Hrun]; [|eexists; eexists; exact Hrun].
      pose proof (Qle_ceiling (fval T / inject_Z s)) as Hc.
      assert (Hpos : 0 < fval T / inject_Z s) by (apply Qlt_shift_div_l; lra).
      assert (Hzc : (0 <= Qceiling (fval T / inject_Z s))%Z).
      { rewrite Zle_Qle. change (inject_Z 0) with 0. lra. }
      unfold qnat. rewrite Z2Nat.id by exact Hzc.
      assert (Hm : fval T <= inject_Z (Qceiling (fval T / inject_Z s)) * inject_Z s).
      { apply (Qle_trans _ (fval T / inject_Z s * inject_Z s)).
        - field_simplify; [lra | intro H; rewrite H in Hs0; discriminate].
        - apply Qmult_le_compat_r; lra. }
      change (fval (S754_zero false)) with 0. lra.
    + intros fuel segs Hrun.
      destruct (loop_inv T s HTv HTf HT0 HT53 Hs _ _ _ _ Hz Hrun)
        as (rest & Hres & Htit & _ & Hmid).
      simpl in Hres. subst rest.
      change (fval (S754_zero false)) with 0 in Hmid.
      destruct (Hmid HT0) as (Htl & Hinc & Hsz & [Hlo Hhi] & _).
      repeat split; auto.
      symmetry. apply PlannerFacts.ceiling_of_count; [exact Hs0 | lra].
  - intros Hlt S. split.
    + unfold autoGenerateClips. cbn [auto_loop]. now rewrite Hlt.
    + intros [|fuel] segs Hrun; [discriminate|].
      unfold autoGenerateClips in Hrun. cbn [auto_loop] in Hrun. rewrite Hlt in Hrun. congruence.
  - vm_compute. reflexivity.
Qed.

(** The slice [0.1]: the double nearest to 1/10, as [1 / 10] evaluates. *)
Definition tenth : spec_float := div (of_Z 1) (of_Z 10).

(** Claim C1 as stated fails: with a 1-second video and the slice 0.1 the rounded
    cursor reaches 0.9999999999999999 after ten steps, so the loop emits an
    eleventh segment although [ceil(1 / 0.1) = 10]. *)
Lemma autoGenerateClips_tenth_overshoots :
  exists segs, autoGenerateClips 20 (of_Z 1) tenth = Some segs /\ List.length segs = 11%nat /\
    Qceiling (fval (of_Z 1) / fval tenth) = 10%Z.
Proof. vm_compute. eexists. split; [reflexivity|]. split; reflexivity. Qed.

Lemma autoGenerateClips_partition64_witness :
  exists fuel segs, autoGenerateClips fuel (of_Z 95) (of_Z 30) = Some segs.
Proof.
  apply (proj1 (proj1 (autoGenerateClips_partition64 (of_Z 95) 30)
    ltac:(vm_compute; reflexivity) ltac:(vm_compute; reflexivity)
    ltac:(vm_compute; reflexivity) ltac:(lia))).
Defined.

End Planner64Partition.

Module Planner64Termination.
Import Binary64 Binary64Facts Planner64.
Local Open Scope Z_scope.
Local Open Scope Q_scope.

Definition nonpos (f : spec_float) : Prop :=
  match f with
  | S754_zero _ | S754_finite true _ _ | S754_infinity true => True
  | _ => False
  end.

Definition positive_float (f : spec_float) : Prop :=
  match f with
  | S754_finite false _ _ | S754_infinity false => True
  | _ => False
  end.

Lemma ltb_zero_positive T : SFltb (S754_zero false) T = true -> positive_float T.
Proof. destruct T as [[]|[]| |[] m e]; simpl; try discriminate; auto. Qed.

Lemma leb_zero_nonpos S : SFleb S (S754_zero false) = true -> nonpos S.
Proof. destruct S as [[]|[]| |[] m e]; simpl; try discriminate; auto. Qed.

Lemma sub_signed T c : positive_float T -> nonpos c -> signed false (sub T c).
Proof.
  destruct T as [[]|[]| |[] mT eT]; try contradiction; intros _;
    destruct c as [[]|[]| |[] m e]; try contradiction; intros _; try reflexivity.
  unfold sub. cbn [SFsub]. apply normalize_signed. cbn [cond_Zopp]. lia.
Qed.

Lemma min_nonpos S d : nonpos S -> signed false d -> math_min S d = S.
Proof.
  destruct S as [[]|[]| |[] m e]; try contradiction; intros _;
    destruct d as [[]|[]| |[] md ed]; try contradiction; intros Hd; try discriminate Hd; reflexivity.
Qed.

Lemma add_nonpos c S : nonpos c -> nonpos S -> nonpos (add c S).
Proof.
  destruct c as [[]|[]| |[] m e]; try contradiction; intros _;
    destruct S as [[]|[]| |[] mS eS]; try contradiction; intros _; simpl; auto.
  all: match goal with |- nonpos (binary_round _ _ true ?p ?ez) =>
         pose proof (round_signed true p ez) as H;
         destruct (binary_round _ _ _ _ _) as [b|b| |b mm ee]; simpl in H |- *; subst; auto end.
Qed.

Lemma ltb_nonpos_positive c T : nonpos c -> positive_float T -> SFltb c T = true.
Proof.
  destruct c as [[]|[]| |[] m e]; try contradiction; intros _;
    destruct T as [[]|[]| |[] mT eT]; try contradiction; intros _; reflexivity.
Qed.

Lemma loop_nonpos T S : positive_float T -> nonpos S ->
  forall fuel c acc, nonpos c -> auto_loop fuel T S c acc = None.
Proof.
  intros HT HS fuel. induction fuel as [|fuel IH]; intros c acc Hc; [reflexivity|].
  cbn [auto_loop]. rewrite (ltb_nonpos_positive c T Hc HT).
  rewrite (min_nonpos S _ HS (sub_signed T c HT Hc)).
  apply IH. now apply add_nonpos.
Qed.

(** The slice [1e-17]: the JavaScript literal, the double nearest to 10^-17. *)
Definition tiny : spec_float := div (of_Z 1) (of_Z (10 ^ 17)).

Lemma tiny_eq : tiny = S754_finite false 6490371073168535 (-109).
Proof. vm_compute. reflexivity. Qed.

Lemma one_eq : of_Z 1 = S754_finite false 4503599627370496 (-52).
Proof. vm_compute. reflexivity. Qed.

Definition stall_inv (c : spec_float) : Prop :=
  (c = S754_zero false \/ exists m e, c = S754_finite false m e) /\
  valid_binary prec emax c = true /\ 0 <= fval c <= 1 # 8.

Lemma Zint_below z N : inject_Z z < inject_Z N + 1 -> (z <= N)%Z.
Proof.
  intro H. assert (inject_Z z < inject_Z (N + 1)) by (rewrite inject_Z_plus; change (inject_Z 1) with 1; lra).
  rewrite <- Zlt_Qlt in H0. lia.
Qed.

Lemma Zint_above z : - (1 # 2) < inject_Z z -> (0 <= z)%Z.
Proof.
  intro H. assert (inject_Z (-1) < inject_Z z) by (change (inject_Z (-1)) with (-1); lra). rewrite <- Zlt_Qlt in H0. lia.
Qed.

Lemma stall_step c : stall_inv c ->
  SFltb c (of_Z 1) = true /\ math_min tiny (sub (of_Z 1) c) = tiny /\
  stall_inv (add c tiny).
Proof.
  intros ([-> | (m & e & ->)] & Vc & Lo & Hi).
  - rewrite one_eq, tiny_eq. split; [reflexivity|]. split; [reflexivity|].
    unfold stall_inv, add. cbn [SFadd].
    split; [right; eauto|]. split; [reflexivity|]. cbn [fval cond_Zopp].
    split; apply Qle_bool_imp_le; reflexivity.
  - pose proof (pos_mul_pow2 m e) as Hc0. cbn [fval cond_Zopp] in Lo, Hi |- *.
    assert (V1 : valid_binary prec emax (of_Z 1) = true) by (vm_compute; reflexivity).
    assert (Vt : valid_binary prec emax tiny = true) by (vm_compute; reflexivity).
    assert (F1 : fval (of_Z 1) == 1) by (vm_compute; reflexivity).
    assert (Ft : fval tiny == 6490371073168535 # 649037107316853453566312041152512)
      by (vm_compute; reflexivity).
    split.
    { apply (proj2 (ltb_fval _ _ Vc V1 eq_refl ltac:(vm_compute; reflexivity))).
      rewrite F1. cbn [fval cond_Zopp]. lra. }
    split.
    { rewrite one_eq in V1, F1 |- *.
      destruct (sub_round false 4503599627370496 (-52) false m e 0 V1 Vc) as (m' & e' & z & R1 & R2 & R3 & R4).
      { rewrite F1. cbn [fval cond_Zopp]. change (pow2 (0 - 1)) with (1 # 2). change (pow2 0) with 1. lra. }
      { lia. }
      unfold sub. rewrite R1. rewrite F1 in R4. cbn [fval cond_Zopp] in R3, R4.
      change (pow2 (- Z.max (0 - 53) (-1074))) with (9007199254740992 # 1) in R4.
      change (pow2 (Z.max (0 - 53) (-1074))) with (1 # 9007199254740992) in R3.
      assert (Hr : fval tiny <= fval (S754_finite false m' e')).
      { rewrite Ft. cbn [fval cond_Zopp]. rewrite R3. destruct R4 as [R4 _].
        assert (Hz : (7 # 8) * 9007199254740992 - (1 # 2) <= inject_Z z).
        { eapply Qle_trans; [|exact R4].
          setoid_replace ((1 - inject_Z (Zpos m) * pow2 e) * 9007199254740992)
            with (9007199254740992 - inject_Z (Zpos m) * pow2 e * 9007199254740992) by ring.
          lra. }
        lra. }
      rewrite tiny_eq in Hr |- *. unfold math_min.
      rewrite (proj2 (ltb_fval_false (S754_finite false m' e') (S754_finite false 6490371073168535 (-109))
        R2 ltac:(vm_compute; reflexivity) eq_refl eq_refl) Hr).
      reflexivity. }
    rewrite tiny_eq in Vt, Ft |- *.
    set (v := fval (S754_finite false m e) + fval (S754_finite false 6490371073168535 (-109))).
    assert (Hv : v == inject_Z (Zpos m) * pow2 e + (6490371073168535 # 649037107316853453566312041152512)).
    { unfold v. rewrite Ft. reflexivity. }
    assert (Hfin : forall q, pow2 (q - 1) <= v < pow2 q -> (q <= -2)%Z -> (Z.max (q - 53) (-1074) <= -55)%Z ->
       (forall z, inject_Z z <= v * pow2 (- Z.max (q - 53) (-1074)) + (1 # 2) ->
          (z <= 2 ^ (- 3 - Z.max (q - 53) (-1074)))%Z) ->
       stall_inv (add (S754_finite false m e) (S754_finite false 6490371073168535 (-109)))).
    { intros q Hq Hq2 HE Hz.
      destruct (add_round false m e false 6490371073168535 (-109) q Vc Vt Hq ltac:(lia))
        as (m' & e' & z & R1 & R2 & R3 & R4).
      fold v in R4. unfold add. rewrite R1. split; [right; eauto|]. split; [exact R2|]. rewrite R3.
      set (E := Z.max (q - 53) (-1074)) in *.
      pose proof (Hz z (proj2 R4)) as Hzle.
      assert (Hz0 : (0 <= z)%Z).
      { apply Zint_above. destruct R4 as [R4 _].
        assert (0 < v * pow2 (- E)) by (apply Qmult_lt_0_compat; [pose proof (pow2_pos (q - 1)); lra | apply pow2_pos]).
        lra. }
      pose proof (pow2_pos E).
      split.
      - apply Qmult_le_0_compat; [change 0 with (inject_Z 0); rewrite <- Zle_Qle; exact Hz0 | lra].
      - apply (Qle_trans _ (inject_Z (2 ^ (-3 - E)) * pow2 E)).
        + apply Qmult_le_compat_r; [rewrite <- Zle_Qle; exact Hzle | lra].
        + rewrite <- pow2_Z by lia. rewrite <- pow2_add. replace (-3 - E + E)%Z with (-3)%Z by lia.
          apply Qle_refl. }
    destruct (Qlt_le_dec v (1 # 8)) as [Lv|Lv].
    + destruct (exists_q v ltac:(unfold v; cbn [fval cond_Zopp] in Ft |- *; rewrite Ft; lra)) as [q Hq].
      assert (Hq3 : (q <= -3)%Z).
      { assert (q - 1 < -3)%Z; [|lia]. apply pow2_lt_inv. change (pow2 (-3)) with (1 # 8). lra. }
      apply (Hfin q Hq ltac:(lia) ltac:(lia)).
      intros z Hz. set (E := Z.max (q - 53) (-1074)) in *.
      apply Zint_below. eapply Qle_lt_trans; [exact Hz|].
      apply (Qlt_trans _ (inject_Z (2 ^ (-3 - E)) + (1 # 2))); [|lra].
      apply Qplus_lt_l. rewrite <- (pow2_Z (-3 - E)) by lia.
      replace (-3 - E)%Z with (-3 + - E)%Z by lia. rewrite pow2_add.
      apply Qmult_lt_r; [apply pow2_pos|]. change (pow2 (-3)) with (1 # 8). exact Lv.
    + assert (Hq : pow2 (-2 - 1) <= v < pow2 (-2)).
      { change (pow2 (-2 - 1)) with (1 # 8). change (pow2 (-2)) with (1 # 4). split; [exact Lv|].
        rewrite Hv. lra. }
      apply (Hfin (-2)%Z Hq ltac:(lia) ltac:(lia)).
      intros z Hz. change (Z.max (-2 - 53) (-1074)) with (-55)%Z in Hz |- *.
      apply Zint_below. eapply Qle_lt_trans; [exact Hz|].
      change (pow2 (- -55)) with (36028797018963968 # 1).
      change (inject_Z (2 ^ (-3 - -55))) with (4503599627370496 # 1).
      rewrite Hv. cbn [fval cond_Zopp] in Hi. lra.
Qed.

Lemma stall_loop : forall fuel c acc, stall_inv c -> auto_loop fuel (of_Z 1) tiny c acc = None.
Proof.
  induction fuel as [|fuel IH]; intros c acc Hc; [reflexivity|].
  destruct (stall_step c Hc) as (A & B & C).
  cbn [auto_loop]. rewrite A. cbv zeta. rewrite B. now apply IH.
Qed.

Lemma int_slice_terminates T s : valid_binary prec emax T = true -> 0 < fval T ->
  fval T < inject_Z (2 ^ 53) -> (1 <= s < 2 ^ 53)%Z ->
  exists fuel segs, autoGenerateClips fuel T (of_Z s) = Some segs.
Proof.
  intros HTv HT0 HT53 Hs. pose proof (Planner64Partition.fin_of_pos T HT0) as HTf.
  assert (Hs0 : 0 < inject_Z s) by (change 0 with (inject_Z 0); rewrite <- Zlt_Qlt; lia).
  pose proof (Planner64Facts.cur_ok_zero T) as Hz.
  destruct (Planner64Facts.loop_total T s HTv HTf HT0 HT53 Hs (Z.to_nat (Qceiling (fval T / inject_Z s)))
              (S754_zero false) [] Hz) as [segs Hrun]; [|eexists; eexists; exact Hrun].
  pose proof (Qle_ceiling (fval T / inject_Z s)) as Hc.
  assert (Hpos : 0 < fval T / inject_Z s) by (apply Qlt_shift_div_l; lra).
  assert (Hzc : (0 <= Qceiling (fval T / inject_Z s))%Z).
  { rewrite Zle_Qle. change (inject_Z 0) with 0. lra. }
  unfold Planner.qnat. rewrite Z2Nat.id by exact Hzc.
  assert (Hm : fval T <= inject_Z (Qceiling (fval T / inject_Z s)) * inject_Z s).
  { apply (Qle_trans _ (fval T / inject_Z s * inject_Z s)).
    - field_simplify; [lra | intro H; rewrite H in Hs0; discriminate].
    - apply Qmult_le_compat_r; lra. }
  change (fval (S754_zero false)) with 0. lra.
Qed.

(** Claim C10 as stated fails: a positive slice does not make the loop terminate.
    With a 1-second video and the slice 1e-17, [currentTime + 1e-17] rounds
    back to [currentTime] once the cursor reaches 1/8, so the cursor stays at
    most 1/8 < 1 and no amount of fuel ends the loop. *)
Lemma autoGenerateClips_tiny_stalls :
  0 < fval tiny /\ forall fuel, autoGenerateClips fuel (of_Z 1) tiny = None.
Proof.
  split; [vm_compute; reflexivity|].
  intro fuel. apply stall_loop. split; [left; reflexivity|]. split; [reflexivity|].
  split; apply Qle_bool_imp_le; reflexivity.
Qed.

(** Claim C10 (as amended): when [0 < totalDuration] is false (including NaN) the
    loop stops at once with no segment; when [totalDuration > 0] and the
    slice is [<= 0] the loop never ends, whatever the fuel; a whole-number
    slice [1 <= s < 2^53] with a finite [0 < totalDuration < 2^53] makes it
    end; and the input handler stores the slice unclamped. A positive slice
    alone does not guarantee termination (see [autoGenerateClips_tiny_stalls]). *)
Theorem autoGenerateClips_termination64 (T S : spec_float) (s : Z) :
  (SFltb (S754_zero false) T = false -> autoGenerateClips 1 T S = Some []) /\
  (SFltb (S754_zero false) T = true -> SFleb S (S754_zero false) = true ->
     forall fuel, autoGenerateClips fuel T S = None) /\
  (valid_binary prec emax T = true -> 0 < fval T -> fval T < inject_Z (2 ^ 53) ->
     (1 <= s < 2 ^ 53)%Z -> exists fuel segs, autoGenerateClips fuel T (of_Z s) = Some segs) /\
  (forall old, onClipDurationChange old S = S).
Proof.
  split; [|split; [|split]].
  - intro H. unfold autoGenerateClips. cbn [auto_loop]. now rewrite H.
  - intros HT HS fuel. apply loop_nonpos; [now apply ltb_zero_positive | now apply leb_zero_nonpos | exact I].
  - apply int_slice_terminates.
  - reflexivity.
Qed.

Lemma autoGenerateClips_termination64_witness :
  autoGenerateClips 1 (S754_zero false) (of_Z 30) = Some [] /\
  (forall fuel, autoGenerateClips fuel (of_Z 95) (S754_zero false) = None) /\
  (exists fuel segs, autoGenerateClips fuel (of_Z 95) (of_Z 30) = Some segs).
Proof.
  split; [|split].
  - apply (proj1 (autoGenerateClips_termination64 (S754_zero false) (of_Z 30) 30)). reflexivity.
  - apply (proj1 (proj2 (autoGenerateClips_termination64 (of_Z 95) (S754_zero false) 30)));
      vm_compute; reflexivity.
  - apply (proj1 (proj2 (proj2 (autoGenerateClips_termination64 (of_Z 95) (S754_zero false) 30)))).
    + vm_compute. reflexivity.
    + vm_compute. reflexivity.
    + vm_compute. reflexivity.
    + lia.
Defined.

End Planner64Termination.

(** ** Products, quotients and differences of doubles *)
Module FloatOpFacts.
Import Binary64 Binary64Facts.
Local Open Scope Q_scope.
Local Open Scope Z_scope.

Lemma new_location_ok q p r : 0 <= r < Zpos p ->
  inbetween q (new_location (Zpos p) r) (inject_Z q + (r # p))%Q.
Proof.
  intros Hr.
  unfold new_location, new_location_even, new_location_odd.
  destruct (Z.even (Zpos p)) eqn:Ev; destruct (Z.eqb_spec r 0) as [R0|R0]; cbn [inbetween].
  - subst r. assert (E : (0 # p == 0)%Q) by (unfold Qeq; simpl; lia). lra.
  - assert (A : (0 < r # p)%Q) by (unfold Qlt; simpl; lia).
    assert (B : (r # p < 1)%Q) by (unfold Qlt; simpl; lia).
    destruct (Z.compare_spec (2 * r) (Zpos p)) as [C|C|C]; cbn [inbetween].
    + assert (E : (r # p == 1 # 2)%Q) by (unfold Qeq; simpl; lia). lra.
    + assert (E : (r # p < 1 # 2)%Q) by (unfold Qlt; simpl; lia). lra.
    + assert (E : (1 # 2 < r # p)%Q) by (unfold Qlt; simpl; lia). lra.
  - subst r. assert (E : (0 # p == 0)%Q) by (unfold Qeq; simpl; lia). lra.
  - assert (A : (0 < r # p)%Q) by (unfold Qlt; simpl; lia).
    assert (B : (r # p < 1)%Q) by (unfold Qlt; simpl; lia).
    assert (Od : Z.odd (Zpos p) = true) by (rewrite <- Z.negb_even, Ev; reflexivity).
    apply Z.odd_spec in Od as [k Hk].
    destruct (Z.compare_spec (2 * r + 1) (Zpos p)) as [C|C|C]; cbn [inbetween].
    + assert (E : (r # p < 1 # 2)%Q) by (unfold Qlt; simpl; lia). lra.
    + assert (E : (r # p < 1 # 2)%Q) by (unfold Qlt; simpl; lia). lra.
    + assert (E : (1 # 2 < r # p)%Q) by (unfold Qlt; simpl; lia). lra.
Qed.

Lemma rel_bound z E v :
  (v * pow2 (- E) - (1#2) <= inject_Z z <= v * pow2 (- E) + (1#2))%Q ->
  (pow2 (E + 52) <= v)%Q ->
  (v - v * pow2 (-53) <= inject_Z z * pow2 E <= v + v * pow2 (-53))%Q.
Proof.
  intros [H1 H2] Hv. pose proof (pow2_pos E) as PE.
  assert (K : (v * pow2 (- E) * pow2 E == v)%Q).
  { rewrite <- Qmult_assoc, pow2_opp. ring. }
  assert (Half : ((1#2) * pow2 E <= v * pow2 (-53))%Q).
  { apply (Qle_trans _ (pow2 (E + 52) * pow2 (-53))).
    - rewrite <- pow2_add. replace (E + 52 + -53) with (E + -1) by lia.
      rewrite pow2_add, pow2_m1. lra.
    - apply Qmult_le_compat_r; [exact Hv | apply Qlt_le_weak, pow2_pos]. }
  apply (Qmult_le_compat_r _ _ (pow2 E)) in H1; [|lra].
  apply (Qmult_le_compat_r _ _ (pow2 E)) in H2; [|lra].
  setoid_replace ((v * pow2 (- E) - (1#2)) * pow2 E)%Q
    with (v * pow2 (- E) * pow2 E - (1#2) * pow2 E)%Q in H1 by ring.
  setoid_replace ((v * pow2 (- E) + (1#2)) * pow2 E)%Q
    with (v * pow2 (- E) * pow2 E + (1#2) * pow2 E)%Q in H2 by ring.
  rewrite K in H1, H2.
  lra.
Qed.

Lemma normal_of_big s m e : valid_binary prec emax (S754_finite s m e) = true ->
  (pow2 (-1000) <= inject_Z (Zpos m) * pow2 e)%Q -> 2 ^ 52 <= Zpos m.
Proof.
  intros V H. destruct (valid_facts _ _ _ V) as (A & B & C).
  destruct (Z.eq_dec e (-1074)) as [E|E]; [|apply C; lia].
  exfalso. subst e.
  assert (L : (inject_Z (Zpos m) * pow2 (-1074) < pow2 (-1000))%Q).
  { apply (Qlt_le_trans _ (pow2 53 * pow2 (-1074))).
    - apply Qmult_lt_r; [apply pow2_pos|]. rewrite pow2_Z by lia. rewrite <- Zlt_Qlt. exact B.
    - rewrite <- pow2_add. apply pow2_le. lia. }
  lra.
Qed.

Lemma digits_ge p k : 2 ^ k <= Zpos p -> 0 <= k -> k < Zdigits2 (Zpos p).
Proof.
  intros H Hk. pose proof (Zdigits2_bounds (Zpos p) ltac:(lia)) as [_ B].
  destruct (Z.lt_ge_cases k (Zdigits2 (Zpos p))) as [L|L]; [exact L|].
  assert (2 ^ Zdigits2 (Zpos p) <= 2 ^ k) by (apply Z.pow_le_mono_r; lia). lia.
Qed.

Lemma value_digits p e :
  (pow2 (Zdigits2 (Zpos p) - 1 + e) <= inject_Z (Zpos p) * pow2 e < pow2 (Zdigits2 (Zpos p) + e))%Q.
Proof.
  pose proof (Zdigits2_bounds (Zpos p) ltac:(lia)) as [B1 B2].
  pose proof (Zdigits2_pos (Zpos p) ltac:(lia)).
  split.
  - rewrite pow2_add, (pow2_Z (Zdigits2 (Zpos p) - 1)) by lia.
    apply Qmult_le_compat_r; [rewrite <- Zle_Qle; exact B1 | apply Qlt_le_weak, pow2_pos].
  - rewrite pow2_add, (pow2_Z (Zdigits2 (Zpos p))) by lia.
    apply Qmult_lt_r; [apply pow2_pos | rewrite <- Zlt_Qlt; exact B2].
Qed.

Lemma mul_rel sx mx ex sy my ey :
  2 ^ 52 <= Zpos mx -> 2 ^ 52 <= Zpos my ->
  (pow2 (-1000) <= inject_Z (Zpos mx) * pow2 ex * (inject_Z (Zpos my) * pow2 ey) < pow2 999)%Q ->
  exists m e, mul (S754_finite sx mx ex) (S754_finite sy my ey) = S754_finite (xorb sx sy) m e /\
    valid_binary prec emax (S754_finite (xorb sx sy) m e) = true /\
    (let v := (inject_Z (Zpos mx) * pow2 ex * (inject_Z (Zpos my) * pow2 ey))%Q in
     v - v * pow2 (-53) <= inject_Z (Zpos m) * pow2 e <= v + v * pow2 (-53))%Q.
Proof.
  intros Hx Hy Hv. unfold mul. cbn [SFmul].
  set (v := (inject_Z (Zpos mx) * pow2 ex * (inject_Z (Zpos my) * pow2 ey))%Q) in *.
  assert (Hv' : (v == inject_Z (Zpos (mx * my)) * pow2 (ex + ey))%Q).
  { unfold v. rewrite Pos2Z.inj_mul, inject_Z_mult, pow2_add. ring. }
  set (D := Zdigits2 (Zpos (mx * my))).
  assert (HD : 104 < D).
  { unfold D. apply digits_ge; [|lia]. rewrite Pos2Z.inj_mul. change (2 ^ 104) with (2 ^ 52 * 2 ^ 52). nia. }
  destruct (value_digits (mx * my) (ex + ey)) as [L1 L2]. fold D in L1, L2.
  assert (U1 : -1000 < D + (ex + ey)) by (apply pow2_lt_inv; lra).
  assert (U2 : D - 1 + (ex + ey) < 999) by (apply pow2_lt_inv; lra).
  destruct (round_aux_spec (xorb sx sy) (Zpos (mx * my)) (ex + ey) loc_Exact
              (inject_Z (Zpos (mx * my))) ltac:(lia) (Qeq_refl _))
    as (m & e & z & R1 & R2 & R3 & R4 & R5); [fold D; rewrite FE_eq; lia | fold D; lia |].
  fold D in R4, R5. rewrite FE_eq in R4, R5.
  replace (Z.max (D + (ex + ey) - 53) (-1074)) with (D + (ex + ey) - 53) in R4, R5 by lia.
  exists m, e. split; [exact R1|]. split; [exact R2|]. cbv zeta. rewrite R4.
  apply rel_bound.
  - replace (ex + ey - (D + (ex + ey) - 53)) with ((ex + ey) + - (D + (ex + ey) - 53)) in R5 by lia.
    rewrite pow2_add, Qmult_assoc, <- Hv' in R5. exact R5.
  - rewrite Hv'. apply (Qle_trans _ (pow2 (D - 1 + (ex + ey)))); [apply pow2_le; lia | exact L1].
Qed.

Lemma div_rel sx mx ex sy my ey :
  (pow2 (-1000) <= inject_Z (Zpos mx) * pow2 ex / (inject_Z (Zpos my) * pow2 ey) < pow2 990)%Q ->
  exists m e, div (S754_finite sx mx ex) (S754_finite sy my ey) = S754_finite (xorb sx sy) m e /\
    valid_binary prec emax (S754_finite (xorb sx sy) m e) = true /\
    (let v := (inject_Z (Zpos mx) * pow2 ex / (inject_Z (Zpos my) * pow2 ey))%Q in
     v - v * pow2 (-53) <= inject_Z (Zpos m) * pow2 e <= v + v * pow2 (-53))%Q.
Proof.
  intros Hv. unfold div. cbn [SFdiv]. unfold SFdiv_core_binary.
  set (v := (inject_Z (Zpos mx) * pow2 ex / (inject_Z (Zpos my) * pow2 ey))%Q) in *.
  set (d1 := Zdigits2 (Zpos mx)). set (d2 := Zdigits2 (Zpos my)).
  destruct (value_digits mx ex) as [X1 X2]. destruct (value_digits my ey) as [Y1 Y2].
  fold d1 in X1, X2. fold d2 in Y1, Y2.
  pose proof (pow2_pos (d2 - 1 + ey)) as PY.
  assert (Hv1 : (pow2 (d1 + ex - (d2 + ey) - 1) < v)%Q).
  { unfold v. apply Qlt_shift_div_l; [lra|].
    apply (Qlt_le_trans _ (pow2 (d1 + ex - (d2 + ey) - 1) * pow2 (d2 + ey))).
    - apply Qmult_lt_l; [apply pow2_pos | exact Y2].
    - rewrite <- pow2_add. replace (d1 + ex - (d2 + ey) - 1 + (d2 + ey)) with (d1 - 1 + ex) by lia.
      exact X1. }
  assert (Hv2 : (v < pow2 (d1 + ex - (d2 + ey) + 1))%Q).
  { unfold v. apply Qlt_shift_div_r; [lra|].
    apply (Qlt_le_trans _ (pow2 (d1 + ex - (d2 + ey) + 1) * pow2 (d2 - 1 + ey))).
    - rewrite <- pow2_add. replace (d1 + ex - (d2 + ey) + 1 + (d2 - 1 + ey)) with (d1 + ex) by lia.
      exact X2.
    - apply Qmult_le_l; [apply pow2_pos | exact Y1]. }
  assert (T1 : -1000 < d1 + ex - (d2 + ey) + 1) by (apply pow2_lt_inv; lra).
  assert (T2 : d1 + ex - (d2 + ey) - 1 < 990) by (apply pow2_lt_inv; lra).
  rewrite FE_eq.
  set (t := d1 + ex - (d2 + ey)) in *.
  replace (Z.max (t - 53) (-1074)) with (t - 53) by lia.
  set (e' := Z.min (t - 53) (ex - ey)).
  set (s := ex - ey - e').
  assert (Hs : 53 + d2 - d1 <= s) by (unfold s, e', t; lia).
  assert (Hsd : s = ex - ey - e') by reflexivity.
  assert (He' : e' <= t - 53) by (unfold e'; lia).
  assert (He'2 : e' <= ex - ey) by (unfold e'; lia).
  clearbody s e'.
  assert (Hm' : (match s with 0 => Zpos mx | Zpos _ => Z.shiftl (Zpos mx) s | Zneg _ => 0 end) =
                Zpos mx * 2 ^ s).
  { destruct s as [|p|p]; [lia | apply Z.shiftl_mul_pow2; lia | lia]. }
  rewrite Hm'.
  pose proof (Z_div_mod (Zpos mx * 2 ^ s) (Zpos my) ltac:(lia)) as Hdm.
  destruct (Z.div_eucl (Zpos mx * 2 ^ s) (Zpos my)) as [q r] eqn:Hd.
  destruct Hdm as [Hqr Hr].
  pose proof (Zdigits2_bounds (Zpos mx) ltac:(lia)) as [MX1 MX2]. fold d1 in MX1, MX2.
  pose proof (Zdigits2_bounds (Zpos my) ltac:(lia)) as [MY1 MY2]. fold d2 in MY1, MY2.
  pose proof (Zdigits2_pos (Zpos mx) ltac:(lia)). pose proof (Zdigits2_pos (Zpos my) ltac:(lia)).
  set (K := d1 - 1 + s - d2).
  assert (P1 : 2 ^ (d1 - 1) * 2 ^ s = 2 ^ K * 2 ^ d2) by (rewrite <- !Z.pow_add_r by lia; f_equal; lia).
  assert (P2 : 2 ^ d1 * 2 ^ s = 2 ^ (K + 2) * 2 ^ (d2 - 1)) by (rewrite <- !Z.pow_add_r by lia; f_equal; lia).
  assert (PK : 0 < 2 ^ K) by (apply Z.pow_pos_nonneg; lia).
  assert (Ps : 0 < 2 ^ s) by (apply Z.pow_pos_nonneg; lia).
  assert (Q1 : 2 ^ K <= q) by nia.
  assert (Q2 : q < 2 ^ (K + 2)) by nia.
  assert (Hq0 : 0 < q) by lia.
  destruct q as [|pq|pq]; try lia.
  assert (DQ1 : K < Zdigits2 (Zpos pq)) by (apply digits_ge; lia).
  assert (DQ2 : Zdigits2 (Zpos pq) <= K + 2).
  { pose proof (Zdigits2_bounds (Zpos pq) ltac:(lia)) as [B _].
    destruct (Z.le_gt_cases (Zdigits2 (Zpos pq)) (K + 2)) as [L|L]; [exact L|].
    assert (2 ^ (K + 2) <= 2 ^ (Zdigits2 (Zpos pq) - 1)) by (apply Z.pow_le_mono_r; lia). lia. }
  set (x := (inject_Z (Zpos pq) + (r # my))%Q).
  assert (Hx : (x * inject_Z (Zpos my) == inject_Z (Zpos mx) * pow2 s)%Q).
  { unfold x. rewrite (pow2_Z s) by lia. rewrite <- inject_Z_mult, Hqr.
    rewrite inject_Z_plus, inject_Z_mult.
    assert (E : ((r # my) * inject_Z (Zpos my) == inject_Z r)%Q) by (unfold Qeq; simpl; lia).
    rewrite Qmult_plus_distr_l, E. ring. }
  assert (Hvx : (v == x * pow2 e')%Q).
  { unfold v. replace ex with (s + e' + ey) by lia. rewrite !pow2_add.
    setoid_replace (inject_Z (Zpos mx) * (pow2 s * pow2 e' * pow2 ey))%Q
      with (inject_Z (Zpos mx) * pow2 s * pow2 e' * pow2 ey)%Q by ring.
    rewrite <- Hx. field. split.
    - pose proof (pow2_pos ey). intro Z0. rewrite Z0 in H1. discriminate.
    - intro Z0. apply (proj1 (inject_Z_injective _ 0)) in Z0. discriminate. }
  destruct (round_aux_spec (xorb sx sy) (Zpos pq) e' (new_location (Zpos my) r) x ltac:(lia)
              (new_location_ok _ _ _ Hr))
    as (m & e & z & R1 & R2 & R3 & R4 & R5); [rewrite FE_eq; lia | lia |].
  rewrite FE_eq in R4, R5.
  replace (Z.max (Zdigits2 (Zpos pq) + e' - 53) (-1074)) with (Zdigits2 (Zpos pq) + e' - 53) in R4, R5 by lia.
  exists m, e. split; [exact R1|]. split; [exact R2|]. rewrite R4.
  apply rel_bound.
  - replace (e' - (Zdigits2 (Zpos pq) + e' - 53)) with (e' + - (Zdigits2 (Zpos pq) + e' - 53)) in R5 by lia.
    rewrite pow2_add, Qmult_assoc, <- Hvx in R5. exact R5.
  - rewrite Hvx. destruct (value_digits pq e') as [L1 _].
    assert (Lx : (inject_Z (Zpos pq) * pow2 e' <= x * pow2 e')%Q).
    { apply Qmult_le_compat_r; [|apply Qlt_le_weak, pow2_pos].
      unfold x. assert (E : (0 <= r # my)%Q) by (unfold Qle; simpl; lia). lra. }
    apply (Qle_trans _ (pow2 (Zdigits2 (Zpos pq) - 1 + e'))); [apply pow2_le; lia|]. lra.
Qed.

Lemma of_Z_shape n : 1 <= n < 2 ^ 53 ->
  exists m e, of_Z n = S754_finite false m e /\
    valid_binary prec emax (S754_finite false m e) = true /\
    (inject_Z (Zpos m) * pow2 e == inject_Z n)%Q /\ 2 ^ 52 <= Zpos m /\ -52 <= e.
Proof.
  intro Hn. destruct (Planner64Facts.of_Z_ok n Hn) as (m & e & R1 & R2 & R3).
  cbn [fval cond_Zopp] in R3.
  assert (H1 : (1 <= inject_Z n)%Q) by (change 1%Q with (inject_Z 1); rewrite <- Zle_Qle; lia).
  exists m, e. split; [exact R1|]. split; [exact R2|]. split; [exact R3|].
  assert (Hm : 2 ^ 52 <= Zpos m).
  { apply (normal_of_big false m e R2). rewrite R3.
    apply (Qle_trans _ 1); [|exact H1]. change 1%Q with (pow2 0). apply pow2_le. lia. }
  split; [exact Hm|].
  destruct (valid_facts _ _ _ R2) as (_ & B & _).
  destruct (value_digits m e) as [_ L].
  assert (Dm : Zdigits2 (Zpos m) = 53) by (apply Zdigits2_unique; lia).
  rewrite Dm in L. assert (0 < 53 + e) by (apply pow2_lt_inv; change (pow2 0) with 1%Q; lra). lia.
Qed.

Lemma exp_lower m e k : valid_binary prec emax (S754_finite false m e) = true ->
  (pow2 k <= inject_Z (Zpos m) * pow2 e)%Q -> k - 53 < e.
Proof.
  intros V H. destruct (valid_facts _ _ _ V) as (_ & B & _).
  assert (L : (inject_Z (Zpos m) * pow2 e < pow2 (53 + e))%Q).
  { rewrite pow2_add, (pow2_Z 53) by lia. apply Qmult_lt_r; [apply pow2_pos | rewrite <- Zlt_Qlt; exact B]. }
  assert (k < 53 + e) by (apply pow2_lt_inv; lra). lia.
Qed.

Lemma gap mx ex my ey g : g <= ex -> g <= ey ->
  exists K, (inject_Z (Zpos mx) * pow2 ex - inject_Z (Zpos my) * pow2 ey == inject_Z K * pow2 g)%Q.
Proof.
  intros Hx Hy. exists (Zpos mx * 2 ^ (ex - g) - Zpos my * 2 ^ (ey - g)).
  unfold Z.sub. rewrite inject_Z_plus, inject_Z_opp, !inject_Z_mult, <- !pow2_Z by lia.
  assert (E1 : (pow2 ex == pow2 (ex + - g) * pow2 g)%Q) by (rewrite <- pow2_add; replace (ex + - g + g) with ex by lia; reflexivity).
  assert (E2 : (pow2 ey == pow2 (ey + - g) * pow2 g)%Q) by (rewrite <- pow2_add; replace (ey + - g + g) with ey by lia; reflexivity).
  rewrite E1, E2. ring.
Qed.

Lemma sub_zero sx mx ex sy my ey :
  (fval (S754_finite sx mx ex) == fval (S754_finite sy my ey))%Q ->
  SFsub prec emax (S754_finite sx mx ex) (S754_finite sy my ey) = S754_zero false.
Proof.
  intro E. cbn [SFsub].
  set (ez := Z.min ex ey).
  assert (HK : (inject_Z (cond_Zopp sx (Zpos (fst (shl_align mx ex ez))) -
                          cond_Zopp sy (Zpos (fst (shl_align my ey ez)))) * pow2 ez == 0)%Q).
  { unfold Z.sub. rewrite inject_Z_plus, inject_Z_opp.
    rewrite Qmult_plus_distr_l.
    setoid_replace (- inject_Z (cond_Zopp sy (Zpos (fst (shl_align my ey ez)))) * pow2 ez)%Q
      with (- (inject_Z (cond_Zopp sy (Zpos (fst (shl_align my ey ez)))) * pow2 ez))%Q by ring.
    rewrite !aligned_value by (unfold ez; lia). rewrite E. ring. }
  destruct (cond_Zopp sx _ - cond_Zopp sy _) as [|p|p] eqn:K; [reflexivity| |];
    exfalso; [pose proof (pos_mul_pow2 p ez) | pose proof (pos_mul_pow2 p ez)].
  - lra.
  - change (Zneg p) with (- Zpos p) in HK. rewrite inject_Z_opp in HK. lra.
Qed.

Lemma round_value_neg p ez q b : -1074 <= ez ->
  (pow2 (q - 1) <= inject_Z (Zpos p) * pow2 ez < pow2 q)%Q -> q <= 1000 ->
  exists m e z, binary_normalize prec emax (Zneg p) ez b = S754_finite true m e /\
    valid_binary prec emax (S754_finite true m e) = true /\
    (inject_Z (Zpos m) * pow2 e == inject_Z z * pow2 (Z.max (q - 53) (-1074)))%Q /\
    (inject_Z (Zpos p) * pow2 ez * pow2 (- Z.max (q - 53) (-1074)) - (1#2) <= inject_Z z <=
     inject_Z (Zpos p) * pow2 ez * pow2 (- Z.max (q - 53) (-1074)) + (1#2))%Q.
Proof.
  intros Hez Hq Hq1000. pose proof (digits_of_value p ez q Hq) as HD.
  destruct (round_spec true p ez Hez ltac:(lia)) as (m & e & z & R1 & R2 & R3 & R4 & R5).
  rewrite HD, FE_eq in R4, R5.
  exists m, e, z. split; [exact R1|]. split; [exact R2|]. split; [exact R4|].
  rewrite <- Qmult_assoc, <- pow2_add. exact R5.
Qed.

Lemma sub_round_neg sx mx ex sy my ey q :
  valid_binary prec emax (S754_finite sx mx ex) = true ->
  valid_binary prec emax (S754_finite sy my ey) = true ->
  (pow2 (q - 1) <= fval (S754_finite sy my ey) - fval (S754_finite sx mx ex) < pow2 q)%Q ->
  q <= 1000 ->
  exists m e z, SFsub prec emax (S754_finite sx mx ex) (S754_finite sy my ey) = S754_finite true m e /\
    valid_binary prec emax (S754_finite true m e) = true /\
    (inject_Z (Zpos m) * pow2 e == inject_Z z * pow2 (Z.max (q - 53) (-1074)))%Q /\
    ((fval (S754_finite sy my ey) - fval (S754_finite sx mx ex)) * pow2 (- Z.max (q - 53) (-1074)) - (1#2)
       <= inject_Z z <=
     (fval (S754_finite sy my ey) - fval (S754_finite sx mx ex)) * pow2 (- Z.max (q - 53) (-1074)) + (1#2))%Q.
Proof.
  intros Vx Vy Hq Hq1000. cbn [SFsub].
  pose proof (valid_facts _ _ _ Vx) as [Ax _]. pose proof (valid_facts _ _ _ Vy) as [Ay _].
  set (ez := Z.min ex ey).
  assert (HK : (inject_Z (- (cond_Zopp sx (Zpos (fst (shl_align mx ex ez))) -
                          cond_Zopp sy (Zpos (fst (shl_align my ey ez))))) * pow2 ez ==
                fval (S754_finite sy my ey) - fval (S754_finite sx mx ex))%Q).
  { unfold Z.sub. rewrite inject_Z_opp, inject_Z_plus, inject_Z_opp.
    rewrite <- (aligned_value sx mx ex ez), <- (aligned_value sy my ey ez) by (unfold ez; lia). ring. }
  pose proof (pow2_pos (q - 1)).
  destruct (pos_K _ ez ltac:(rewrite HK; lra)) as [p Hp].
  assert (Hn : cond_Zopp sx (Zpos (fst (shl_align mx ex ez))) - cond_Zopp sy (Zpos (fst (shl_align my ey ez)))
               = Zneg p) by lia.
  rewrite Hn. rewrite Hp in HK. rewrite <- HK in Hq.
  destruct (round_value_neg p ez q false ltac:(unfold ez; lia) Hq Hq1000) as (m & e & z & R1 & R2 & R3 & R4).
  exists m, e, z. split; [exact R1|]. split; [exact R2|]. split; [exact R3|]. rewrite <- HK. exact R4.
Qed.

Lemma q_range v q : (pow2 (-1000) <= v < pow2 999)%Q -> (pow2 (q - 1) <= v < pow2 q)%Q ->
  -1000 < q <= 1000.
Proof.
  intros [A B] [C D].
  assert (-1000 < q) by (apply pow2_lt_inv; lra).
  assert (q - 1 < 999) by (apply pow2_lt_inv; lra). lia.
Qed.

Lemma sub_rel_pos sx mx ex sy my ey :
  valid_binary prec emax (S754_finite sx mx ex) = true ->
  valid_binary prec emax (S754_finite sy my ey) = true ->
  (pow2 (-1000) <= fval (S754_finite sx mx ex) - fval (S754_finite sy my ey) < pow2 999)%Q ->
  exists m e, SFsub prec emax (S754_finite sx mx ex) (S754_finite sy my ey) = S754_finite false m e /\
    valid_binary prec emax (S754_finite false m e) = true /\
    (let v := (fval (S754_finite sx mx ex) - fval (S754_finite sy my ey))%Q in
     v - v * pow2 (-53) <= inject_Z (Zpos m) * pow2 e <= v + v * pow2 (-53))%Q.
Proof.
  intros Vx Vy Hv.
  set (v := (fval (S754_finite sx mx ex) - fval (S754_finite sy my ey))%Q) in *.
  assert (Hv0 : (0 < v)%Q) by (pose proof (pow2_pos (-1000)); lra).
  destruct (exists_q v Hv0) as [q Hq]. pose proof (q_range v q Hv Hq) as Hr.
  destruct (sub_round sx mx ex sy my ey q Vx Vy Hq ltac:(lia)) as (m & e & z & R1 & R2 & R3 & R4).
  fold v in R4. replace (Z.max (q - 53) (-1074)) with (q - 53) in R3, R4 by lia.
  exists m, e. split; [exact R1|]. split; [exact R2|]. cbv zeta.
  cbn [fval cond_Zopp] in R3. rewrite R3. apply rel_bound; [exact R4|].
  replace (q - 53 + 52) with (q - 1) by lia. apply Hq.
Qed.

Lemma sub_rel_neg sx mx ex sy my ey :
  valid_binary prec emax (S754_finite sx mx ex) = true ->
  valid_binary prec emax (S754_finite sy my ey) = true ->
  (pow2 (-1000) <= fval (S754_finite sy my ey) - fval (S754_finite sx mx ex) < pow2 999)%Q ->
  exists m e, SFsub prec emax (S754_finite sx mx ex) (S754_finite sy my ey) = S754_finite true m e /\
    valid_binary prec emax (S754_finite true m e) = true /\
    (let v := (fval (S754_finite sy my ey) - fval (S754_finite sx mx ex))%Q in
     v - v * pow2 (-53) <= inject_Z (Zpos m) * pow2 e <= v + v * pow2 (-53))%Q.
Proof.
  intros Vx Vy Hv.
  set (v := (fval (S754_finite sy my ey) - fval (S754_finite sx mx ex))%Q) in *.
  assert (Hv0 : (0 < v)%Q) by (pose proof (pow2_pos (-1000)); lra).
  destruct (exists_q v Hv0) as [q Hq]. pose proof (q_range v q Hv Hq) as Hr.
  destruct (sub_round_neg sx mx ex sy my ey q Vx Vy Hq ltac:(lia)) as (m & e & z & R1 & R2 & R3 & R4).
  fold v in R4. replace (Z.max (q - 53) (-1074)) with (q - 53) in R3, R4 by lia.
  exists m, e. split; [exact R1|]. split; [exact R2|]. cbv zeta.
  rewrite R3. apply rel_bound; [exact R4|].
  replace (q - 53 + 52) with (q - 1) by lia. apply Hq.
Qed.

Lemma two_eq : of_Z 2 = S754_finite false 4503599627370496 (-51).
Proof. vm_compute. reflexivity. Qed.

Lemma two_val : (inject_Z (Zpos 4503599627370496) * pow2 (-51) == 2)%Q.
Proof. reflexivity. Qed.

Lemma u_eq : (pow2 (-53) == 1 # 9007199254740992)%Q.
Proof. reflexivity. Qed.

Lemma pow2_m52 : (pow2 (-52) == 1 # 4503599627370496)%Q.
Proof. reflexivity. Qed.

Lemma pow2_m1000 : (pow2 (-1000) <= 1 # 1152921504606846976)%Q.
Proof. unfold Qle. vm_compute. discriminate. Qed.

Lemma pow2_990_999 : (pow2 990 <= pow2 999)%Q.
Proof. apply pow2_le. lia. Qed.

Lemma half_div_rel s m e :
  (pow2 (-1000) <= inject_Z (Zpos m) * pow2 e * (1#2) < pow2 990)%Q ->
  exists m' e', div (S754_finite s m e) (of_Z 2) = S754_finite s m' e' /\
    (let v := (inject_Z (Zpos m) * pow2 e * (1#2))%Q in
     v - v * pow2 (-53) <= inject_Z (Zpos m') * pow2 e' <= v + v * pow2 (-53))%Q.
Proof.
  intro Hv. rewrite two_eq.
  assert (E : (inject_Z (Zpos m) * pow2 e / (inject_Z (Zpos 4503599627370496) * pow2 (-51)) ==
               inject_Z (Zpos m) * pow2 e * (1#2))%Q).
  { rewrite two_val. field. }
  destruct (div_rel s m e false 4503599627370496 (-51) ltac:(rewrite E; exact Hv))
    as (m' & e' & R1 & _ & R3).
  rewrite Bool.xorb_false_r in R1. exists m', e'. split; [exact R1|].
  cbv zeta in R3 |- *. rewrite E in R3. exact R3.
Qed.

Lemma offset_bounds mx ex (C : Z) :
  valid_binary prec emax (S754_finite false mx ex) = true ->
  1 <= C < 2 ^ 53 ->
  (1 <= inject_Z (Zpos mx) * pow2 ex < pow2 990)%Q ->
  let X := (inject_Z (Zpos mx) * pow2 ex)%Q in
  let off := div (SFopp (sub (S754_finite false mx ex) (of_Z C))) (of_Z 2) in
  is_finite off = true /\
  (inject_Z C <= X ->
     - ((X - inject_Z C) * (1 + pow2 (-53)) * (1 + pow2 (-53))) <= 2 * fval off <= 0)%Q /\
  (X <= inject_Z C ->
     0 <= 2 * fval off <= (inject_Z C - X) * (1 + pow2 (-53)) * (1 + pow2 (-53)))%Q.
Proof.
  intros V HC HX X off. unfold off, sub.
  destruct (of_Z_shape C HC) as (mc & ec & Ec & Vc & Fc & Nc & Ec52). rewrite Ec.
  assert (Ex : -52 <= ex).
  { pose proof (exp_lower mx ex 0 V ltac:(change (pow2 0) with 1%Q; lra)). lia. }
  destruct (gap mx ex mc ec (-52) Ex Ec52) as [K HK]. rewrite Fc in HK. fold X in HK, HX.
  pose proof u_eq as U. pose proof pow2_m52 as P52. pose proof pow2_m1000 as P1000.
  pose proof pow2_990_999 as P990.
  assert (HC1 : (1 <= inject_Z C)%Q) by (change 1%Q with (inject_Z 1); rewrite <- Zle_Qle; lia).
  assert (HCb : (inject_Z C < pow2 990)%Q).
  { assert (inject_Z (2 ^ 53) < pow2 990)%Q by (rewrite <- pow2_Z by lia; apply pow2_lt; lia). assert (inject_Z C < inject_Z (2 ^ 53))%Q by (rewrite <- Zlt_Qlt; lia).
    lra. }
  destruct (Z.lt_trichotomy K 0) as [Kn|[K0|Kp]].
  - assert (HKq : (inject_Z K <= -1)%Q) by (change (-1)%Q with (inject_Z (-1)); rewrite <- Zle_Qle; lia).
    assert (D1 : (pow2 (-52) <= inject_Z C - X)%Q).
    { rewrite P52 in HK |- *. 
      assert (inject_Z K * (1 # 4503599627370496) <= - (1 # 4503599627370496))%Q.
      { apply (Qmult_le_compat_r _ _ (1 # 4503599627370496)) in HKq; [lra | discriminate]. }
      lra. }
    destruct (sub_rel_neg false mx ex false mc ec V Vc) as (m & e & R1 & R2 & R3).
    { cbn [fval cond_Zopp]. rewrite Fc. fold X. lra. }
    cbn [fval cond_Zopp] in R3. rewrite Fc in R3. fold X in R3. cbv zeta in R3.
    rewrite R1. cbn [SFopp negb].
    destruct (half_div_rel false m e) as (m' & e' & S1 & S3).
    { rewrite U in R3. lra. }
    rewrite S1. cbv zeta in S3.
    split; [reflexivity|]. cbn [fval cond_Zopp]. rewrite U in R3, S3 |- *.
    split; intro L; lra.
  - subst K. rewrite sub_zero.
    + rewrite two_eq. cbn. split; [reflexivity|]. 
      assert (E0 : (X == inject_Z C)%Q) by (change (inject_Z 0) with 0%Q in HK; lra).
      split; intro; lra.
    + cbn [fval cond_Zopp]. rewrite Fc. change (inject_Z 0) with 0%Q in HK. fold X. lra.
  - assert (HKq : (1 <= inject_Z K)%Q) by (change 1%Q with (inject_Z 1); rewrite <- Zle_Qle; lia).
    assert (D1 : (pow2 (-52) <= X - inject_Z C)%Q).
    { rewrite P52 in HK |- *.
      assert (1 * (1 # 4503599627370496) <= inject_Z K * (1 # 4503599627370496))%Q.
      { apply Qmult_le_compat_r; [exact HKq | discriminate]. }
      lra. }
    destruct (sub_rel_pos false mx ex false mc ec V Vc) as (m & e & R1 & R2 & R3).
    { cbn [fval cond_Zopp]. rewrite Fc. fold X. lra. }
    cbn [fval cond_Zopp] in R3. rewrite Fc in R3. fold X in R3. cbv zeta in R3.
    rewrite R1. cbn [SFopp negb].
    destruct (half_div_rel true m e) as (m' & e' & S1 & S3).
    { rewrite U in R3. lra. }
    rewrite S1. cbv zeta in S3.
    split; [reflexivity|]. cbn [fval cond_Zopp]. rewrite inject_Z_opp. rewrite U in R3, S3 |- *.
    split; intro L; lra.
Qed.

Lemma pos_Q n : 1 <= n -> (1 <= inject_Z n)%Q.
Proof. intro H. change 1%Q with (inject_Z 1). rewrite <- Zle_Qle. exact H. Qed.

Lemma Qmult_le_compat_l (a b c : Q) : (a <= b -> 0 <= c -> c * a <= c * b)%Q.
Proof. intros H Hc. rewrite !(Qmult_comm c). apply Qmult_le_compat_r; assumption. Qed.

Lemma cover_side (A B C1 C2 : Z) :
  1 <= A < 2 ^ 53 -> 1 <= B < 2 ^ 53 -> 1 <= C1 <= 2048 -> 2 <= C2 <= 2048 ->
  (inject_Z C2 * (1 - pow2 (-53)) <= inject_Z A / inject_Z B * inject_Z C1)%Q ->
  let dw := mul (of_Z A) (div (of_Z C1) (of_Z B)) in
  let off := div (SFopp (sub dw (of_Z C2))) (of_Z 2) in
  is_finite dw = true /\ is_finite off = true /\
  (inject_Z C2 - pow2 (-40) <= fval dw /\ fval off <= pow2 (-40) /\
   inject_Z C2 - pow2 (-40) <= fval off + fval dw)%Q.
Proof.
  intros HA HB HC1 HC2 Hr dw off.
  pose proof u_eq as U. pose proof pow2_m1000 as P1000.
  assert (P40 : (pow2 (-40) == 1 # 1099511627776)%Q) by reflexivity.
  assert (P990 : (inject_Z (2 ^ 66) < pow2 990)%Q) by (rewrite <- pow2_Z by lia; apply pow2_lt; lia).
  change (inject_Z (2 ^ 66)) with 73786976294838206464%Q in P990.
  destruct (of_Z_shape A ltac:(lia)) as (mA & eA & EA & VA & FA & NA & _).
  destruct (of_Z_shape B ltac:(lia)) as (mB & eB & EB & VB & FB & NB & _).
  destruct (of_Z_shape C1 ltac:(lia)) as (mC & eC & EC & VC & FC & NC & _).
  pose proof (pos_Q A ltac:(lia)) as A1. pose proof (pos_Q B ltac:(lia)) as B1.
  pose proof (pos_Q C1 ltac:(lia)) as C11.
  assert (A2 : (inject_Z A <= 9007199254740992)%Q)
    by (change 9007199254740992%Q with (inject_Z (2 ^ 53)); rewrite <- Zle_Qle; lia).
  assert (B2 : (inject_Z B <= 9007199254740992)%Q)
    by (change 9007199254740992%Q with (inject_Z (2 ^ 53)); rewrite <- Zle_Qle; lia).
  assert (C12 : (inject_Z C1 <= 2048)%Q) by (change 2048%Q with (inject_Z 2048); rewrite <- Zle_Qle; lia).
  assert (C22 : (inject_Z C2 <= 2048)%Q) by (change 2048%Q with (inject_Z 2048); rewrite <- Zle_Qle; lia).
  assert (C21 : (2 <= inject_Z C2)%Q) by (change 2%Q with (inject_Z 2); rewrite <- Zle_Qle; lia).
  (* the ratio [C1 / B] *)
  set (v := (inject_Z C1 / inject_Z B)%Q).
  assert (Hv1 : ((1 # 9007199254740992) <= v)%Q).
  { unfold v. apply Qle_shift_div_l; [lra|]. lra. }
  assert (Hv2 : (v <= inject_Z C1)%Q).
  { unfold v. apply Qle_shift_div_r; [lra|].
    setoid_replace (inject_Z C1) with (inject_Z C1 * 1)%Q at 1 by ring.
    apply Qmult_le_compat_l; lra. }
  assert (Ev : (inject_Z (Zpos mC) * pow2 eC / (inject_Z (Zpos mB) * pow2 eB) == v)%Q)
    by (rewrite FC, FB; reflexivity).
  destruct (div_rel false mC eC false mB eB ltac:(rewrite Ev; lra)) as (mr & er & R1 & R2 & R3).
  cbv zeta in R3. rewrite Ev in R3. rewrite U in R3. cbn [xorb] in R1, R2.
  set (R := (inject_Z (Zpos mr) * pow2 er)%Q) in R3.
  assert (NR : 2 ^ 52 <= Zpos mr) by (apply (normal_of_big false mr er R2); fold R; lra).
  (* the product [A * R] *)
  assert (AR1 : (R <= inject_Z A * R)%Q).
  { setoid_replace R with (1 * R)%Q at 1 by ring. apply Qmult_le_compat_r; lra. }
  assert (AR2 : (inject_Z A * R <= 9007199254740992 * R)%Q) by (apply Qmult_le_compat_r; lra).
  assert (AR3 : (inject_Z A * (v * (1 - (1 # 9007199254740992))) <= inject_Z A * R)%Q)
    by (apply Qmult_le_compat_l; lra).
  assert (AV : (inject_Z A * v == inject_Z A / inject_Z B * inject_Z C1)%Q).
  { unfold v. field. intro E0. rewrite E0 in B1. lra. }
  setoid_replace (inject_Z A * (v * (1 - (1 # 9007199254740992))))%Q
    with (inject_Z A * v * (1 - (1 # 9007199254740992)))%Q in AR3 by ring.
  rewrite AV in AR3.
  assert (EAR : (inject_Z (Zpos mA) * pow2 eA * (inject_Z (Zpos mr) * pow2 er) == inject_Z A * R)%Q)
    by (rewrite FA; reflexivity).
  destruct (mul_rel false mA eA false mr er NA NR ltac:(rewrite EAR; pose proof pow2_990_999; lra)) as (md & ed & D1 & D2 & D3).
  cbv zeta in D3. rewrite EAR, U in D3. cbn [xorb] in D1, D2.
  set (DW := (inject_Z (Zpos md) * pow2 ed)%Q) in D3.
  assert (HDW1 : (inject_Z C2 * ((1 - (1 # 9007199254740992)) * (1 - (1 # 9007199254740992)) *
                  (1 - (1 # 9007199254740992))) <= DW)%Q) by (rewrite U in Hr; lra).
  assert (Hdw : dw = S754_finite false md ed).
  { unfold dw. rewrite EA, EB, EC. rewrite R1. exact D1. }
  destruct (offset_bounds md ed C2 D2 ltac:(lia) ltac:(fold DW; lra)) as (O1 & O2 & O3).
  fold DW in O2, O3. rewrite <- Hdw in O1, O2, O3. fold off in O1, O2, O3.
  rewrite U in O2, O3.
  split; [rewrite Hdw; reflexivity|]. split; [exact O1|].
  rewrite Hdw. cbn [fval cond_Zopp]. fold DW. rewrite P40.
  destruct (Qlt_le_dec DW (inject_Z C2)) as [L|L].
  - destruct (O3 ltac:(lra)) as [O3a O3b]. lra.
  - destruct (O2 L) as [O2a O2b]. lra.
Qed.

End FloatOpFacts.

(** ** The binary64 frame geometry *)
Module Frame64Facts.
Import Binary64 Binary64Facts FloatOpFacts Frame64.
Local Open Scope Q_scope.
Local Open Scope Z_scope.

Lemma targetRatio_eq : div canvas_width canvas_height = S754_finite false 5066549580791808 (-53).
Proof. vm_compute. reflexivity. Qed.

(** Claim C3 (as amended): for whole-number dimensions [1 <= W, H < 2^53] the
    rectangle computed by [drawFrame] in doubles covers the canvas up to
    rounding. All four numbers are finite. In the branch taken, one side is
    exactly the canvas side with a zero offset. Both drawn sides are at least
    the canvas side minus 2^-40 px, both offsets are at most 2^-40 px, and
    [offset + size] reaches the canvas side minus 2^-40 px on both axes. *)
Theorem frameGeometry_covers_within (W H : Z) :
  1 <= W < 2 ^ 53 -> 1 <= H < 2 ^ 53 ->
  let r := frameGeometry (of_Z W) (of_Z H) in
  is_finite (drawWidth r) = true /\ is_finite (drawHeight r) = true /\
  is_finite (offsetX r) = true /\ is_finite (offsetY r) = true /\
  ((drawHeight r = canvas_height /\ offsetY r = S754_zero false) \/
   (drawWidth r = canvas_width /\ offsetX r = S754_zero false)) /\
  (720 - pow2 (-40) <= fval (drawWidth r) /\ 1280 - pow2 (-40) <= fval (drawHeight r) /\
   fval (offsetX r) <= pow2 (-40) /\ fval (offsetY r) <= pow2 (-40) /\
   720 - pow2 (-40) <= fval (offsetX r) + fval (drawWidth r) /\
   1280 - pow2 (-40) <= fval (offsetY r) + fval (drawHeight r))%Q.
Proof.
  intros HW HH r. unfold r, frameGeometry. clear r.
  pose proof u_eq as U. pose proof pow2_m1000 as P1000.
  assert (P40 : (pow2 (-40) == 1 # 1099511627776)%Q) by reflexivity.
  assert (P990 : (inject_Z (2 ^ 53) < pow2 990)%Q) by (rewrite <- pow2_Z by lia; apply pow2_lt; lia).
  change (inject_Z (2 ^ 53)) with 9007199254740992%Q in P990.
  destruct (of_Z_shape W HW) as (mW & eW & EW & VW & FW & NW & _).
  destruct (of_Z_shape H HH) as (mH & eH & EH & VH & FH & NH & _).
  pose proof (pos_Q W ltac:(lia)) as W1. pose proof (pos_Q H ltac:(lia)) as H1.
  assert (W2 : (inject_Z W <= 9007199254740992)%Q)
    by (change 9007199254740992%Q with (inject_Z (2 ^ 53)); rewrite <- Zle_Qle; lia).
  assert (H2 : (inject_Z H <= 9007199254740992)%Q)
    by (change 9007199254740992%Q with (inject_Z (2 ^ 53)); rewrite <- Zle_Qle; lia).
  set (q := (inject_Z W / inject_Z H)%Q).
  assert (Hq1 : ((1 # 9007199254740992) <= q)%Q).
  { unfold q. apply Qle_shift_div_l; [lra|]. lra. }
  assert (Hq2 : (q <= 9007199254740992)%Q).
  { unfold q. apply Qle_shift_div_r; [lra|].
    apply (Qle_trans _ (9007199254740992 * 1)); [lra|]. apply Qmult_le_compat_l; lra. }
  assert (Eq : (inject_Z (Zpos mW) * pow2 eW / (inject_Z (Zpos mH) * pow2 eH) == q)%Q)
    by (rewrite FW, FH; reflexivity).
  destruct (div_rel false mW eW false mH eH ltac:(rewrite Eq; lra)) as (ms & es & S1 & S2 & S3).
  cbv zeta in S3. rewrite Eq, U in S3. cbn [xorb] in S1, S2.
  rewrite EW, EH, S1. rewrite <- EW, <- EH. fold canvas_width canvas_height.
  rewrite targetRatio_eq.
  assert (Vt : valid_binary prec emax (S754_finite false 5066549580791808 (-53)) = true) by reflexivity.
  assert (Ft : (fval (S754_finite false 5066549580791808 (-53)) == 9 # 16)%Q) by reflexivity.
  assert (F1280 : (fval canvas_height == 1280)%Q) by reflexivity.
  assert (F720 : (fval canvas_width == 720)%Q) by reflexivity.
  destruct (SFltb (S754_finite false 5066549580791808 (-53)) (S754_finite false ms es)) eqn:Br;
    cbn [drawWidth drawHeight offsetX offsetY].
  - apply ltb_fval in Br; [|exact Vt | exact S2 | reflexivity | reflexivity].
    rewrite Ft in Br. cbn [fval cond_Zopp] in Br.
    destruct (cover_side W H 1280 720 HW HH ltac:(lia) ltac:(lia)) as (C1 & C2 & C3 & C4 & C5).
    { rewrite U. fold q. change (inject_Z 720) with 720%Q. change (inject_Z 1280) with 1280%Q. lra. }
    split; [exact C1|]. split; [reflexivity|]. split; [exact C2|]. split; [reflexivity|].
    split; [left; split; reflexivity|].
    change (fval (S754_zero false)) with 0%Q. rewrite F1280, P40. rewrite P40 in C3, C4, C5.
    change (inject_Z 720) with 720%Q in C3, C5. unfold canvas_height, canvas_width. lra.
  - apply ltb_fval_false in Br; [|exact Vt | exact S2 | reflexivity | reflexivity].
    rewrite Ft in Br. cbn [fval cond_Zopp] in Br.
    destruct (cover_side H W 720 1280 HH HW ltac:(lia) ltac:(lia)) as (C1 & C2 & C3 & C4 & C5).
    { rewrite U.
      assert (Hqi : (inject_Z H / inject_Z W * q == 1)%Q).
      { unfold q. field. repeat split; intro E0; lra. }
      assert (Hpos : (0 <= inject_Z H / inject_Z W)%Q).
      { apply Qle_shift_div_l; lra. }
      assert (K : (q * (1 - (1 # 9007199254740992)) * (inject_Z H / inject_Z W) <=
                   (9 # 16) * (inject_Z H / inject_Z W))%Q) by (apply Qmult_le_compat_r; lra).
      setoid_replace (q * (1 - (1 # 9007199254740992)) * (inject_Z H / inject_Z W))%Q
        with ((inject_Z H / inject_Z W * q) * (1 - (1 # 9007199254740992)))%Q in K by ring.
      rewrite Hqi in K. change (inject_Z 1280) with 1280%Q. change (inject_Z 720) with 720%Q. lra. }
    split; [reflexivity|]. split; [exact C1|]. split; [reflexivity|]. split; [exact C2|].
    split; [right; split; reflexivity|].
    change (fval (S754_zero false)) with 0%Q. rewrite F720, P40. rewrite P40 in C3, C4, C5.
    change (inject_Z 1280) with 1280%Q in C3, C5. unfold canvas_height, canvas_width. lra.
Qed.

(** Claim C3 as stated fails: a 693x1232 source has exactly the ratio 9/16, takes
    the portrait branch, and the rounded [720 / 693] times 1232 gives
    [drawHeight = 1280 - 2^-42 < 1280] and [offsetY = 2^-43 > 0]. *)
Lemma frameGeometry_693x1232 :
  let r := frameGeometry (of_Z 693) (of_Z 1232) in
  (fval (drawHeight r) == 1280 - pow2 (-42) /\ fval (offsetY r) == pow2 (-43) /\
   fval (offsetY r) > 0 /\ fval (drawHeight r) < 1280)%Q.
Proof. vm_compute. repeat split; reflexivity. Qed.

Lemma frameGeometry_covers_within_witness :
  (1 <= 1920 < 2 ^ 53 /\ 1 <= 1080 < 2 ^ 53) /\
  (720 - pow2 (-40) <= fval (drawWidth (frameGeometry (of_Z 1920) (of_Z 1080))))%Q.
Proof.
  split; [split; lia|].
  pose proof (frameGeometry_covers_within 1920 1080 ltac:(lia) ltac:(lia)) as Hc.
  cbv zeta in Hc. destruct Hc as (_ & _ & _ & _ & _ & A & _). exact A.
Defined.

End Frame64Facts.

Module ExtraWitnesses.
Import Frame ExportJob ExportChecks ExportFacts ExportUI
  JsNum Planner Confirm Drafts FileName.

Lemma addClip_past_end_blocks_confirm_witness :
  95 <= 100 /\
  generateClips (mkBackend (Some "user-1"%string) (fun _ => true) []) "video-1" "videos/talk.mp4"
    (mkUI (addClip (Some 100) 95 30 []) [] false) =
  (mkUI (addClip (Some 100) 95 30 []) [] false,
   [Alert "Clip duration must be greater than 0 seconds"]).
Proof.
  assert (H : 95 <= 100) by lra. split; [exact H|].
  exact (DraftFacts.addClip_past_end_blocks_confirm
           (mkBackend (Some "user-1"%string) (fun _ => true) []) "video-1" "videos/talk.mp4"
           (Some 100) 95 30 (mkUI [] [] false) (or_introl H)).
Defined.

Lemma remove_then_add_duplicates_title_witness :
  titled_from 0 [mkSeg 0 30 (clip_title 1); mkSeg 30 30 (clip_title 2);
                 mkSeg 60 30 (clip_title 3)] /\
  (2 <= List.length
          (filter (fun s => String.eqb (title s) (clip_title 3))
             (addClip (Some 10%Q) 95 30
                (removeClip 0 [mkSeg 0 30 (clip_title 1); mkSeg 30 30 (clip_title 2);
                               mkSeg 60 30 (clip_title 3)]))))%nat.
Proof.
  assert (H : titled_from 0 [mkSeg 0 30 (clip_title 1); mkSeg 30 30 (clip_title 2);
                             mkSeg 60 30 (clip_title 3)]).
  { intros i s Hi. destruct i as [|[|[|i]]]; simpl in Hi;
      try (injection Hi as <-; reflexivity). destruct i; discriminate. }
  split; [exact H|].
  exact (DraftFacts.remove_then_add_duplicates_title _ 0 (Some 10%Q) 95 30 H
           ltac:(simpl; lia)).
Defined.

Lemma autoGenerate_passes_validation_witness :
  0 < 95 /\ 0 < 30 /\
  exists segs, autoGenerateClips 5 95 30 = Some segs /\
    exists rest, snd (generateClips (mkBackend (Some "user-1"%string) (fun _ => true) [])
                        "video-1" "videos/talk.mp4" (mkUI segs [] false)) =
                 SetGenerating true :: GetUser :: rest.
Proof.
  assert (H1 : 0 < 95) by lra. assert (H2 : 0 < 30) by lra.
  split; [exact H1|]. split; [exact H2|].
  destruct (autoGenerateClips 5 95 30) as [segs|] eqn:E.
  - exists segs. split; [reflexivity|].
    exact (DraftFacts.autoGenerate_passes_validation 5 95 30 segs
             (mkBackend (Some "user-1"%string) (fun _ => true) []) "video-1" "videos/talk.mp4"
             (mkUI segs [] false) H1 H2 E eq_refl).
  - vm_compute in E. discriminate.
Defined.

Lemma export_single_outcome_witness :
  exists j,
    run Samples.sample_clip (composedTracks Samples.sample_browser)
      (sourceTracks Samples.sample_browser) (start_job 70 "video/webm;codecs=vp8"
                  [(0, SetErrorMessage None);
                   (0, SetExportingClipId (Some "clip-a"%string));
                   (50, SeekTo 30)])
      [Advance 500; PlayResolves; Advance 10000; TimerFires; DataAvailable 5; RecorderOnStop]
    = Some j /\
    (count_effect is_download (log j) + count_effect is_failure_message (log j) <= 1)%nat.
Proof.
  destruct (run Samples.sample_clip (composedTracks Samples.sample_browser)
      (sourceTracks Samples.sample_browser) (start_job 70 "video/webm;codecs=vp8"
                  [(0, SetErrorMessage None);
                   (0, SetExportingClipId (Some "clip-a"%string));
                   (50, SeekTo 30)])
      [Advance 500; PlayResolves; Advance 10000; TimerFires; DataAvailable 5; RecorderOnStop])
    as [j|] eqn:E.
  - exists j. split; [reflexivity|].
    exact (proj1 (ExportOutcomeFacts.export_single_outcome Samples.sample_browser
                    Samples.sample_url Samples.sample_clip 0 _ j
                    [Advance 500; PlayResolves; Advance 10000; TimerFires; DataAvailable 5; RecorderOnStop] sample_launch E)).
  - vm_compute in E. discriminate.
Defined.

Lemma finished_export_released_witness :
  exists j,
    run Samples.sample_clip (composedTracks Samples.sample_browser)
      (sourceTracks Samples.sample_browser) (start_job 70 "video/webm;codecs=vp8"
                  [(0, SetErrorMessage None);
                   (0, SetExportingClipId (Some "clip-a"%string));
                   (50, SeekTo 30)])
      [Advance 500; PlayResolves; Advance 10000; TimerFires; DataAvailable 5; RecorderOnStop]
    = Some j /\ stage j = Finished /\
    count_effect is_recorder_stop (log j) = 1%nat.
Proof.
  destruct (run Samples.sample_clip (composedTracks Samples.sample_browser)
      (sourceTracks Samples.sample_browser) (start_job 70 "video/webm;codecs=vp8"
                  [(0, SetErrorMessage None);
                   (0, SetExportingClipId (Some "clip-a"%string));
                   (50, SeekTo 30)])
      [Advance 500; PlayResolves; Advance 10000; TimerFires; DataAvailable 5; RecorderOnStop])
    as [j|] eqn:E.
  - assert (Hf : stage j = Finished) by (vm_compute in E; injection E as <-; reflexivity).
    exists j. split; [reflexivity|]. split; [exact Hf|].
    exact (proj1 (proj2 (ExportFlowFacts.finished_export_released Samples.sample_browser
                           Samples.sample_url Samples.sample_clip 0 _ j
                           [Advance 500; PlayResolves; Advance 10000; TimerFires; DataAvailable 5; RecorderOnStop] sample_launch E Hf))).
  - vm_compute in E. discriminate.
Defined.

Lemma play_rejection_leaves_recording_witness :
  exists j,
    run Samples.sample_clip (composedTracks Samples.sample_browser)
      (sourceTracks Samples.sample_browser) (start_job 70 "video/webm;codecs=vp8"
                  [(0, SetErrorMessage None);
                   (0, SetExportingClipId (Some "clip-a"%string));
                   (50, SeekTo 30)])
      [PlayRejects; Advance 20000; DataAvailable 5] = Some j /\
    recordingStopped j = false /\ count_effect is_recorder_stop (log j) = 0%nat.
Proof.
  destruct (run Samples.sample_clip (composedTracks Samples.sample_browser)
      (sourceTracks Samples.sample_browser) (start_job 70 "video/webm;codecs=vp8"
                  [(0, SetErrorMessage None);
                   (0, SetExportingClipId (Some "clip-a"%string));
                   (50, SeekTo 30)])
      [PlayRejects; Advance 20000; DataAvailable 5]) as [j|] eqn:E.
  - exists j. split; [reflexivity|].
    destruct (ExportFlowFacts.play_rejection_leaves_recording Samples.sample_browser
                Samples.sample_url Samples.sample_clip 0 _ j [Advance 20000; DataAvailable 5]
                sample_launch E) as (_ & _ & A & B & _).
    split; [exact A | exact B].
  - vm_compute in E. discriminate.
Defined.

Lemma flag_names_running_job_witness :
  exists ui,
    ui_run true true ui_init
      [ClickExport "clip-a"; ClickExport "clip-b"; JobSettles "clip-a" 0; ClickExport "clip-a"]%string
    = Some ui /\ exportingClipId ui = Some "clip-a"%string /\ In "clip-a"%string (inflight ui).
Proof.
  destruct (ui_run true true ui_init
      [ClickExport "clip-a"; ClickExport "clip-b"; JobSettles "clip-a" 0; ClickExport "clip-a"]%string)
    as [ui|] eqn:E.
  - assert (Hx : exportingClipId ui = Some "clip-a"%string)
      by (vm_compute in E; injection E as <-; reflexivity).
    exists ui. split; [reflexivity|]. split; [exact Hx|].
    exact (ExportUIExtraFacts.flag_names_running_job true true _ ui _ E Hx).
  - vm_compute in E. discriminate.
Defined.

Lemma failed_confirm_keeps_drafts_witness :
  exists st' effs,
    generateClips (mkBackend (Some "user-1"%string) (fun r => Qle_bool (row_start_time r) 0) [])
      "video-1" "videos/talk.mp4" (mkUI [mkSeg 0 30 (clip_title 1); mkSeg 30 30 (clip_title 2)] [] true)
    = (st', effs) /\
    In (Alert "Failed to generate clips. Please try again.") effs /\
    In (Insert (mkRow "video-1" (clip_title 1) "videos/talk.mp4" 0 30))
      (snd (generateClips (mkBackend (Some "user-1"%string) (fun _ => true) [])
              "video-1" "videos/talk.mp4" st')).
Proof.
  destruct (generateClips (mkBackend (Some "user-1"%string) (fun r => Qle_bool (row_start_time r) 0) [])
      "video-1" "videos/talk.mp4" (mkUI [mkSeg 0 30 (clip_title 1); mkSeg 30 30 (clip_title 2)] [] true))
    as [st' effs] eqn:E.
  assert (Ha : In (Alert "Failed to generate clips. Please try again.") effs)
    by (vm_compute in E; injection E as _ <-; simpl; tauto).
  assert (Hi : In (Insert (mkRow "video-1" (clip_title 1) "videos/talk.mp4" 0 30)) effs)
    by (vm_compute in E; injection E as _ <-; simpl; tauto).
  exists st', effs. split; [reflexivity|]. split; [exact Ha|].
  destruct (ConfirmExtraFacts.failed_confirm_keeps_drafts _
              (mkBackend (Some "user-1"%string) (fun _ => true) []) _ _ _ st' effs E Ha)
    as (_ & _ & _ & R).
  exact (R ltac:(discriminate) _ Hi).
Defined.

Lemma download_name_clip_title_witness :
  lower_on_ascii (map ascii_lower) /\
  download_name (map ascii_lower) (units (clip_title 3)) =
    units ("clip-" ++ string_of_nat 3 ++ "-portrait.webm").
Proof.
  assert (H : lower_on_ascii (map ascii_lower)) by (intros s _; reflexivity).
  split; [exact H|]. exact (FileNameFacts.download_name_clip_title _ 3 H).
Defined.

End ExtraWitnesses.
